(** * MultiModal RAG backend: retrieval and context-assembly core

    A shallow embedding of the JavaScript sources

    - the Express server that keeps its chunks in the process-wide
      [ragChunks] array and tests [GEMINI_API_KEY] in its handlers,
      called the _in-memory variant_ below;
    - [functions/server.js], the Express server over the Firestore
      collection [rag_chunks], called the _Firestore variant_ below;
    - the two sets of Cloud Functions, whose handlers test the method of
      the request and then run the lines of the Firestore handlers, the
      second set without the greeting classifier;

    together with the properties stated about them.

    JavaScript values are modelled as the engine has them: a string is
    its sequence of UTF-16 code units, a number is an IEEE 754 binary64
    float (Rocq's primitive [float]), an array is a list.  Builtins whose
    definition is the engine's and not the repository's
    ([String.prototype.toLowerCase], [Number.prototype.toFixed]) are
    fields of a record the handlers take as a parameter. *)

From Stdlib Require Import Ascii String DecimalString DecimalNat DecimalFacts.
From Stdlib Require Import List Arith PeanoNat NArith ZArith Bool Lia.
From Stdlib Require Import Permutation Sorted.
From Stdlib Require Import Floats.
Import ListNotations.

(** ** Strings *)

(** One UTF-16 code unit. *)
Definition codeunit := N.

(** A JavaScript string. *)
Definition jsstring := list codeunit.

(** An ASCII literal of the source, as code units. *)
Definition lit (s : string) : jsstring :=
  List.map N_of_ascii (list_ascii_of_string s).

(** [s.slice(a, b)] for non-negative integer arguments: the code units
    from index [min a (length s)] up to, not including,
    [min b (length s)]; empty when [b <= a]. *)
Definition slice (s : jsstring) (a b : nat) : jsstring :=
  firstn (b - a) (skipn a s).

(** ** Chunker *)

Module Chunker.

(** Default of the [maxChars] parameter. *)
Definition DEFAULT_MAX_CHARS : nat := 800.

(** The [while (start < text.length)] loop of [chunkText].  The loop has
    no bound of its own, so the model counts iterations: [None] means the
    loop was still running when [fuel] iterations had been executed. *)
Fixpoint chunk_loop (fuel : nat) (text : jsstring) (maxChars start : nat)
    (chunks : list jsstring) : option (list jsstring) :=
  if start <? length text then
    match fuel with
    | O => None
    | S fuel' =>
        chunk_loop fuel' text maxChars (start + maxChars)
          (chunks ++ [slice text start (start + maxChars)])
    end
  else Some chunks.

(** [function chunkText(text, maxChars = 800)] of the Firestore variant:
    the default applies when the argument is absent. *)
Definition chunkText (fuel : nat) (text : jsstring) (maxChars : option nat)
    : option (list jsstring) :=
  let maxChars := match maxChars with Some m => m | None => DEFAULT_MAX_CHARS end in
  chunk_loop fuel text maxChars 0 [].

(** [chunkText] of the in-memory variant: [maxChars = maxChars || 800],
    so a zero argument is replaced by the default as well. *)
Definition chunkText_inmem (fuel : nat) (text : jsstring) (maxChars : option nat)
    : option (list jsstring) :=
  let maxChars :=
    match maxChars with
    | Some 0 | None => DEFAULT_MAX_CHARS
    | Some m => m
    end in
  chunk_loop fuel text maxChars 0 [].

(** Number of iterations [text] needs: [ceil (length text / maxChars)]. *)
Definition ceil_div (n m : nat) : nat := (n + m - 1) / m.

End Chunker.

(** ** Similarity *)

Module Similarity.

(** A vector: a JavaScript array of numbers. *)
Definition vector := list float.

(** [!x] on a number: true for [0], [-0] and [NaN]. *)
Definition falsy (x : float) : bool := (x =? 0)%float || is_nan x.

(** [v[i]]; reading past the end of an array gives [undefined], which
    arithmetic turns into [NaN]. *)
Definition at_index (v : vector) (i : nat) : float := nth i v nan.

(** One iteration of the [for] loop of [cosineSimilarity]: the
    accumulators are [(dot, na, nb)]. *)
Definition cos_step (a b : vector) (acc : float * float * float) (i : nat)
    : float * float * float :=
  let '(dot, na, nb) := acc in
  ((dot + at_index a i * at_index b i)%float,
   (na + at_index a i * at_index a i)%float,
   (nb + at_index b i * at_index b i)%float).

(** The accumulators after [for (let i = 0; i < len; i++)]. *)
Definition cos_sums (a b : vector) : float * float * float :=
  let len := Nat.min (length a) (length b) in
  fold_left (cos_step a b) (seq 0 len) (0%float, 0%float, 0%float).

(** [function cosineSimilarity(a, b)]. *)
Definition cosineSimilarity (a b : vector) : float :=
  let '(dot, na, nb) := cos_sums a b in
  if falsy na || falsy nb then 0%float
  else (dot / (sqrt na * sqrt nb))%float.

End Similarity.

(** ** Chunk records and the ranker *)

(** A stored chunk.  [embedding] is [None] when the stored field is
    absent or is not an array, the case [Array.isArray] tests for. *)
Record ChunkRecord := {
  id : jsstring;
  text : jsstring;
  embedding : option Similarity.vector;
  sourceType : jsstring;
  sourceName : jsstring;
  createdAt : Z
}.

(** A scored candidate, as built by the [map] of the query handler.  The
    in-memory variant copies exactly these fields; the Firestore variant
    spreads the whole record, whose remaining fields are not read again. *)
Record Scored := {
  s_id : jsstring;
  s_text : jsstring;
  s_sourceType : jsstring;
  s_sourceName : jsstring;
  score : float
}.

Module Ranker.
Import Similarity.

(** Number of candidates kept: the constant of [scored.slice(0, 5)]. *)
Definition TOP_K : nat := 5.

(** The score of one record:
    [Array.isArray(d.embedding) ? cosineSimilarity(queryEmbedding, d.embedding) : 0]. *)
Definition score_of (queryEmbedding : vector) (d : ChunkRecord) : float :=
  match embedding d with
  | Some e => cosineSimilarity queryEmbedding e
  | None => 0%float
  end.

(** The callback of [.map]: one scored candidate per record. *)
Definition to_scored (queryEmbedding : vector) (d : ChunkRecord) : Scored :=
  {| s_id := id d; s_text := text d;
     s_sourceType := sourceType d; s_sourceName := sourceName d;
     score := score_of queryEmbedding d |}.

(** The comparator [(a, b) => b.score - a.score]. *)
Definition by_score_desc (a b : Scored) : float := (score b - score a)%float.

(** [Array.prototype.sort(comparefn)].  The language requires the sort to
    be stable and reads the comparator's result [v] as: [v > 0] puts its
    first argument after its second, [v < 0] before, anything else ([0],
    [NaN]) counts the two as equal.  When these answers agree with one
    order of the elements (here: when no score is [NaN], or all scores
    are the same) they fix the outcome, whatever the algorithm of the
    engine: the elements in that order, equal ones in the order they had.
    A stable insertion sort gives it: [x], which comes from before every
    element of [l], is moved past [y] only when [comparefn x y > 0].
    When the answers agree with no order (some scores are [NaN], others
    differ) the language leaves the outcome to the engine, and the
    insertion sort is one engine among others: what is proved of the
    order then is proved of this one. *)
Section ArraySort.
Variable A : Type.
Variable comparefn : A -> A -> float.

Fixpoint sort_insert (x : A) (l : list A) : list A :=
  match l with
  | [] => [x]
  | y :: l' =>
      if (0 <? comparefn x y)%float then y :: sort_insert x l' else x :: l
  end.

Definition array_sort (l : list A) : list A :=
  fold_right sort_insert [] l.
End ArraySort.
Arguments sort_insert {A} comparefn x l.
Arguments array_sort {A} comparefn l.

(** [docs.map(...)], [scored.sort(...)]. *)
Definition scored_sorted (queryEmbedding : vector) (docs : list ChunkRecord)
    : list Scored :=
  array_sort by_score_desc (List.map (to_scored queryEmbedding) docs).

(** [const topK = scored.slice(0, 5)]. *)
Definition topK (queryEmbedding : vector) (docs : list ChunkRecord)
    : list Scored :=
  firstn TOP_K (scored_sorted queryEmbedding docs).

End Ranker.

(** ** Engine builtins *)

(** Builtins of the JavaScript engine that the handlers call and whose
    definition is not part of the repository. *)
Record Engine := {
  (** [String.prototype.toLowerCase] *)
  toLowerCase : jsstring -> jsstring;
  (** [Number.prototype.toFixed] at 3 digits *)
  toFixed3 : float -> jsstring
}.

Module JsString.

(** The code units matched by [\s] and removed by [trim]: the language's
    WhiteSpace and LineTerminator productions. *)
Definition isWhiteSpace (c : codeunit) : bool :=
  ((9 <=? c) && (c <=? 13) || (c =? 32) || (c =? 160) || (c =? 5760)
   || (8192 <=? c) && (c <=? 8202) || (c =? 8232) || (c =? 8233)
   || (c =? 8239) || (c =? 8287) || (c =? 12288) || (c =? 65279))%N.

(** The code units matched by [\w]: [A-Za-z0-9_]. *)
Definition isWordChar (c : codeunit) : bool :=
  ((48 <=? c) && (c <=? 57) || (65 <=? c) && (c <=? 90) || (c =? 95)
   || (97 <=? c) && (c <=? 122))%N.

Fixpoint trimStart (s : jsstring) : jsstring :=
  match s with
  | c :: s' => if isWhiteSpace c then trimStart s' else s
  | [] => []
  end.

Definition trimEnd (s : jsstring) : jsstring := rev (trimStart (rev s)).

(** [String.prototype.trim]. *)
Definition trim (s : jsstring) : jsstring := trimEnd (trimStart s).

(** Truthiness of a string: [Boolean(s)], false only for the empty one. *)
Definition truthy (s : jsstring) : bool :=
  match s with [] => false | _ :: _ => true end.

(** [s.split(/\s+/)]: the pieces between maximal runs of white space.  A
    run at the start or at the end of [s] leaves an empty piece there, and
    the empty string splits into one empty piece.  [in_sep] tells that the
    previous code unit belonged to a separator, [cur] is the piece being
    read. *)
Fixpoint split_go (in_sep : bool) (cur : jsstring) (s : jsstring)
    : list jsstring :=
  match s with
  | [] => [cur]
  | c :: s' =>
      if isWhiteSpace c then
        if in_sep then split_go true [] s' else cur :: split_go true [] s'
      else split_go false (cur ++ [c]) s'
  end.

Definition split_ws (s : jsstring) : list jsstring := split_go false [] s.

(** Conversion of a non-negative integer to its decimal string, as string
    concatenation does for [i + 1] and [String(nextId++)]. *)
Definition decimal (n : nat) : jsstring :=
  lit (NilZero.string_of_uint (Nat.to_uint n)).

(** [arr.join(sep)]. *)
Fixpoint join (sep : jsstring) (l : list jsstring) : jsstring :=
  match l with
  | [] => []
  | [x] => x
  | x :: l' => x ++ sep ++ join sep l'
  end.

End JsString.

(** ** Regular expressions *)

Module Regex.
Import JsString.

(** The fragment of the pattern language the sources use. *)
Inductive regex :=
| REmpty
| RChar (c : codeunit)
| RSeq (r1 r2 : regex)
| RAlt (r1 r2 : regex)
| RPlus (r : regex)
| RStart
| RWordB.

Definition is_word_before (before : jsstring) : bool :=
  match before with c :: _ => isWordChar c | [] => false end.

Definition is_word_at (after : jsstring) : bool :=
  match after with c :: _ => isWordChar c | [] => false end.

(** The loop of a [+]: [m] matches one iteration.  The pattern is greedy:
    after an iteration it tries another one before it tries the
    continuation [k], and an iteration that did not advance is not
    repeated.  [n] bounds the iterations still allowed; the number of code
    units left is enough. *)
Fixpoint iterate
    (m : (jsstring -> jsstring -> bool) -> jsstring -> jsstring -> bool)
    (k : jsstring -> jsstring -> bool) (n : nat) (before after : jsstring)
    {struct n} : bool :=
  m (fun before' after' =>
       match n with
       | S n' =>
           if length after' <? length after
           then iterate m k n' before' after' else false
       | O => false
       end || k before' after')
    before after.

(** The backtracking matcher.  [before] holds the code units left of the
    current position, nearest first; [after] those right of it; [k] is
    the rest of the pattern. *)
Fixpoint rmatch (r : regex) (k : jsstring -> jsstring -> bool)
    (before after : jsstring) {struct r} : bool :=
  match r with
  | REmpty => k before after
  | RChar c =>
      match after with
      | x :: after' => if (x =? c)%N then k (x :: before) after' else false
      | [] => false
      end
  | RSeq r1 r2 => rmatch r1 (rmatch r2 k) before after
  | RAlt r1 r2 => rmatch r1 k before after || rmatch r2 k before after
  | RPlus r1 => iterate (rmatch r1) k (length after) before after
  | RStart => match before with [] => k before after | _ :: _ => false end
  | RWordB =>
      if xorb (is_word_before before) (is_word_at after)
      then k before after else false
  end.

(** [regex.test(s)] for a pattern without flags: a match may start at any
    index. *)
Definition test (r : regex) (s : jsstring) : bool :=
  existsb (fun i => rmatch r (fun _ _ => true) (rev (firstn i s)) (skipn i s))
    (seq 0 (S (length s))).

(** A run of literal characters. *)
Definition rchars (l : jsstring) : regex :=
  fold_right (fun c r => RSeq (RChar c) r) REmpty l.

Definition rstr (s : string) : regex := rchars (lit s).

(** A literal whose last character carries [+]. *)
Definition rstr_plus (s : string) (last : string) : regex :=
  RSeq (rstr s) (RPlus (rstr last)).

End Regex.

(** ** Query classifier *)

Inductive QueryClass := Greeting | Question.

Module Classifier.
Import JsString Regex.

(** [/^(hi+|hello+|hey+|yo+|sup|good (morning|evening|afternoon|night))\b/] *)
Definition greetingRegex : regex :=
  RSeq RStart
    (RSeq
       (RAlt (rstr_plus "h" "i")
       (RAlt (rstr_plus "hell" "o")
       (RAlt (rstr_plus "he" "y")
       (RAlt (rstr_plus "y" "o")
       (RAlt (rstr "sup")
             (RSeq (rstr "good ")
                (RAlt (rstr "morning")
                (RAlt (rstr "evening")
                (RAlt (rstr "afternoon")
                      (rstr "night"))))))))))
       RWordB).

(** Words above which a message is never a greeting. *)
Definition MAX_GREETING_WORDS : nat := 5.

Section WithEngine.
Variable engine : Engine.

(** [message.trim().toLowerCase()] *)
Definition normalize (message : jsstring) : jsstring :=
  toLowerCase engine (trim message).

(** [normalized.split(/\s+/).filter(Boolean).length] *)
Definition wordCount (normalized : jsstring) : nat :=
  length (filter truthy (split_ws normalized)).

Definition isGreeting (normalized : jsstring) : bool :=
  test greetingRegex normalized.

(** The branch the query handler takes:
    [if (isGreeting && wordCount <= 5)]. *)
Definition classify (message : jsstring) : QueryClass :=
  let normalized := normalize message in
  if isGreeting normalized && (wordCount normalized <=? MAX_GREETING_WORDS)
  then Greeting else Question.
End WithEngine.

End Classifier.

(** ** Context assembler *)

Module ContextAssembler.
Import JsString.

(** ["\n"] *)
Definition NL : jsstring := [10%N].

(** ["\n\n"]: the blank line between two sections. *)
Definition SEP : jsstring := NL ++ NL.

Section WithEngine.
Variable engine : Engine.

(** The text added for the candidate at index [i]:
    ["[#" + (i + 1) + " | " + d.sourceType + ":" + d.sourceName +
     " | score=" + d.score.toFixed(3) + "]\n" + d.text]. *)
Definition section_of (i : nat) (d : Scored) : jsstring :=
  lit "[#" ++ decimal (i + 1) ++ lit " | " ++ s_sourceType d ++ lit ":"
    ++ s_sourceName d ++ lit " | score=" ++ toFixed3 engine (score d)
    ++ lit "]" ++ NL ++ s_text d.

(** [arr.map((d, i) => f(d, i))], from index [i] on. *)
Fixpoint mapi_from {B : Type} (f : nat -> Scored -> B) (i : nat)
    (l : list Scored) : list B :=
  match l with
  | [] => []
  | d :: l' => f i d :: mapi_from f (S i) l'
  end.

(** Firestore variant:
    [topK.map((d, i) => `[#${i + 1} | ...]\n${d.text}`).join("\n\n")]. *)
Definition contextText_join (topK : list Scored) : jsstring :=
  join SEP (mapi_from section_of 0 topK).

(** In-memory variant: the loop
    [for (let i = 0; i < topK.length; i++) contextText += ... + "\n\n"],
    from index [i] on, with [contextText] as accumulator. *)
Fixpoint context_loop (i : nat) (topK : list Scored) (contextText : jsstring)
    : jsstring :=
  match topK with
  | [] => contextText
  | d :: rest => context_loop (S i) rest (contextText ++ section_of i d ++ SEP)
  end.

Definition contextText_loop (topK : list Scored) : jsstring :=
  context_loop 0 topK [].
End WithEngine.

End ContextAssembler.

(** ** Requests, responses and effects *)

(** The body of [POST /ingestText].  A field is [None] when the JSON body
    (or the body itself) does not carry it; other fields hold strings. *)
Record IngestRequest := {
  req_text : option jsstring;
  req_sourceType : option jsstring;
  req_sourceName : option jsstring
}.

(** The body of [POST /chatRag]. *)
Record ChatRequest := {
  req_message : option jsstring
}.

(** One entry of [topChunks] in the answer of a query. *)
Record TopChunk := {
  t_id : jsstring;
  t_sourceType : jsstring;
  t_sourceName : jsstring;
  t_score : float
}.

(** What a handler sends. *)
Inductive Response :=
| Send (status : nat) (body : jsstring)
    (** [res.status(status).send(body)] *)
| JsonIngest (chunks : nat)
    (** [res.json({ ok: true, chunks })] *)
| JsonChat (answer : jsstring) (topChunks : list TopChunk)
    (** [res.json({ answer, topChunks })] *)
| NoResponse.
    (** the handler has not answered *)

(** The HTTP status of a response; [res.json] answers with 200. *)
Definition status_of (r : Response) : option nat :=
  match r with
  | Send status _ => Some status
  | JsonIngest _ | JsonChat _ _ => Some 200
  | NoResponse => None
  end.

Module Effects.
Import Similarity.

(** The calls a handler makes outside its own code. *)
Inductive event :=
| EvBatchEmbed (texts : list jsstring)
    (** [embeddingModel.batchEmbedContents({ requests })] *)
| EvEmbed (text : jsstring)
    (** [embeddingModel.embedContent(...)] *)
| EvGenerate (prompt : jsstring)
    (** [chatModel.generateContent(...)] *)
| EvStoreRead
    (** reading all chunk records *)
| EvStoreWrite (records : nat).
    (** adding chunk records *)

(** Is the event a call to the embedding or generation provider? *)
Definition is_provider_call (e : event) : bool :=
  match e with
  | EvBatchEmbed _ | EvEmbed _ | EvGenerate _ => true
  | EvStoreRead | EvStoreWrite _ => false
  end.

(** Is the event part of retrieval: a call to the embedding gateway or a
    read of the chunk store? *)
Definition is_retrieval (e : event) : bool :=
  match e with
  | EvBatchEmbed _ | EvEmbed _ | EvStoreRead => true
  | EvGenerate _ | EvStoreWrite _ => false
  end.

(** The state a request runs in: the chunk store, the id counter, and the
    calls made so far, oldest first. *)
Record World := {
  store : list ChunkRecord;
  nextId : nat;
  trace : list event
}.

(** A computation returns or throws. *)
Inductive outcome (A : Type) :=
| Ret (a : A)
| Throw (message : jsstring).
Arguments Ret {A} a.
Arguments Throw {A} message.

(** The external services.  Each call returns what the code then reads
    from the result, or throws.

    - [batchEmbedContents]: the array [batchRes.embeddings] (empty when
      the field is absent); an entry is [None] when [embeddings[i]] is
      undefined and [Some None] when it has no [values].
    - [embedContent]: [None] when [embRes.embedding] is absent,
      [Some None] when it has no [values].
      The provider's [values], when present, is an array of numbers.
    - [generateContent]: the value of
      [resp.response.candidates[0].content.parts[0].text], [None] when a
      link of that chain is absent. *)
Record Provider := {
  batchEmbedContents : list jsstring -> outcome (list (option (option vector)));
  embedContent : jsstring -> outcome (option (option vector));
  generateContent : jsstring -> outcome (option jsstring)
}.

(** Everything a request depends on besides its body and the store. *)
Record Env := {
  engine : Engine;
  (** [new GoogleGenerativeAI(key)] and the two models obtained from it *)
  genAI : option jsstring -> Provider;
  (** [process.env.GEMINI_API_KEY] *)
  GEMINI_API_KEY : option jsstring;
  (** the value of the [i]-th [Date.now()] of the request *)
  dateNow : nat -> Z;
  (** the [n]-th identifier [col.doc()] generates *)
  newDocId : nat -> jsstring;
  (** whether Firestore answers; its calls reject otherwise *)
  firestoreUp : bool
}.

(** [getGeminiClients()], and the clients the in-memory variant builds
    when it starts: the models of a client made with the configured key,
    whatever it is. *)
Definition getGeminiClients (env : Env) : Provider :=
  genAI env (GEMINI_API_KEY env).

(** State and exceptions. *)
Definition M (A : Type) : Type := World -> outcome A * World.

Definition ret {A : Type} (a : A) : M A := fun w => (Ret a, w).

Definition throw {A : Type} (message : jsstring) : M A :=
  fun w => (Throw message, w).

Definition bind {A B : Type} (c : M A) (k : A -> M B) : M B :=
  fun w =>
    match c w with
    | (Ret a, w') => k a w'
    | (Throw message, w') => (Throw message, w')
    end.

Definition lift {A : Type} (o : outcome A) : M A := fun w => (o, w).

Definition emit (e : event) : M unit :=
  fun w =>
    (Ret tt, {| store := store w; nextId := nextId w; trace := trace w ++ [e] |}).

(** [try { body } catch (err) { res.status(..).send(handler(err.message)) }] *)
Definition try_catch (body : M Response) (handler : jsstring -> Response)
    : World -> Response * World :=
  fun w =>
    match body w with
    | (Ret r, w') => (r, w')
    | (Throw message, w') => (handler message, w')
    end.

End Effects.

Declare Scope js_scope.
Delimit Scope js_scope with js.
Notation "x <- c ;; k" := (Effects.bind c (fun x => k))
  (at level 61, c at next level, right associativity) : js_scope.
Notation "c ;;; k" := (Effects.bind c (fun _ => k))
  (at level 61, right associativity) : js_scope.

(** ** Fixed texts of the handlers *)

Module Texts.
Import ContextAssembler.

(** The double quote, the en dash and the right single quotation mark. *)
Definition QUOTE : jsstring := [34%N].
Definition EN_DASH : jsstring := [8211%N].
Definition RSQUO : jsstring := [8217%N].

Definition MISSING_TEXT : jsstring := lit "Missing text".
Definition MISSING_MESSAGE : jsstring := lit "Missing message".
Definition KEY_NOT_CONFIGURED : jsstring :=
  lit "GEMINI_API_KEY is not configured on the server".
Definition NO_ANSWER : jsstring := lit "(no answer)".

(** The instructions both variants put before the user's question. *)
Definition GROUNDING : jsstring :=
  lit "You are a helpful assistant that answers questions about the user's uploaded content (documents, OCR text from images, and audio transcripts)."
    ++ NL ++ NL
    ++ lit "Use the " ++ QUOTE ++ lit "Context" ++ QUOTE
    ++ lit " below to ground your answer:" ++ NL
    ++ lit "- Prefer information that clearly matches the user's question." ++ NL
    ++ lit "- If the answer is not clearly supported by the context, say you don't know." ++ NL
    ++ lit "- Write in a natural, conversational tone." ++ NL
    ++ lit "- Keep answers concise (1" ++ EN_DASH ++ lit "3 sentences)." ++ NL ++ NL
    ++ lit "User question:" ++ NL.

Definition GREETED : jsstring := lit "The user greeted you with: " ++ QUOTE.

Definition GREET_REPLY : jsstring :=
  QUOTE ++ lit ". Reply with a short, friendly greeting (1" ++ EN_DASH
    ++ lit "2 sentences) and briefly explain that you are a multimodal RAG chatbot".

Definition HI : jsstring :=
  lit "Hi! I" ++ RSQUO ++ lit "m your multimodal RAG assistant.".

End Texts.

(** ** The in-memory variant *)

Module InMemory.
Import JsString Similarity Ranker Classifier ContextAssembler Effects Texts.
Local Open Scope js_scope.

(** [!GEMINI_API_KEY || GEMINI_API_KEY.length < 20] is false. *)
Definition key_configured (key : option jsstring) : bool :=
  match key with
  | Some k => truthy k && negb (length k <? 20)
  | None => false
  end.

(** [x || dflt] on an optional string field. *)
Definition or_default (x : option jsstring) (dflt : jsstring) : jsstring :=
  match x with
  | Some s => if truthy s then s else dflt
  | None => dflt
  end.

(** [!x || !String(x).trim()] on an optional string field. *)
Definition missing_or_blank (x : option jsstring) : bool :=
  match x with
  | Some s => negb (truthy s) || negb (truthy (trim s))
  | None => true
  end.

(** The text at [candidates[0].content.parts[0].text] when there is one
    and it is truthy, the fallback otherwise. *)
Definition answer_of (text : option jsstring) (fallback : jsstring) : jsstring :=
  match text with
  | Some t => if truthy t then t else fallback
  | None => fallback
  end.

(** [embeddings[i] && Array.isArray(embeddings[i].values)
      ? embeddings[i].values : []] *)
Definition embedding_at (embeddings : list (option (option vector))) (i : nat)
    : vector :=
  match nth_error embeddings i with
  | Some (Some (Some values)) => values
  | _ => []
  end.

(** One iteration of the loop that fills [ragChunks]:
    [ragChunks.push({ id: String(nextId++), ... })]. *)
Definition push_chunk (env : Env) (sourceType sourceName : jsstring)
    (embeddings : list (option (option vector))) (i : nat) (chunk : jsstring)
    : M unit :=
  fun w =>
    (Ret tt,
     {| store := store w ++
          [{| id := decimal (nextId w); text := chunk;
              embedding := Some (embedding_at embeddings i);
              sourceType := sourceType; sourceName := sourceName;
              createdAt := dateNow env i |}];
        nextId := S (nextId w);
        trace := trace w ++ [EvStoreWrite 1] |}).

(** [for (let i = 0; i < chunks.length; i++) { ... }], from index [i]. *)
Fixpoint push_chunks (env : Env) (sourceType sourceName : jsstring)
    (embeddings : list (option (option vector))) (i : nat)
    (chunks : list jsstring) : M unit :=
  match chunks with
  | [] => ret tt
  | chunk :: rest =>
      push_chunk env sourceType sourceName embeddings i chunk ;;;
      push_chunks env sourceType sourceName embeddings (S i) rest
  end.

(** [app.post("/ingestText", ...)] *)
Definition ingestText (env : Env) (req : IngestRequest)
    : World -> Response * World :=
  try_catch
    (let sourceType := or_default (req_sourceType req) (lit "doc") in
     let sourceName := or_default (req_sourceName req) (lit "unknown") in
     if missing_or_blank (req_text req) then ret (Send 400 MISSING_TEXT)
     else if negb (key_configured (GEMINI_API_KEY env))
     then ret (Send 500 KEY_NOT_CONFIGURED)
     else
       let text := match req_text req with Some t => t | None => [] end in
       match Chunker.chunkText_inmem (length text) text None with
       | None => ret NoResponse
       | Some chunks =>
           emit (EvBatchEmbed chunks) ;;;
           embeddings <- lift (batchEmbedContents (getGeminiClients env) chunks) ;;
           push_chunks env sourceType sourceName embeddings 0 chunks ;;;
           ret (JsonIngest (length chunks))
       end)
    (fun message =>
       Send 500
         (lit "Error ingesting text on server: "
            ++ (if truthy message then message else lit "unknown error"))).

(** The prompt of the greeting branch. *)
Definition greetPrompt (message : jsstring) : jsstring :=
  GREETED ++ message ++ GREET_REPLY
    ++ lit " that can answer questions about their uploaded text, images (via OCR), and audio transcripts.".

Definition GREETING_FALLBACK : jsstring :=
  HI ++ lit " You can upload text, images or audio and then ask questions about them.".

(** The prompt of the retrieval branch. *)
Definition ragPrompt (message contextText : jsstring) : jsstring :=
  GROUNDING ++ message ++ NL ++ NL ++ lit "Context:" ++ NL ++ contextText.

(** [topK.map((d) => ({ id, sourceType, sourceName, score }))] *)
Definition to_topChunk (d : Scored) : TopChunk :=
  {| t_id := s_id d; t_sourceType := s_sourceType d;
     t_sourceName := s_sourceName d; t_score := score d |}.

(** [Array.isArray(embRes.embedding.values) ? embRes.embedding.values : []],
    with the guards on [embRes] and [embRes.embedding] before it. *)
Definition queryEmbedding_of (embRes : option (option vector)) : vector :=
  match embRes with
  | Some (Some values) => values
  | _ => []
  end.

(** Reading the process-wide [ragChunks] array. *)
Definition read_ragChunks : M (list ChunkRecord) :=
  fun w =>
    (Ret (store w),
     {| store := store w; nextId := nextId w; trace := trace w ++ [EvStoreRead] |}).

(** [app.post("/chatRag", ...)] *)
Definition chatRag (env : Env) (req : ChatRequest)
    : World -> Response * World :=
  try_catch
    (if missing_or_blank (req_message req) then ret (Send 400 MISSING_MESSAGE)
     else if negb (key_configured (GEMINI_API_KEY env))
     then ret (Send 500 KEY_NOT_CONFIGURED)
     else
       let message := match req_message req with Some m => m | None => [] end in
       match classify (engine env) message with
       | Greeting =>
           emit (EvGenerate (greetPrompt message)) ;;;
           greetResp <- lift (generateContent (getGeminiClients env) (greetPrompt message)) ;;
           ret (JsonChat (answer_of greetResp GREETING_FALLBACK) [])
       | Question =>
           emit (EvEmbed message) ;;;
           embRes <- lift (embedContent (getGeminiClients env) message) ;;
           let queryEmbedding := queryEmbedding_of embRes in
           ragChunks <- read_ragChunks ;;
           let top := topK queryEmbedding ragChunks in
           let contextText := contextText_loop (engine env) top in
           let prompt := ragPrompt message contextText in
           emit (EvGenerate prompt) ;;;
           ragResp <- lift (generateContent (getGeminiClients env) prompt) ;;
           ret (JsonChat (answer_of ragResp NO_ANSWER) (List.map to_topChunk top))
       end)
    (fun message =>
       Send 500
         (lit "Error generating answer: "
            ++ (if truthy message then message else lit "unknown error"))).

End InMemory.

(** ** The Firestore variant *)

Module Firestore.
Import JsString Similarity Ranker Classifier ContextAssembler Effects Texts.
Local Open Scope js_scope.

(** [!x || !x.trim()] on an optional string field. *)
Definition missing_or_blank (x : option jsstring) : bool :=
  match x with
  | Some s => negb (truthy s) || negb (truthy (trim s))
  | None => true
  end.

(** A destructuring default, [{ x = dflt }]: it applies to an absent
    field only. *)
Definition with_default (x : option jsstring) (dflt : jsstring) : jsstring :=
  match x with
  | Some s => s
  | None => dflt
  end.

(** [text || fallback] on the optional chain that reads the answer. *)
Definition answer_of (text : option jsstring) (fallback : jsstring) : jsstring :=
  match text with
  | Some t => if truthy t then t else fallback
  | None => fallback
  end.

(** [embeddings[i]?.values || []] *)
Definition embedding_at (embeddings : list (option (option vector))) (i : nat)
    : vector :=
  match nth_error embeddings i with
  | Some (Some (Some values)) => values
  | _ => []
  end.

(** The callback of [chunks.forEach((chunk, i) => ...)]: a fresh document
    reference and the data set on it.  The callback's results are the
    documents of the write batch. *)
Definition batch_set (env : Env) (sourceType sourceName : jsstring)
    (embeddings : list (option (option vector))) (i : nat) (chunk : jsstring)
    : M ChunkRecord :=
  fun w =>
    (Ret {| id := newDocId env (nextId w); text := chunk;
            embedding := Some (embedding_at embeddings i);
            sourceType := sourceType; sourceName := sourceName;
            createdAt := dateNow env i |},
     {| store := store w; nextId := S (nextId w); trace := trace w |}).

Fixpoint batch_sets (env : Env) (sourceType sourceName : jsstring)
    (embeddings : list (option (option vector))) (i : nat)
    (chunks : list jsstring) : M (list ChunkRecord) :=
  match chunks with
  | [] => ret []
  | chunk :: rest =>
      doc <- batch_set env sourceType sourceName embeddings i chunk ;;
      docs <- batch_sets env sourceType sourceName embeddings (S i) rest ;;
      ret (doc :: docs)
  end.

(** [await batch.commit()]: all documents are written, or the call
    rejects and none is. *)
Definition batch_commit (env : Env) (docs : list ChunkRecord) : M unit :=
  fun w =>
    let w' := {| store := store w; nextId := nextId w;
                 trace := trace w ++ [EvStoreWrite (length docs)] |} in
    if firestoreUp env then
      (Ret tt, {| store := store w ++ docs; nextId := nextId w; trace := trace w' |})
    else (Throw (lit "unavailable"), w').

(** [await db.collection("rag_chunks").get()] and the [forEach] that
    collects [{ id: d.id, ...d.data() }]. *)
Definition collection_get (env : Env) : M (list ChunkRecord) :=
  fun w =>
    let w' := {| store := store w; nextId := nextId w;
                 trace := trace w ++ [EvStoreRead] |} in
    if firestoreUp env then (Ret (store w), w')
    else (Throw (lit "unavailable"), w').

(** [app.post("/ingestText", ...)] *)
Definition ingestText (env : Env) (req : IngestRequest)
    : World -> Response * World :=
  let sourceType := with_default (req_sourceType req) (lit "doc") in
  let sourceName := with_default (req_sourceName req) (lit "unknown") in
  if missing_or_blank (req_text req) then fun w => (Send 400 MISSING_TEXT, w)
  else
    try_catch
      (let text := match req_text req with Some t => t | None => [] end in
       match Chunker.chunkText (length text) text None with
       | None => ret NoResponse
       | Some chunks =>
           emit (EvBatchEmbed chunks) ;;;
           embeddings <- lift (batchEmbedContents (getGeminiClients env) chunks) ;;
           docs <- batch_sets env sourceType sourceName embeddings 0 chunks ;;
           batch_commit env docs ;;;
           ret (JsonIngest (length chunks))
       end)
      (fun _ => Send 500 (lit "Error ingesting text")).

(** The prompt of the greeting branch. *)
Definition greetPrompt (message : jsstring) : jsstring :=
  GREETED ++ message ++ GREET_REPLY ++ lit ".".

(** The prompt of the retrieval branch: a template literal that starts
    and ends with a line break. *)
Definition prompt_of (message contextText : jsstring) : jsstring :=
  NL ++ GROUNDING ++ message ++ NL ++ NL ++ lit "Context:" ++ NL
    ++ contextText ++ NL.

(** [embRes.embedding.values]: reading [values] of an absent [embedding]
    throws; an absent [values] leaves [queryEmbedding] undefined. *)
Definition queryEmbedding_of (embRes : option (option vector))
    : M (option vector) :=
  match embRes with
  | Some values => ret values
  | None => throw (lit "TypeError")
  end.

(** [Array.isArray(d.embedding) ? cosineSimilarity(queryEmbedding, d.embedding) : 0];
    [cosineSimilarity] throws on reading [a.length] when [queryEmbedding]
    is undefined. *)
Definition scored_of (queryEmbedding : option vector) (d : ChunkRecord)
    : M Scored :=
  match embedding d, queryEmbedding with
  | Some _, None => throw (lit "TypeError")
  | _, Some q => ret (to_scored q d)
  | None, None => ret (to_scored [] d)
  end.

(** [docs.map((d) => ({ ...d, score: ... }))] *)
Fixpoint scored_all (queryEmbedding : option vector) (docs : list ChunkRecord)
    : M (list Scored) :=
  match docs with
  | [] => ret []
  | d :: rest =>
      s <- scored_of queryEmbedding d ;;
      ss <- scored_all queryEmbedding rest ;;
      ret (s :: ss)
  end.

Definition to_topChunk (d : Scored) : TopChunk :=
  {| t_id := s_id d; t_sourceType := s_sourceType d;
     t_sourceName := s_sourceName d; t_score := score d |}.

(** [app.post("/chatRag", ...)] *)
Definition chatRag (env : Env) (req : ChatRequest)
    : World -> Response * World :=
  if missing_or_blank (req_message req) then fun w => (Send 400 MISSING_MESSAGE, w)
  else
    try_catch
      (let message := match req_message req with Some m => m | None => [] end in
       match classify (engine env) message with
       | Greeting =>
           emit (EvGenerate (greetPrompt message)) ;;;
           resp <- lift (generateContent (getGeminiClients env) (greetPrompt message)) ;;
           ret (JsonChat (answer_of resp HI) [])
       | Question =>
           emit (EvEmbed message) ;;;
           embRes <- lift (embedContent (getGeminiClients env) message) ;;
           queryEmbedding <- queryEmbedding_of embRes ;;
           docs <- collection_get env ;;
           scored <- scored_all queryEmbedding docs ;;
           let top := firstn TOP_K (array_sort by_score_desc scored) in
           let contextText := contextText_join (engine env) top in
           let prompt := prompt_of message contextText in
           emit (EvGenerate prompt) ;;;
           resp <- lift (generateContent (getGeminiClients env) prompt) ;;
           ret (JsonChat (answer_of resp NO_ANSWER) (List.map to_topChunk top))
       end)
      (fun _ => Send 500 (lit "Error generating answer")).

End Firestore.

(** ** The Cloud Functions *)

(** The two sets of Cloud Functions.  Their handlers start with the same
    lines: two response headers are set, then the method of the request is
    tested; what follows is the body of the Firestore handlers.  The first
    set answers greetings without retrieval; the second has no classifier
    and another prompt. *)
Module CloudFunctions.
Import JsString Similarity Ranker Classifier ContextAssembler Effects Texts.
Local Open Scope js_scope.

(** [a === b] on two strings. *)
Fixpoint same_string (a b : jsstring) : bool :=
  match a, b with
  | [], [] => true
  | x :: a', y :: b' => (x =? y)%N && same_string a' b'
  | _, _ => false
  end.

(** What a function receives: [req.method] and [req.body]. *)
Record HttpRequest (Body : Type) := {
  req_method : jsstring;
  req_body : Body
}.
Arguments req_method {Body} h.
Arguments req_body {Body} h.

(** What a function has sent: the headers given to [res.set] and the
    response. *)
Record HttpResponse := {
  res_headers : list (jsstring * jsstring);
  res_sent : Response
}.

(** [res.set("Access-Control-Allow-Origin", "*")] and
    [res.set("Access-Control-Allow-Headers", "Content-Type")]. *)
Definition CORS : list (jsstring * jsstring) :=
  [(lit "Access-Control-Allow-Origin", lit "*");
   (lit "Access-Control-Allow-Headers", lit "Content-Type")].

(** The first lines of each function, before [handler], the rest of it:
    [if (req.method === "OPTIONS") { res.status(204).send(""); return; }]
    [if (req.method !== "POST") { res.status(405).send("Use POST"); return; }]. *)
Definition method_checked {Body : Type}
    (handler : Body -> World -> Response * World) (req : HttpRequest Body)
    : World -> HttpResponse * World :=
  fun w =>
    if same_string (req_method req) (lit "OPTIONS")
    then ({| res_headers := CORS; res_sent := Send 204 [] |}, w)
    else if negb (same_string (req_method req) (lit "POST"))
    then ({| res_headers := CORS; res_sent := Send 405 (lit "Use POST") |}, w)
    else
      let '(r, w') := handler (req_body req) w in
      ({| res_headers := CORS; res_sent := r |}, w').

(** [exports.ingestText] of both sets: after the method tests, the lines
    of the Firestore handler. *)
Definition ingestText (env : Env) : HttpRequest IngestRequest -> World -> HttpResponse * World :=
  method_checked (Firestore.ingestText env).

(** The prompt of the greeting branch: a template literal with a line
    break after the quoted message. *)
Definition greetPrompt (message : jsstring) : jsstring :=
  GREETED ++ message ++ QUOTE ++ lit ". " ++ NL
    ++ lit "Reply with a short, friendly greeting (1" ++ EN_DASH
    ++ lit "2 sentences) and briefly explain that you are a multimodal RAG chatbot that can answer questions about their uploaded text, images (via OCR), and audio transcripts.".

Definition GREETING_FALLBACK : jsstring :=
  HI ++ lit " You can upload text, images or audio and then ask questions about them.".

(** The prompt of the second set. *)
Definition plain_prompt (message contextText : jsstring) : jsstring :=
  NL ++ lit "You are a helpful assistant using Retrieval-Augmented Generation (RAG)." ++ NL
    ++ lit "You MUST answer using ONLY the context below. If the answer is not in the context, say that you don't know."
    ++ NL ++ NL ++ lit "User question:" ++ NL ++ message ++ NL ++ NL
    ++ lit "Context:" ++ NL ++ contextText ++ NL.

(** The retrieval path, from the call that embeds the question to the
    response; [prompt_of] is the template of the prompt. *)
Definition retrieve (env : Env) (prompt_of : jsstring -> jsstring -> jsstring)
    (message : jsstring) : M Response :=
  emit (EvEmbed message) ;;;
  embRes <- lift (embedContent (getGeminiClients env) message) ;;
  queryEmbedding <- Firestore.queryEmbedding_of embRes ;;
  docs <- Firestore.collection_get env ;;
  scored <- Firestore.scored_all queryEmbedding docs ;;
  let top := firstn TOP_K (array_sort by_score_desc scored) in
  let contextText := contextText_join (engine env) top in
  let prompt := prompt_of message contextText in
  emit (EvGenerate prompt) ;;;
  resp <- lift (generateContent (getGeminiClients env) prompt) ;;
  ret (JsonChat (Firestore.answer_of resp NO_ANSWER)
         (List.map Firestore.to_topChunk top)).

(** The body of [exports.chatRag] of the first set, after the method
    tests. *)
Definition chatRag_body (env : Env) (req : ChatRequest)
    : World -> Response * World :=
  if Firestore.missing_or_blank (req_message req)
  then fun w => (Send 400 MISSING_MESSAGE, w)
  else
    try_catch
      (let message := match req_message req with Some m => m | None => [] end in
       match classify (engine env) message with
       | Greeting =>
           emit (EvGenerate (greetPrompt message)) ;;;
           resp <- lift (generateContent (getGeminiClients env) (greetPrompt message)) ;;
           ret (JsonChat (Firestore.answer_of resp GREETING_FALLBACK) [])
       | Question => retrieve env Firestore.prompt_of message
       end)
      (fun _ => Send 500 (lit "Error generating answer")).

Definition chatRag (env : Env) : HttpRequest ChatRequest -> World -> HttpResponse * World :=
  method_checked (chatRag_body env).

(** The body of [exports.chatRag] of the second set: every message goes
    through retrieval. *)
Definition chatRag_plain_body (env : Env) (req : ChatRequest)
    : World -> Response * World :=
  if Firestore.missing_or_blank (req_message req)
  then fun w => (Send 400 MISSING_MESSAGE, w)
  else
    try_catch
      (let message := match req_message req with Some m => m | None => [] end in
       retrieve env plain_prompt message)
      (fun _ => Send 500 (lit "Error generating answer")).

Definition chatRag_plain (env : Env) : HttpRequest ChatRequest -> World -> HttpResponse * World :=
  method_checked (chatRag_plain_body env).

End CloudFunctions.

(** ** A reference engine *)

(** An engine to run the handlers on concrete inputs.  [toLowerCase] is
    the builtin on strings of ASCII code units, the only ones it is run
    on here; on other strings the builtin lowercases more (and may change
    the length), which this engine does not.  [toFixed3] follows the
    language's definition of [toFixed] for [NaN], the infinities and every
    finite number below [10^21] in magnitude, the range in which the
    digits are those of the nearest multiple of [1/1000], ties going up.
    The theorems take the engine as a parameter; this one serves the
    examples. *)
Module RefEngine.

Definition lower (c : codeunit) : codeunit :=
  if ((65 <=? c) && (c <=? 90))%N then (c + 32)%N else c.

Definition asciiLowerCase (s : jsstring) : jsstring := List.map lower s.

(** The integer nearest to [m * 2^e * 1000], ties going up. *)
Definition thousandths (m : positive) (e : Z) : Z :=
  match e with
  | Zneg p => (2 * (Zpos m * 1000) + 2 ^ Zpos p) / (2 * 2 ^ Zpos p)
  | _ => Zpos m * 2 ^ e * 1000
  end%Z.

(** The digits of [n], at least four of them, with the point before the
    last three. *)
Definition fixed_digits (n : Z) : jsstring :=
  let digits := lit (NilZero.string_of_uint (N.to_uint (Z.to_N n))) in
  let padded := repeat 48%N (4 - length digits) ++ digits in
  firstn (length padded - 3) padded ++ lit "." ++ skipn (length padded - 3) padded.

Definition fixed3 (x : float) : jsstring :=
  match Prim2SF x with
  | S754_nan => lit "NaN"
  | S754_zero _ => lit "0.000"
  | S754_infinity s => (if s then lit "-" else []) ++ lit "Infinity"
  | S754_finite s m e =>
      (if s then lit "-" else []) ++ fixed_digits (thousandths m e)
  end.

Definition engine : Engine :=
  {| toLowerCase := asciiLowerCase; toFixed3 := fixed3 |}.

End RefEngine.

(** * Vocabulary of the properties *)

(** ** Similarity *)

Module SimilaritySpec.
Import Similarity.

(** A sum taken from left to right, starting at [0]. *)
Definition sum_left (l : list float) : float := fold_left PrimFloat.add l 0%float.

(** The component is [0] or [-0]. *)
Definition is_zero (x : float) : Prop := (x =? 0)%float = true.

(** The formula of the cosine similarity over the paired components:
    [(Σ a_i·b_i) / (sqrt(Σ a_i²) · sqrt(Σ b_i²))], and [0] when a sum of
    squares is zero or not a number. *)
Definition cosine_formula (a b : vector) : float :=
  let pairs := combine a b in
  let dot := sum_left (List.map (fun p => (fst p * snd p)%float) pairs) in
  let na := sum_left (List.map (fun p => (fst p * fst p)%float) pairs) in
  let nb := sum_left (List.map (fun p => (snd p * snd p)%float) pairs) in
  if falsy na || falsy nb then 0%float else (dot / (sqrt na * sqrt nb))%float.

(** The accumulators of the loop, updated from one pair of components. *)
Definition pair_step (acc : float * float * float) (p : float * float)
    : float * float * float :=
  let '(dot, na, nb) := acc in
  ((dot + fst p * snd p)%float, (na + fst p * fst p)%float, (nb + snd p * snd p)%float).

End SimilaritySpec.

(** ** The order of binary64 numbers *)

Module FloatOrder.

(** The exponent of the least positive binary64 number. *)
Definition EMIN : Z := -1074.

(** The value of a number as a multiple of [2^EMIN]: an integer, since no
    finite number has a smaller exponent.  The infinities are given the
    first power of two beyond every finite number. *)
Definition sf_key (x : spec_float) : Z :=
  match x with
  | S754_zero _ => 0
  | S754_nan => 0
  | S754_infinity s => cond_Zopp s (2 ^ (emax - EMIN))
  | S754_finite s m e => cond_Zopp s (Zpos m * 2 ^ (e - EMIN))
  end.

Definition key (x : float) : Z := sf_key (Prim2SF x).

(** A number strictly above zero. *)
Definition sf_positive (r : spec_float) : Prop :=
  match r with
  | S754_finite false _ _ | S754_infinity false => True
  | _ => False
  end.

(** The mantissa [m] at exponent [e] is positive and stands for a value
    of at least [2^k]. *)
Definition above (k m e : Z) : Prop :=
  (1 <= m /\ (e <= k -> 2 ^ (k - e) <= m))%Z.

(** Zero of positive sign, a positive number or [NaN]: what a sum of
    squares can be. *)
Definition sf_nonneg (r : spec_float) : Prop :=
  match r with
  | S754_zero false | S754_finite false _ _ | S754_infinity false | S754_nan => True
  | _ => False
  end.

End FloatOrder.

(** ** Ranking *)

Module RankingSpec.
Import Similarity Ranker FloatOrder.

(** [x] may stand before [y] in a list in descending order of score. *)
Definition score_ge (x y : Scored) : Prop := (score y <=? score x)%float = true.

(** Descending order of score: every candidate scores at least as much as
    every candidate after it. *)
Definition descending (l : list Scored) : Prop := StronglySorted score_ge l.



(** No score computed for [docs] is [NaN]. *)
Definition scores_are_numbers (q : vector) (docs : list ChunkRecord) : Prop :=
  Forall (fun d => is_nan (score_of q d) = false) docs.

(** The position of a score in the order of the integers. *)
Definition score_rank (x : Scored) : Z := key (score x).

Definition score_ok (x : Scored) : Prop := is_nan (score x) = false.

(** Descending order of rank. *)
Definition rank_ge {A : Type} (rank : A -> Z) (x y : A) : Prop := (rank y <= rank x)%Z.

(** The record [d] with another embedding. *)
Definition with_embedding (d : ChunkRecord) (e : option vector) : ChunkRecord :=
  {| id := id d; text := text d; embedding := e; sourceType := sourceType d;
     sourceName := sourceName d; createdAt := createdAt d |}.

(** A record that holds the embedding [e] and nothing else of interest. *)
Definition chunk (e : option vector) : ChunkRecord :=
  {| id := []; text := []; embedding := e; sourceType := lit "doc";
     sourceName := lit "unknown"; createdAt := 0 |}.

(** A query and three records whose scores are [-1], [NaN] and [1]: the
    squares of [2^1000] and the product [2^511 * 2^1000] overflow. *)
Definition overflow_query : vector := [0x1p+511%float].


(** A query and four records without overflow. *)
Definition plain_query : vector := [1%float; 0%float].

Definition plain_docs : list ChunkRecord :=
  [chunk (Some [0%float; 1%float]); chunk (Some [1%float; 1%float]); chunk None;
   chunk (Some [1%float])].

(** A record known by its name, with the embedding [e]. *)
Definition named (name : string) (e : option vector) : ChunkRecord :=
  {| id := lit name; text := lit name; embedding := e; sourceType := lit "doc";
     sourceName := lit "unknown"; createdAt := 0 |}.

(** A query and seven records: [b], [d] and [f] score [1], [e] scores
    [sqrt 2 / 2], [a] and [c] score [0] and [g] scores [-1]. *)
Definition tied_query : vector := [1%float; 0%float].

Definition tied_docs : list ChunkRecord :=
  [named "a" (Some [0%float; 1%float]); named "b" (Some [1%float; 0%float]);
   named "c" None; named "d" (Some [1%float; 0%float]);
   named "e" (Some [1%float; 1%float]); named "f" (Some [2%float; 0%float]);
   named "g" (Some [(-1)%float; 0%float])].

End RankingSpec.

(** ** Classification *)

Module ClassifierSpec.
Import JsString Regex Classifier.

(** The only code unit of a one-letter literal. *)
Definition letter (s : string) : codeunit := hd 0%N (lit s).

(** [stem] followed by one or more [last]. *)
Definition stretched (stem last : string) (w : jsstring) : Prop :=
  exists n, w = lit stem ++ repeat (letter last) (S n).

(** The greeting words. *)
Definition greeting_word (w : jsstring) : Prop :=
  stretched "h" "i" w \/ stretched "hell" "o" w \/ stretched "he" "y" w
  \/ stretched "y" "o" w \/ w = lit "sup"
  \/ w = lit "good morning" \/ w = lit "good evening"
  \/ w = lit "good afternoon" \/ w = lit "good night".

Definition last_is_word (w : jsstring) : bool :=
  match rev w with c :: _ => isWordChar c | [] => false end.

Definition first_is_word (rest : jsstring) : bool :=
  match rest with c :: _ => isWordChar c | [] => false end.

(** A word boundary lies between [w] and [rest]: exactly one of the two
    code units around it is a word character, the ends of the string
    counting as none. *)
Definition boundary_between (w rest : jsstring) : Prop :=
  last_is_word w <> first_is_word rest.

(** The message starts with a greeting word that a word boundary follows. *)
Definition starts_with_greeting (s : jsstring) : Prop :=
  exists w rest, s = w ++ rest /\ greeting_word w /\ boundary_between w rest.

(** The number of maximal runs of code units that are not white space:
    one is counted at each code unit that is not white space and follows
    white space or starts the string. *)
Fixpoint count_tokens_from (after_space : bool) (s : jsstring) : nat :=
  match s with
  | [] => 0
  | c :: s' =>
      if isWhiteSpace c then count_tokens_from true s'
      else (if after_space then 1 else 0) + count_tokens_from false s'
  end.

Definition count_tokens (s : jsstring) : nat := count_tokens_from true s.

(** [r] matches exactly the words of [P], wherever it is tried. *)
Definition matches_words (P : jsstring -> Prop) (r : regex) : Prop :=
  forall k before after,
    rmatch r k before after = true
    <-> exists w rest,
          after = w ++ rest /\ P w /\ k (rev w ++ before) rest = true.

(** White space only. *)
Definition white (l : jsstring) : Prop :=
  Forall (fun c => isWhiteSpace c = true) l.

(** [t] is the message [s] trimmed: [s] is [t] between two runs of white
    space, and [t] neither starts nor ends with white space. *)
Definition trimmed (s t : jsstring) : Prop :=
  (exists pre post, s = pre ++ t ++ post /\ white pre /\ white post)
  /\ (forall c rest, t = c :: rest -> isWhiteSpace c = false)
  /\ (forall c rest, t = rest ++ [c] -> isWhiteSpace c = false).

(** The alternation inside the greeting pattern. *)
Definition greetingWords : regex :=
  match greetingRegex with
  | RSeq _ (RSeq words _) => words
  | _ => REmpty
  end.

End ClassifierSpec.

(** ** Context block *)

Module ContextSpec.
Import JsString ContextAssembler.

Section WithEngine.
Variable engine : Engine.

(** [[#<rank> | <sourceType>:<sourceName> | score=<score to 3 decimals>]] *)
Definition header (rank : nat) (d : Scored) : jsstring :=
  lit "[#" ++ decimal rank ++ lit " | " ++ s_sourceType d ++ lit ":"
    ++ s_sourceName d ++ lit " | score=" ++ toFixed3 engine (score d) ++ lit "]".

(** One section: the header line, then the candidate's text. *)
Definition section (rank : nat) (d : Scored) : jsstring :=
  header rank d ++ NL ++ s_text d.

(** The sections of the candidates, ranks counting from [first]. *)
Fixpoint sections_from (first : nat) (topK : list Scored) : list jsstring :=
  match topK with
  | [] => []
  | d :: rest => section first d :: sections_from (S first) rest
  end.

Definition sections (topK : list Scored) : list jsstring := sections_from 1 topK.
End WithEngine.

(** Sections with one blank line between two of them and nothing after
    the last. *)
Definition separated (l : list jsstring) : jsstring := join SEP l.

(** Sections with one blank line after each of them. *)
Definition terminated (l : list jsstring) : jsstring :=
  concat (List.map (fun s => s ++ SEP) l).

(** A candidate to assemble. *)
Definition sky_candidate : Scored :=
  {| s_id := lit "1"; s_text := lit "The sky is blue."; s_sourceType := lit "doc";
     s_sourceName := lit "sky.txt"; score := 0.5%float |}.

End ContextSpec.

(** ** Handlers *)

Module HandlerSpec.
Import JsString Effects.

(** The field is missing, or blank after trimming. *)
Definition blank (x : option jsstring) : Prop :=
  match x with
  | None => True
  | Some s => trim s = []
  end.

(** A client error: a status in the 4xx range, with a message. *)
Definition client_error (r : Response) : Prop :=
  exists status body, r = Send status body /\ 400 <= status < 500 /\ body <> [].

(** A server error: a status in the 5xx range. *)
Definition server_error (r : Response) : Prop :=
  exists status body, r = Send status body /\ 500 <= status < 600.

(** [w] after the calls [evs]. *)
Definition log (w : World) (evs : list event) : World :=
  {| store := store w; nextId := nextId w; trace := trace w ++ evs |}.

(** The outcome of a query that did no retrieval: an answer carries no
    chunk, the store is as it was, and no call made is one to the
    embedding gateway or a read of the store. *)
Definition answers_without_retrieval (w : World) (out : Response * World) : Prop :=
  (forall answer topChunks, fst out = JsonChat answer topChunks -> topChunks = [])
  /\ store (snd out) = store w
  /\ exists evs, trace (snd out) = trace w ++ evs /\ existsb is_retrieval evs = false.

(** The first thing the handler did was to call the provider. *)
Definition calls_provider_first (w : World) (out : Response * World) : Prop :=
  exists e rest, trace (snd out) = trace w ++ e :: rest /\ is_provider_call e = true.

(** A computation that only adds calls to the trace. *)
Definition appends {A : Type} (c : M A) : Prop :=
  forall w, exists evs, trace (snd (c w)) = trace w ++ evs.

(** A provider that is out of reach: every call throws. *)
Definition unreachable : Provider :=
  {| batchEmbedContents := fun _ => Throw (lit "fetch failed");
     embedContent := fun _ => Throw (lit "fetch failed");
     generateContent := fun _ => Throw (lit "fetch failed") |}.

(** A provider that answers every call. *)
Definition answering : Provider :=
  {| batchEmbedContents :=
       fun texts => Ret (List.map (fun _ => Some (Some [1%float])) texts);
     embedContent := fun _ => Ret (Some (Some [1%float]));
     generateContent := fun _ => Ret (Some (lit "Hello!")) |}.

(** An environment around a provider and a key. *)
Definition env_of (p : Provider) (key : option jsstring) : Env :=
  {| engine := RefEngine.engine; genAI := fun _ => p; GEMINI_API_KEY := key;
     dateNow := fun _ => 0%Z; newDocId := fun n => decimal n;
     firestoreUp := true |}.

Definition empty_world : World := {| store := []; nextId := 1; trace := [] |}.

(** A key of 36 characters. *)
Definition A_KEY : jsstring := lit "0123456789abcdefghijklmnopqrstuvwxyz".

Definition ingest_sky : IngestRequest :=
  {| req_text := Some (lit "The sky is blue. Grass is green.");
     req_sourceType := None; req_sourceName := None |}.

Definition ingest_blank : IngestRequest :=
  {| req_text := Some (lit "   "); req_sourceType := None; req_sourceName := None |}.

Definition chat_hi : ChatRequest := {| req_message := Some (lit "hi") |}.

End HandlerSpec.

(** ** Chunk boundaries *)

Module ChunkerSpec.

(** The [n] pieces of [maxChars] code units cut from [text] from index
    [start] on; the last ones are shorter, or empty, where [text] ends. *)
Definition pieces (text : jsstring) (maxChars start n : nat) : list jsstring :=
  List.map (fun k => slice text (start + k * maxChars) (start + k * maxChars + maxChars))
    (seq 0 n).

End ChunkerSpec.

(** ** Requests and the store *)

Module ServiceSpec.
Import JsString Effects HandlerSpec.

(** The chunk store and the id counter of [w'] are those of [w]. *)
Definition same_store (w w' : World) : Prop :=
  store w' = store w /\ nextId w' = nextId w.

(** A computation that leaves the chunk store and the id counter alone. *)
Definition keeps_store {A : Type} (c : M A) : Prop :=
  forall w, same_store w (snd (c w)).

(** The number of calls to the provider among [evs]. *)
Definition provider_calls (evs : list event) : nat :=
  length (filter is_provider_call evs).

(** A computation that calls the provider [n] times at most. *)
Definition calls_at_most {A : Type} (n : nat) (c : M A) : Prop :=
  forall w, exists evs, trace (snd (c w)) = trace w ++ evs /\ provider_calls evs <= n.

(** A request that called the provider [n] times at most. *)
Definition within_budget (n : nat) (w : World) (out : Response * World) : Prop :=
  exists evs, trace (snd out) = trace w ++ evs /\ provider_calls evs <= n.

(** The records an ingestion adds for [chunks]: [mk i n chunk] is the
    record of the chunk at index [i] when the id counter is at [n]. *)
Fixpoint stored_chunks (mk : nat -> nat -> jsstring -> ChunkRecord) (i n : nat)
    (chunks : list jsstring) : list ChunkRecord :=
  match chunks with
  | [] => []
  | chunk :: rest => mk i n chunk :: stored_chunks mk (S i) (S n) rest
  end.

(** The record the in-memory variant pushes for the chunk at index [i]
    when [nextId] is [n]. *)
Definition pushed_record (env : Env) (sourceType sourceName : jsstring)
    (embeddings : list (option (option Similarity.vector))) (i n : nat)
    (chunk : jsstring) : ChunkRecord :=
  {| id := decimal n; text := chunk;
     embedding := Some (InMemory.embedding_at embeddings i);
     sourceType := sourceType; sourceName := sourceName;
     createdAt := dateNow env i |}.

(** The document the Firestore variant sets for the chunk at index [i],
    the [n]-th document reference it asks for. *)
Definition set_record (env : Env) (sourceType sourceName : jsstring)
    (embeddings : list (option (option Similarity.vector))) (i n : nat)
    (chunk : jsstring) : ChunkRecord :=
  {| id := newDocId env n; text := chunk;
     embedding := Some (Firestore.embedding_at embeddings i);
     sourceType := sourceType; sourceName := sourceName;
     createdAt := dateNow env i |}.

(** An ingestion either answers with the number of records it added at
    the end of the store, or answers 400 or 500 and leaves the records of
    the store as they were. *)
Definition all_or_nothing (w : World) (out : Response * World) : Prop :=
  (exists added,
     fst out = JsonIngest (length added) /\ added <> []
     /\ store (snd out) = store w ++ added)
  \/ ((status_of (fst out) = Some 400 \/ status_of (fst out) = Some 500)
      /\ store (snd out) = store w).

(** What the scoring of the Firestore variant comes to.  With a query
    embedding every record is scored.  With [undefined] in its place, a
    record whose embedding is an array makes [cosineSimilarity] read
    [undefined.length], which throws; without such a record every score
    is [0]. *)
Definition scored_or_error (queryEmbedding : option Similarity.vector)
    (docs : list ChunkRecord) : outcome (list Scored) :=
  match queryEmbedding with
  | Some q => Ret (List.map (Ranker.to_scored q) docs)
  | None =>
      if existsb (fun d => match embedding d with Some _ => true | None => false end) docs
      then Throw (lit "TypeError")
      else Ret (List.map (Ranker.to_scored []) docs)
  end.

(** What a query may answer: an answer with five chunks at most, the
    report of a missing message, or a server error. *)
Definition chat_outcome (r : Response) : Prop :=
  (exists answer topChunks, r = JsonChat answer topChunks /\ length topChunks <= 5)
  \/ r = Send 400 Texts.MISSING_MESSAGE
  \/ exists body, r = Send 500 body.

(** An answer with five chunks at most, or a server error. *)
Definition answered_or_failed (r : Response) : Prop :=
  (exists answer topChunks, r = JsonChat answer topChunks /\ length topChunks <= 5)
  \/ exists body, r = Send 500 body.

(** A response that is an answer carries a text. *)
Definition answer_given (r : Response) : Prop :=
  forall answer topChunks, r = JsonChat answer topChunks -> answer <> [].

(** The message of the server error of the in-memory variant for an
    exception whose message is [m]. *)
Definition chat_error (m : jsstring) : jsstring :=
  lit "Error generating answer: " ++ (if truthy m then m else lit "unknown error").

(** A request to the in-memory server. *)
Inductive Request :=
| IngestText (req : IngestRequest)
| ChatRag (req : ChatRequest).

(** The server handles one request. *)
Definition serve (env : Env) (r : Request) (w : World) : Response * World :=
  match r with
  | IngestText req => InMemory.ingestText env req w
  | ChatRag req => InMemory.chatRag env req w
  end.

(** The state after the requests [reqs], handled one after the other,
    each in the environment it comes with. *)
Fixpoint serve_all (reqs : list (Env * Request)) (w : World) : World :=
  match reqs with
  | [] => w
  | (env, r) :: rest => serve_all rest (snd (serve env r w))
  end.

(** The stored chunks are numbered from 1 in the order they were added,
    and [nextId] is the next number. *)
Definition numbered (w : World) : Prop :=
  List.map id (store w) = List.map decimal (seq 1 (length (store w)))
  /\ nextId w = S (length (store w)).

(** A provider whose embedding results carry no embedding. *)
Definition no_embedding : Provider :=
  {| batchEmbedContents := fun _ => Ret [];
     embedContent := fun _ => Ret None;
     generateContent := fun _ => Ret (Some (lit "Hello!")) |}.

(** A store of one record. *)
Definition sky_world : World :=
  {| store := [{| id := lit "1"; text := lit "The sky is blue."; embedding := Some [1%float];
                  sourceType := lit "doc"; sourceName := lit "sky.txt"; createdAt := 0 |}];
     nextId := 2; trace := [] |}.

End ServiceSpec.

(** * Properties *)

(** ** Chunker *)

Section ChunkerFacts.
Import Chunker.

Lemma ceil_div_zero (m : nat) : 0 < m -> ceil_div 0 m = 0.
Proof.
  intros Hm. unfold ceil_div. apply Nat.div_small. lia.
Qed.

Lemma ceil_div_step (n m : nat) :
  0 < m -> 0 < n -> ceil_div n m = S (ceil_div (n - m) m).
Proof.
  intros Hm Hn. unfold ceil_div.
  destruct (Nat.le_gt_cases n m) as [Hle | Hgt].
  - replace (n - m) with 0 by lia.
    rewrite (Nat.div_small (0 + m - 1) m) by lia.
    symmetry. apply Nat.div_unique with (r := n - 1); lia.
  - replace (n + m - 1) with ((n - m + m - 1) + 1 * m) by lia.
    rewrite Nat.div_add by lia. lia.
Qed.

(** [ceil_div n m] is the least number of blocks of size [m] that cover
    [n]. *)
Lemma ceil_div_is_ceiling (n m : nat) :
  0 < m -> n <= ceil_div n m * m /\ ceil_div n m * m < n + m.
Proof.
  intros Hm. unfold ceil_div.
  pose proof (Nat.div_mod_eq (n + m - 1) m) as E.
  pose proof (Nat.mod_upper_bound (n + m - 1) m ltac:(lia)) as B.
  nia.
Qed.

Lemma chunk_loop_more_fuel (text : jsstring) (maxChars : nat) :
  forall fuel start chunks out,
    chunk_loop fuel text maxChars start chunks = Some out ->
    chunk_loop (S fuel) text maxChars start chunks = Some out.
Proof.
  induction fuel as [| fuel IH]; intros start chunks out H.
  - simpl in *. destruct (start <? length text); [discriminate | exact H].
  - cbn [chunk_loop] in H. cbn [chunk_loop].
    destruct (start <? length text); [| exact H].
    apply IH in H. exact H.
Qed.

Lemma chunk_loop_fuel_le (text : jsstring) (maxChars : nat) :
  forall fuel fuel' start chunks out,
    fuel <= fuel' ->
    chunk_loop fuel text maxChars start chunks = Some out ->
    chunk_loop fuel' text maxChars start chunks = Some out.
Proof.
  intros fuel fuel' start chunks out Hle H.
  induction Hle as [| fuel' _ IH]; [exact H |].
  now apply chunk_loop_more_fuel.
Qed.

Lemma slice_length_le (s : jsstring) (a m : nat) :
  length (slice s a (a + m)) <= m.
Proof.
  unfold slice. rewrite length_firstn. lia.
Qed.

(** The loop entered at [start] with [chunks] collected so far: with
    enough fuel it ends, having added the pieces of the rest of the text. *)
Lemma chunk_loop_spec (text : jsstring) (maxChars : nat) :
  0 < maxChars ->
  forall fuel start chunks,
    length text - start <= fuel ->
    exists rest,
      chunk_loop fuel text maxChars start chunks = Some (chunks ++ rest)
      /\ concat rest = skipn start text
      /\ length rest = ceil_div (length text - start) maxChars
      /\ Forall (fun c => length c <= maxChars) rest.
Proof.
  intros Hm.
  induction fuel as [| fuel IH]; intros start chunks Hfuel.
  - exists []. cbn [chunk_loop].
    destruct (Nat.ltb_spec start (length text)) as [Hlt | Hge]; [lia |].
    rewrite app_nil_r, skipn_all2 by lia.
    replace (length text - start) with 0 by lia.
    rewrite ceil_div_zero by exact Hm. auto.
  - cbn [chunk_loop].
    destruct (Nat.ltb_spec start (length text)) as [Hlt | Hge].
    + destruct (IH (start + maxChars) (chunks ++ [slice text start (start + maxChars)]))
        as (rest & Hrun & Hcat & Hlen & Hall); [lia |].
      exists (slice text start (start + maxChars) :: rest).
      repeat split.
      * rewrite Hrun, <- app_assoc. reflexivity.
      * cbn [concat]. rewrite Hcat. unfold slice.
        replace (start + maxChars - start) with maxChars by lia.
        rewrite Nat.add_comm, <- skipn_skipn.
        apply firstn_skipn.
      * cbn [length]. rewrite Hlen.
        rewrite (ceil_div_step (length text - start)) by lia.
        do 2 f_equal. lia.
      * constructor; [apply slice_length_le | exact Hall].
    + exists []. rewrite app_nil_r, skipn_all2 by lia.
      replace (length text - start) with 0 by lia.
      rewrite ceil_div_zero by exact Hm. auto.
Qed.

(** With a chunk size of zero the loop never leaves a text that is not
    empty. *)
Lemma chunk_loop_zero_diverges (text : jsstring) (fuel : nat) :
  text <> [] -> chunkText fuel text (Some 0) = None.
Proof.
  intros Hne. unfold chunkText. generalize (@nil jsstring).
  induction fuel as [| fuel IH]; intros chunks; cbn [chunk_loop];
    destruct text; try congruence; cbn [length Nat.ltb Nat.leb]; auto.
Qed.

(** The handlers call [chunkText(text)]: the loop ends within
    [length text] iterations. *)
Lemma default_chunks (text : jsstring) :
  exists chunks,
    chunkText (length text) text None = Some chunks
    /\ chunkText_inmem (length text) text None = Some chunks.
Proof.
  destruct (chunk_loop_spec text DEFAULT_MAX_CHARS
              ltac:(unfold DEFAULT_MAX_CHARS; lia) (length text) 0 [])
    as (chunks & H & _); [lia |].
  now exists chunks.
Qed.

End ChunkerFacts.

(** C3.  For every text [T] and every chunk size [maxChars > 0],
    [chunkText(T, maxChars)] ends (within [length T] iterations of its
    loop, and with the same result however many more are allowed) and
    returns chunks whose concatenation is [T], whose number is
    [ceil (length T / maxChars)] and none of which is longer than
    [maxChars]; the empty text gives no chunk; an absent [maxChars] stands
    for 800.  Both variants of the function agree. *)
Theorem chunkText_partitions (T : jsstring) (maxChars : nat) :
  0 < maxChars ->
  exists chunks,
    (forall fuel, length T <= fuel ->
       Chunker.chunkText fuel T (Some maxChars) = Some chunks
       /\ Chunker.chunkText_inmem fuel T (Some maxChars) = Some chunks)
    /\ concat chunks = T
    /\ length chunks = Chunker.ceil_div (length T) maxChars
    /\ Forall (fun c => length c <= maxChars) chunks
    /\ (T = [] -> chunks = [])
    /\ (forall fuel,
          Chunker.chunkText fuel T None = Chunker.chunkText fuel T (Some 800)
          /\ Chunker.chunkText_inmem fuel T None
             = Chunker.chunkText_inmem fuel T (Some 800)).
Proof.
  intros Hm.
  destruct (chunk_loop_spec T maxChars Hm (length T) 0 [])
    as (chunks & Hrun & Hcat & Hlen & Hall); [lia |].
  cbn [app skipn] in *. rewrite Nat.sub_0_r in Hlen.
  exists chunks. repeat split; auto.
  - unfold Chunker.chunkText. eapply chunk_loop_fuel_le; eauto.
  - unfold Chunker.chunkText_inmem. destruct maxChars; [lia |].
    eapply chunk_loop_fuel_le; eauto.
  - intros ->. cbn in Hlen. rewrite ceil_div_zero in Hlen by exact Hm.
    now destruct chunks.
Qed.

(** The text [abcdefg] in chunks of 3. *)
Lemma chunkText_partitions_witness :
  0 < 3
  /\ exists chunks,
       (forall fuel, length (lit "abcdefg") <= fuel ->
          Chunker.chunkText fuel (lit "abcdefg") (Some 3) = Some chunks
          /\ Chunker.chunkText_inmem fuel (lit "abcdefg") (Some 3) = Some chunks)
       /\ concat chunks = lit "abcdefg"
       /\ length chunks = Chunker.ceil_div (length (lit "abcdefg")) 3
       /\ Forall (fun c => length c <= 3) chunks
       /\ (lit "abcdefg" = [] -> chunks = [])
       /\ (forall fuel,
             Chunker.chunkText fuel (lit "abcdefg") None
             = Chunker.chunkText fuel (lit "abcdefg") (Some 800)
             /\ Chunker.chunkText_inmem fuel (lit "abcdefg") None
                = Chunker.chunkText_inmem fuel (lit "abcdefg") (Some 800)).
Proof.
  split; [lia |]. apply (chunkText_partitions (lit "abcdefg") 3). lia.
Defined.

Example chunkText_abcdefg :
  Chunker.chunkText 7 (lit "abcdefg") (Some 3)
  = Some [lit "abc"; lit "def"; lit "g"].
Proof. reflexivity. Qed.

(** ** Arithmetic of binary64 numbers *)

(** Facts about the primitive operations, from the definitions they are
    specified by: multiplication is commutative; comparison and the sign
    of a difference follow the order of the integers through [key]; a
    square root and a product of positive numbers do not vanish. *)

Section FloatAlgebra.

Lemma SF64mul_comm (x y : spec_float) : SF64mul x y = SF64mul y x.
Proof.
  unfold SF64mul.
  destruct x as [sx | sx | | sx mx ex], y as [sy | sy | | sy my ey]; cbn [SFmul];
    rewrite ?(xorb_comm sx sy); try reflexivity.
  now rewrite Pos.mul_comm, Z.add_comm.
Qed.

(** Multiplication of numbers is commutative, rounding included. *)
Lemma float_mul_comm (x y : float) : (x * y = y * x)%float.
Proof.
  apply Prim2SF_inj. now rewrite !mul_spec, SF64mul_comm.
Qed.

Lemma float_eqb_zero (x : float) :
  (x =? 0)%float = true -> x = 0%float \/ x = (-0)%float.
Proof.
  rewrite eqb_spec. intros H.
  rewrite <- (SF2Prim_Prim2SF x).
  destruct (Prim2SF x) as [[|] | s | | s m e]; cbn in H; try discriminate.
  - right. reflexivity.
  - left. reflexivity.
  - destruct s; discriminate.
  - destruct s; discriminate.
Qed.

Lemma float_sq_zero (x : float) :
  SimilaritySpec.is_zero x -> (x * x)%float = 0%float.
Proof.
  intros H. destruct (float_eqb_zero x H) as [-> | ->]; reflexivity.
Qed.

End FloatAlgebra.

Section FloatCompare.
Import FloatOrder.
Local Open Scope Z_scope.

Lemma EMIN_eq : EMIN = SpecFloat.emin prec emax.
Proof. reflexivity. Qed.

Lemma digits2_pos_bounds (m : positive) :
  2 ^ (Zpos (digits2_pos m) - 1) <= Zpos m < 2 ^ Zpos (digits2_pos m).
Proof.
  induction m as [m IH | m IH |]; cbn [digits2_pos].
  - rewrite Pos2Z.inj_succ.
    replace (Z.succ (Zpos (digits2_pos m)) - 1) with (Z.succ (Zpos (digits2_pos m) - 1)) by lia.
    rewrite !Z.pow_succ_r by lia. lia.
  - rewrite Pos2Z.inj_succ.
    replace (Z.succ (Zpos (digits2_pos m)) - 1) with (Z.succ (Zpos (digits2_pos m) - 1)) by lia.
    rewrite !Z.pow_succ_r by lia. lia.
  - cbn. lia.
Qed.

Lemma canonical_facts (m : positive) (e : Z) :
  canonical_mantissa prec emax m e = true ->
  EMIN <= e /\ Zpos (digits2_pos m) <= 53 /\ (EMIN < e -> Zpos (digits2_pos m) = 53).
Proof.
  unfold canonical_mantissa, fexp. fold (SpecFloat.emin prec emax). rewrite <- EMIN_eq.
  unfold prec. intros H. apply Z.eqb_eq in H. unfold EMIN in *. lia.
Qed.

Lemma bounded_facts (m : positive) (e : Z) :
  bounded prec emax m e = true ->
  EMIN <= e /\ e <= 971 /\ Zpos (digits2_pos m) <= 53
  /\ (EMIN < e -> Zpos (digits2_pos m) = 53).
Proof.
  unfold bounded. intros H. apply andb_true_iff in H as [Hc He].
  apply canonical_facts in Hc. apply Z.leb_le in He. unfold emax, prec in He. lia.
Qed.

Lemma scaled_lt (m1 m2 : positive) (e1 e2 : Z) :
  bounded prec emax m1 e1 = true -> bounded prec emax m2 e2 = true ->
  e1 < e2 -> Zpos m1 * 2 ^ (e1 - EMIN) < Zpos m2 * 2 ^ (e2 - EMIN).
Proof.
  intros H1 H2 Hlt.
  apply bounded_facts in H1 as (Hmin1 & _ & Hd1 & _).
  apply bounded_facts in H2 as (Hmin2 & _ & _ & Hd2).
  specialize (Hd2 ltac:(lia)).
  pose proof (digits2_pos_bounds m1) as [_ B1].
  pose proof (digits2_pos_bounds m2) as [B2 _]. rewrite Hd2 in B2.
  assert (Zpos m1 < 2 ^ 53).
  { eapply Z.lt_le_trans; [exact B1 |]. apply Z.pow_le_mono_r; lia. }
  replace (e2 - EMIN) with ((e1 - EMIN) + (e2 - e1)) by lia.
  rewrite Z.pow_add_r by lia.
  assert (2 ^ 1 <= 2 ^ (e2 - e1)) by (apply Z.pow_le_mono_r; lia).
  assert (0 < 2 ^ (e1 - EMIN)) by (apply Z.pow_pos_nonneg; lia).
  change (2 ^ (53 - 1)) with 4503599627370496 in B2.
  change (2 ^ 53) with 9007199254740992 in H.
  change (2 ^ 1) with 2 in H0.
  generalize dependent (2 ^ (e1 - EMIN)). generalize dependent (2 ^ (e2 - e1)).
  intros Q HQ P HP.
  apply Z.lt_le_trans with (9007199254740992 * P); [nia |].
  apply Z.le_trans with (Z.pos m2 * (P * 2)); [nia |].
  apply Z.mul_le_mono_nonneg_l; [lia |]. nia.
Qed.

Lemma scaled_compare (m1 m2 : positive) (e1 e2 : Z) :
  bounded prec emax m1 e1 = true -> bounded prec emax m2 e2 = true ->
  match e1 ?= e2 with
  | Lt => Lt
  | Gt => Gt
  | Eq => Pos.compare_cont Eq m1 m2
  end = (Zpos m1 * 2 ^ (e1 - EMIN) ?= Zpos m2 * 2 ^ (e2 - EMIN)).
Proof.
  intros H1 H2. destruct (Z.compare_spec e1 e2) as [-> | Hlt | Hgt].
  - assert (0 < 2 ^ (e2 - EMIN)).
    { apply Z.pow_pos_nonneg; [lia |]. apply bounded_facts in H2. lia. }
    change (Pos.compare_cont Eq m1 m2) with (Zpos m1 ?= Zpos m2).
    symmetry. destruct (Z.compare_spec (Zpos m1) (Zpos m2)) as [E | L | G].
    + rewrite E. apply Z.compare_refl.
    + apply Z.compare_lt_iff. nia.
    + apply Z.compare_gt_iff. nia.
  - symmetry. apply Z.compare_lt_iff. now apply scaled_lt.
  - symmetry. apply Z.compare_gt_iff. now apply scaled_lt.
Qed.

Lemma scaled_bounds (m : positive) (e : Z) :
  bounded prec emax m e = true ->
  0 < Zpos m * 2 ^ (e - EMIN) < 2 ^ (emax - EMIN).
Proof.
  intros H. apply bounded_facts in H as (Hmin & Hmax & Hd & _).
  pose proof (digits2_pos_bounds m) as [_ B].
  assert (Zpos m < 2 ^ 53).
  { eapply Z.lt_le_trans; [exact B |]. apply Z.pow_le_mono_r; lia. }
  assert (0 < 2 ^ (e - EMIN)) by (apply Z.pow_pos_nonneg; lia).
  split; [lia |].
  assert (2 ^ (e - EMIN) <= 2 ^ (971 - EMIN)) by (apply Z.pow_le_mono_r; lia).
  replace (emax - EMIN) with (53 + (971 - EMIN)) by (unfold emax, EMIN; lia).
  rewrite Z.pow_add_r by (unfold EMIN; lia).
  assert (0 < 2 ^ (971 - EMIN)) by (apply Z.pow_pos_nonneg; unfold EMIN; lia).
  nia.
Qed.

Lemma SFcompare_key (x y : spec_float) :
  valid_binary x = true -> valid_binary y = true ->
  x <> S754_nan -> y <> S754_nan ->
  SFcompare x y = Some (sf_key x ?= sf_key y).
Proof.
  intros Vx Vy Nx Ny.
  assert (P : 0 < 2 ^ (emax - EMIN)) by (apply Z.pow_pos_nonneg; unfold emax, EMIN; lia).
  destruct x as [sx | sx | | sx mx ex], y as [sy | sy | | sy my ey];
    try congruence; cbn [SFcompare sf_key valid_binary] in *;
    try (pose proof (scaled_bounds _ _ Vx)); try (pose proof (scaled_bounds _ _ Vy));
    f_equal; symmetry.
  all: try (destruct sx; cbn [cond_Zopp]; try apply Z.compare_refl;
            try (apply Z.compare_lt_iff; lia); try (apply Z.compare_gt_iff; lia); fail).
  all: try (destruct sy; cbn [cond_Zopp]; try apply Z.compare_refl;
            try (apply Z.compare_lt_iff; lia); try (apply Z.compare_gt_iff; lia); fail).
  all: try (destruct sx, sy; cbn [cond_Zopp]; try apply Z.compare_refl;
            try (apply Z.compare_lt_iff; lia); try (apply Z.compare_gt_iff; lia); fail).
  destruct sx, sy; cbn [cond_Zopp].
  - rewrite Z.compare_opp, Z.compare_antisym.
    rewrite <- (scaled_compare _ _ _ _ Vx Vy).
    now destruct (ex ?= ey).
  - apply Z.compare_lt_iff; lia.
  - apply Z.compare_gt_iff; lia.
  - now rewrite (scaled_compare _ _ _ _ Vx Vy).
Qed.

End FloatCompare.

Section FloatSub.
Import FloatOrder.
Local Open Scope Z_scope.

Lemma shl_align_value (m : positive) (e ez : Z) :
  ez <= e -> Zpos (fst (shl_align m e ez)) = Zpos m * 2 ^ (e - ez).
Proof.
  intros Hle. unfold shl_align.
  destruct (ez - e) as [| d | d] eqn:E; try lia.
  - replace (e - ez) with 0 by lia. cbn [fst]. lia.
  - cbn [fst]. change (Pos.iter xO m d) with (shift_pos d m).
    rewrite shift_pos_correct. replace (e - ez) with (Zpos d) by lia.
    change (Z.pow_pos 2 d) with (2 ^ Zpos d). lia.
Qed.

Lemma shl_align_exponent (m : positive) (e ez : Z) :
  EMIN <= e -> EMIN <= ez -> EMIN <= snd (shl_align m e ez).
Proof.
  intros He Hez. unfold shl_align. now destruct (ez - e).
Qed.

Lemma shr_1_halves (mrs : shr_record) :
  0 <= shr_m mrs -> shr_m (shr_1 mrs) = shr_m mrs / 2.
Proof.
  destruct mrs as [m r s]. cbn [shr_m]. intros Hm.
  rewrite <- Z.div2_div.
  destruct m as [| [p | p |] |]; try reflexivity. lia.
Qed.

Lemma shr_iter_halves (p : positive) :
  forall mrs, 0 <= shr_m mrs ->
    shr_m (iter_pos shr_1 p mrs) = shr_m mrs / 2 ^ Zpos p.
Proof.
  induction p as [p IH | p IH |]; intros mrs Hm; cbn [iter_pos].
  - assert (H1 : 0 <= shr_m (shr_1 mrs)).
    { rewrite shr_1_halves by exact Hm. apply Z.div_pos; lia. }
    assert (H2 : 0 <= shr_m (iter_pos shr_1 p (shr_1 mrs))).
    { rewrite IH by exact H1. apply Z.div_pos; [exact H1 |]. apply Z.pow_pos_nonneg; lia. }
    rewrite IH by exact H2. rewrite IH by exact H1. rewrite shr_1_halves by exact Hm.
    assert (0 < 2 ^ Zpos p) by (apply Z.pow_pos_nonneg; lia).
    rewrite !Z.div_div by lia.
    f_equal. replace (Zpos p~1) with (1 + Zpos p + Zpos p) by lia.
    rewrite !Z.pow_add_r by lia. change (2 ^ 1) with 2. lia.
  - assert (H2 : 0 <= shr_m (iter_pos shr_1 p mrs)).
    { rewrite IH by exact Hm. apply Z.div_pos; [exact Hm |]. apply Z.pow_pos_nonneg; lia. }
    rewrite IH by exact H2. rewrite IH by exact Hm.
    assert (0 < 2 ^ Zpos p) by (apply Z.pow_pos_nonneg; lia).
    rewrite !Z.div_div by lia.
    f_equal. replace (Zpos p~0) with (Zpos p + Zpos p) by lia.
    rewrite !Z.pow_add_r by lia. lia.
  - rewrite shr_1_halves by exact Hm. reflexivity.
Qed.

Lemma shr_record_of_loc_m (m : Z) (l : location) :
  shr_m (shr_record_of_loc m l) = m.
Proof. destruct l as [| []]; reflexivity. Qed.

(** Shifting a positive mantissa to its canonical exponent never loses it
    all, as long as the exponent is not below the least one. *)
Lemma shr_fexp_positive (p : positive) (e : Z) (l : location) :
  EMIN <= e ->
  0 < shr_m (fst (shr_fexp prec emax (Zpos p) e l))
  /\ EMIN <= snd (shr_fexp prec emax (Zpos p) e l).
Proof.
  intros He. unfold shr_fexp, shr, fexp. fold (SpecFloat.emin prec emax).
  rewrite <- EMIN_eq. cbn [Zdigits2]. unfold prec.
  pose proof (digits2_pos_bounds p) as [B _].
  destruct (Z.max (Zpos (digits2_pos p) + e - 53) EMIN - e) as [| k | k] eqn:E;
    cbn [fst snd]; rewrite ?shr_record_of_loc_m; try (split; lia).
  split; [| lia].
  rewrite shr_iter_halves by (rewrite shr_record_of_loc_m; lia).
  rewrite shr_record_of_loc_m.
  apply Z.div_str_pos. split; [apply Z.pow_pos_nonneg; lia |].
  eapply Z.le_trans; [| exact B]. apply Z.pow_le_mono_r; lia.
Qed.

Lemma round_nearest_even_positive (m : Z) (l : location) :
  0 < m -> 0 < round_nearest_even m l.
Proof.
  intros Hm. destruct l as [| []]; cbn [round_nearest_even]; try lia.
  destruct (Z.even m); lia.
Qed.

Lemma binary_round_aux_positive (p : positive) (e : Z) (l : location) :
  EMIN <= e -> sf_positive (binary_round_aux prec emax false (Zpos p) e l).
Proof.
  intros He. unfold binary_round_aux.
  pose proof (shr_fexp_positive p e l He) as [H1 H1e].
  destruct (shr_fexp prec emax (Zpos p) e l) as [mrs' e']. cbn [fst snd] in *.
  pose proof (round_nearest_even_positive _ (loc_of_shr_record mrs') H1) as H2.
  destruct (round_nearest_even (shr_m mrs') (loc_of_shr_record mrs')) as [| q | q];
    try lia.
  pose proof (shr_fexp_positive q e' loc_Exact H1e) as [H3 _].
  destruct (shr_fexp prec emax (Zpos q) e' loc_Exact) as [mrs'' e'']. cbn [fst] in H3.
  destruct (shr_m mrs''); try lia.
  now destruct (e'' <=? emax - prec).
Qed.

Lemma binary_round_positive (p : positive) (e : Z) :
  EMIN <= e -> sf_positive (binary_round prec emax false p e).
Proof.
  intros He. unfold binary_round.
  assert (Hf : EMIN <= fexp prec emax (Zpos (digits2_pos p) + e)).
  { unfold fexp. fold (SpecFloat.emin prec emax). rewrite <- EMIN_eq. lia. }
  pose proof (shl_align_exponent p _ _ He Hf) as H.
  destruct (shl_align p e (fexp prec emax (Zpos (digits2_pos p) + e))) as [mz ez].
  now apply binary_round_aux_positive.
Qed.

Lemma binary_round_negative (p : positive) (e : Z) :
  SFltb (S754_zero false) (binary_round prec emax true p e) = false.
Proof.
  unfold binary_round.
  destruct (shl_align p e (fexp prec emax (Zpos (digits2_pos p) + e))) as [mz ez].
  unfold binary_round_aux.
  destruct (shr_fexp prec emax (Zpos mz) ez loc_Exact) as [mrs' e'].
  destruct (shr_fexp prec emax _ e' loc_Exact) as [mrs'' e''].
  destruct (shr_m mrs''); try reflexivity.
  now destruct (e'' <=? emax - prec).
Qed.

Lemma sf_positive_ltb (r : spec_float) :
  sf_positive r -> SFltb (S754_zero false) r = true.
Proof. destruct r as [| [] | | [] ? ?]; cbn; intuition. Qed.

Lemma binary_normalize_sign (d e : Z) :
  EMIN <= e ->
  SFltb (S754_zero false) (binary_normalize prec emax d e false) = (0 <? d).
Proof.
  intros He. destruct d as [| p | p]; cbn [binary_normalize].
  - reflexivity.
  - now rewrite sf_positive_ltb by (now apply binary_round_positive).
  - apply binary_round_negative.
Qed.

Lemma cond_Zopp_scaled (s : bool) (a c : Z) :
  cond_Zopp s a * c = cond_Zopp s (a * c).
Proof. destruct s; cbn [cond_Zopp]; lia. Qed.

Lemma SFsub_sign (x y : spec_float) :
  valid_binary x = true -> valid_binary y = true ->
  x <> S754_nan -> y <> S754_nan ->
  SFltb (S754_zero false) (SF64sub y x) = (sf_key x <? sf_key y).
Proof.
  intros Vx Vy Nx Ny. unfold SF64sub.
  assert (P : 0 < 2 ^ (emax - EMIN)) by (apply Z.pow_pos_nonneg; unfold emax, EMIN; lia).
  destruct x as [sx | sx | | sx mx ex], y as [sy | sy | | sy my ey];
    try congruence; cbn [valid_binary] in *;
    try (pose proof (scaled_bounds _ _ Vx)); try (pose proof (scaled_bounds _ _ Vy)).
  9: {
    cbn [SFsub sf_key].
    pose proof (bounded_facts _ _ Vx) as (Hx & _). pose proof (bounded_facts _ _ Vy) as (Hy & _).
    rewrite binary_normalize_sign by lia.
    rewrite !shl_align_value by lia.
    set (ez := Z.min ey ex).
    assert (S : 0 < 2 ^ (ez - EMIN)) by (apply Z.pow_pos_nonneg; lia).
    replace (ex - EMIN) with ((ex - ez) + (ez - EMIN)) by lia.
    replace (ey - EMIN) with ((ey - ez) + (ez - EMIN)) by lia.
    rewrite !Z.pow_add_r by lia. rewrite !Z.mul_assoc, <- !cond_Zopp_scaled.
    generalize (cond_Zopp sy (Zpos my * 2 ^ (ey - ez))) (cond_Zopp sx (Zpos mx * 2 ^ (ex - ez))).
    intros u v. destruct (Z.ltb_spec 0 (u - v)), (Z.ltb_spec (v * 2 ^ (ez - EMIN)) (u * 2 ^ (ez - EMIN)));
      try reflexivity; nia. }
  all: cbn [SFsub sf_key]; symmetry.
  all: try (destruct sx, sy; cbn [cond_Zopp negb SFltb SFcompare];
            try (apply Z.ltb_lt; lia); try (apply Z.ltb_ge; lia); fail).
  all: try (destruct sx; cbn [cond_Zopp negb SFltb SFcompare];
            try (apply Z.ltb_lt; lia); try (apply Z.ltb_ge; lia); fail).
  all: try (destruct sy; cbn [cond_Zopp negb SFltb SFcompare];
            try (apply Z.ltb_lt; lia); try (apply Z.ltb_ge; lia); fail).
Qed.

End FloatSub.

Section FloatKey.
Import FloatOrder.

Lemma is_nan_false (x : float) :
  is_nan x = false -> Prim2SF x <> S754_nan.
Proof.
  unfold is_nan. rewrite eqb_spec. intros H E. rewrite E in H. discriminate.
Qed.

Lemma float_compare_key (x y : float) :
  is_nan x = false -> is_nan y = false ->
  SFcompare (Prim2SF x) (Prim2SF y) = Some (key x ?= key y)%Z.
Proof.
  intros Hx Hy. apply SFcompare_key; auto using Prim2SF_valid, is_nan_false.
Qed.

Lemma float_ltb_key (x y : float) :
  is_nan x = false -> is_nan y = false ->
  (x <? y)%float = (key x <? key y)%Z.
Proof.
  intros Hx Hy. rewrite ltb_spec. unfold SFltb, Z.ltb.
  now rewrite (float_compare_key x y Hx Hy).
Qed.

Lemma float_leb_key (x y : float) :
  is_nan x = false -> is_nan y = false ->
  (x <=? y)%float = (key x <=? key y)%Z.
Proof.
  intros Hx Hy. rewrite leb_spec. unfold SFleb, Z.leb.
  rewrite (float_compare_key x y Hx Hy). reflexivity.
Qed.


(** The sign test sort applies to [b - a] agrees with the order of [a]
    and [b]. *)
Lemma float_sub_positive (x y : float) :
  is_nan x = false -> is_nan y = false ->
  (0 <? y - x)%float = (key x <? key y)%Z.
Proof.
  intros Hx Hy. rewrite ltb_spec, sub_spec.
  change (Prim2SF 0) with (S754_zero false).
  apply SFsub_sign; auto using Prim2SF_valid, is_nan_false.
Qed.

End FloatKey.

Section FloatLower.
Import FloatOrder.
Local Open Scope Z_scope.

Lemma pow2_split (a b : Z) : 0 <= a -> 0 <= b -> 2 ^ (a + b) = 2 ^ a * 2 ^ b.
Proof. intros. apply Z.pow_add_r; lia. Qed.

Lemma pow2_pos (a : Z) : 0 <= a -> 0 < 2 ^ a.
Proof. intros. apply Z.pow_pos_nonneg; lia. Qed.

(** Shifting a mantissa to its canonical exponent keeps its value at
    least [2^k], when [2^k] is itself a number. *)
Lemma shr_fexp_above (k : Z) (p : positive) (e : Z) (l : location) :
  EMIN <= k -> above k (Zpos p) e ->
  above k (shr_m (fst (shr_fexp prec emax (Zpos p) e l)))
          (snd (shr_fexp prec emax (Zpos p) e l))
  /\ EMIN <= snd (shr_fexp prec emax (Zpos p) e l).
Proof.
  intros Hk [_ Hab]. unfold shr_fexp, shr, fexp. fold (SpecFloat.emin prec emax).
  rewrite <- EMIN_eq. cbn [Zdigits2]. unfold prec.
  pose proof (digits2_pos_bounds p) as [B _].
  destruct (Z.max (Zpos (digits2_pos p) + e - 53) EMIN - e) as [| q | q] eqn:E;
    cbn [fst snd]; rewrite ?shr_record_of_loc_m.
  - split; [| lia]. split; [lia | exact Hab].
  - assert (Hq : 2 ^ Zpos q <= Zpos p).
    { destruct (Z.le_gt_cases EMIN (Zpos (digits2_pos p) + e - 53)) as [H1 | H1].
      - eapply Z.le_trans; [| exact B]. apply Z.pow_le_mono_r; lia.
      - eapply Z.le_trans; [| apply Hab; lia]. apply Z.pow_le_mono_r; lia. }
    rewrite shr_iter_halves by (rewrite shr_record_of_loc_m; lia).
    rewrite shr_record_of_loc_m.
    pose proof (pow2_pos (Zpos q) ltac:(lia)) as Pq.
    split; [| lia]. split.
    + apply Z.div_le_lower_bound; lia.
    + intros Hle. apply Z.div_le_lower_bound; [lia |].
      rewrite <- pow2_split by lia.
      replace (Zpos q + (k - (e + Zpos q))) with (k - e) by lia.
      apply Hab. lia.
  - split; [| lia]. split; [lia | exact Hab].
Qed.

Lemma round_nearest_even_above (k m e : Z) (l : location) :
  above k m e -> above k (round_nearest_even m l) e.
Proof.
  intros [H1 H2]. assert (m <= round_nearest_even m l).
  { destruct l as [| []]; cbn [round_nearest_even]; try lia.
    destruct (Z.even m); lia. }
  split; [lia |]. intros Hle. specialize (H2 Hle). lia.
Qed.

(** Rounding a value of at least [2^k] gives a number of at least [2^k]. *)
Lemma binary_round_aux_above (k m e : Z) (l : location) :
  EMIN <= k <= emax -> above k m e ->
  sf_positive (binary_round_aux prec emax false m e l)
  /\ 2 ^ (k - EMIN) <= sf_key (binary_round_aux prec emax false m e l).
Proof.
  intros Hk Hab. unfold binary_round_aux.
  destruct m as [| p | p]; try (destruct Hab; lia).
  pose proof (shr_fexp_above k p e l (proj1 Hk) Hab) as [H1 H1e].
  destruct (shr_fexp prec emax (Zpos p) e l) as [mrs' e']. cbn [fst snd] in *.
  pose proof (round_nearest_even_above k _ e' (loc_of_shr_record mrs') H1) as H2.
  destruct (round_nearest_even (shr_m mrs') (loc_of_shr_record mrs')) as [| q | q];
    try (destruct H2; lia).
  pose proof (shr_fexp_above k q e' loc_Exact (proj1 Hk) H2) as [[H3 H3k] H3e].
  destruct (shr_fexp prec emax (Zpos q) e' loc_Exact) as [mrs'' e'']. cbn [fst snd] in *.
  destruct (shr_m mrs'') as [| mf | mf]; try lia.
  destruct (e'' <=? emax - prec) eqn:Ee; cbn [sf_positive sf_key cond_Zopp].
  - split; [exact I |].
    destruct (Z.le_gt_cases e'' k) as [Hle | Hgt].
    + specialize (H3k Hle).
      replace (k - EMIN) with ((k - e'') + (e'' - EMIN)) by lia.
      rewrite pow2_split by lia.
      apply Z.mul_le_mono_nonneg_r; [apply Z.lt_le_incl, pow2_pos; lia | exact H3k].
    + apply Z.le_trans with (1 * 2 ^ (e'' - EMIN)).
      * rewrite Z.mul_1_l. apply Z.pow_le_mono_r; lia.
      * apply Z.mul_le_mono_nonneg_r; [apply Z.lt_le_incl, pow2_pos; lia | lia].
  - split; [exact I |]. apply Z.pow_le_mono_r; lia.
Qed.

End FloatLower.

Section FloatSqrtMul.
Import FloatOrder.
Local Open Scope Z_scope.

Lemma sqrt_core_above (m : positive) (e : Z) :
  EMIN <= e ->
  above (-537) (fst (fst (SFsqrt_core_binary prec emax (Zpos m) e)))
               (snd (fst (SFsqrt_core_binary prec emax (Zpos m) e))).
Proof.
  intros He. unfold SFsqrt_core_binary. cbn [Zdigits2].
  set (e' := Z.min (fexp prec emax (Z.div2 (Zpos (digits2_pos m) + e + 1))) (Z.div2 e)).
  assert (He'2 : 2 * e' <= e).
  { pose proof (Zdiv2_odd_eqn e). unfold e'. destruct (Z.odd e); lia. }
  assert (He'min : EMIN <= e').
  { unfold e', fexp. fold (SpecFloat.emin prec emax). rewrite <- EMIN_eq.
    pose proof (Zdiv2_odd_eqn e). unfold EMIN in *. destruct (Z.odd e); lia. }
  remember (e - 2 * e') as s eqn:Es.
  assert (Hs : 0 <= s) by lia.
  remember (match s with Zpos _ => Z.shiftl (Zpos m) s | 0 => Zpos m | Zneg _ => 0 end)
    as m' eqn:Em'.
  assert (Hm' : 2 ^ s <= m').
  { subst m'. destruct s as [| ps | ps]; try lia.
    rewrite Z.shiftl_mul_pow2 by lia.
    pose proof (pow2_pos (Zpos ps) ltac:(lia)). nia. }
  pose proof (pow2_pos s Hs) as Ps.
  pose proof (Z.sqrtrem_spec m' ltac:(lia)) as Hspec.
  pose proof (Z.sqrtrem_sqrt m') as Hq.
  destruct (Z.sqrtrem m') as [q r]. cbn [fst snd] in *. subst q.
  split.
  - apply Z.sqrt_le_square; lia.
  - intros Hle. apply Z.sqrt_le_square; [lia | apply Z.lt_le_incl, pow2_pos; lia |].
    rewrite <- pow2_split by lia.
    eapply Z.le_trans; [| exact Hm']. apply Z.pow_le_mono_r; [lia |].
    unfold EMIN in *. lia.
Qed.

(** The square root of a positive number is a number of at least
    [2^-537], the square root of the least positive one. *)
Lemma SFsqrt_lower (x : spec_float) :
  valid_binary x = true -> sf_positive x ->
  sf_positive (SF64sqrt x) /\ 2 ^ 537 <= sf_key (SF64sqrt x).
Proof.
  intros V P. unfold SF64sqrt.
  destruct x as [s | [|] | | [|] m e]; cbn [sf_positive] in P; try contradiction.
  - cbn [SFsqrt sf_key cond_Zopp sf_positive]. split; [exact I |].
    apply Z.pow_le_mono_r; unfold emax, EMIN; lia.
  - cbn [SFsqrt valid_binary] in *.
    pose proof (bounded_facts _ _ V) as (He & _).
    pose proof (sqrt_core_above m e He) as Hab.
    destruct (SFsqrt_core_binary prec emax (Zpos m) e) as [[mz ez] lz].
    cbn [fst snd] in Hab.
    change 537 with (-537 - EMIN).
    apply binary_round_aux_above; [unfold EMIN, emax; lia | exact Hab].
Qed.

(** The product of two numbers of at least [2^-537] is positive. *)
Lemma SFmul_positive (u v : spec_float) :
  sf_positive u -> sf_positive v ->
  2 ^ 537 <= sf_key u -> 2 ^ 537 <= sf_key v ->
  sf_positive (SF64mul u v).
Proof.
  intros Pu Pv Ku Kv. unfold SF64mul.
  destruct u as [su | [|] | | [|] mu eu]; cbn [sf_positive] in Pu; try contradiction;
    destruct v as [sv | [|] | | [|] mv ev]; cbn [sf_positive] in Pv; try contradiction;
    cbn [SFmul xorb sf_positive]; try exact I.
  cbn [sf_key cond_Zopp] in Ku, Kv.
  assert (Heu : EMIN <= eu).
  { destruct (Z.le_gt_cases EMIN eu); [assumption |].
    rewrite (Z.pow_neg_r 2 (eu - EMIN)) in Ku by lia. pose proof (pow2_pos 537 ltac:(lia)). lia. }
  assert (Hev : EMIN <= ev).
  { destruct (Z.le_gt_cases EMIN ev); [assumption |].
    rewrite (Z.pow_neg_r 2 (ev - EMIN)) in Kv by lia. pose proof (pow2_pos 537 ltac:(lia)). lia. }
  apply (binary_round_aux_above EMIN); [unfold EMIN, emax; lia |].
  split; [lia |]. intros Hle.
  set (a := eu - EMIN) in *. set (b := ev - EMIN) in *.
  assert (Ha : 0 <= a) by (unfold a; lia). assert (Hb : 0 <= b) by (unfold b; lia).
  pose proof (pow2_pos a Ha) as Pa. pose proof (pow2_pos b Hb) as Pb.
  pose proof (pow2_pos 537 ltac:(lia)) as P537.
  assert (Hprod : 2 ^ 537 * 2 ^ 537 <= (Zpos mu * 2 ^ a) * (Zpos mv * 2 ^ b)).
  { apply Z.mul_le_mono_nonneg; lia. }
  rewrite <- pow2_split in Hprod by lia.
  replace (EMIN - (eu + ev)) with (537 + 537 - (a + b)) by (unfold a, b, EMIN; lia).
  assert (Hab : a + b <= 537 + 537) by (unfold a, b, EMIN in *; lia).
  apply (Z.mul_le_mono_pos_r _ _ (2 ^ (a + b))); [apply pow2_pos; lia |].
  rewrite <- pow2_split by lia.
  replace (537 + 537 - (a + b) + (a + b)) with (537 + 537) by lia.
  rewrite (pow2_split a b) by lia.
  replace (Zpos (mu * mv) * (2 ^ a * 2 ^ b))
    with ((Zpos mu * 2 ^ a) * (Zpos mv * 2 ^ b))
    by (rewrite Pos2Z.inj_mul; ring).
  exact Hprod.
Qed.

Lemma SFmul_self_nonneg (x : spec_float) : sf_nonneg (SF64mul x x).
Proof.
  unfold SF64mul. destruct x as [[|] | [|] | | s m e]; cbn; try exact I.
  rewrite xorb_nilpotent. unfold binary_round_aux.
  destruct (shr_fexp prec emax (Zpos (m * m)) (e + e) loc_Exact) as [mrs' e'].
  destruct (shr_fexp prec emax _ e' loc_Exact) as [mrs'' e''].
  destruct (shr_m mrs''); try exact I.
  now destruct (e'' <=? emax - prec).
Qed.

Lemma binary_round_nonneg (p : positive) (e : Z) :
  sf_nonneg (binary_round prec emax false p e).
Proof.
  unfold binary_round.
  destruct (shl_align p e (fexp prec emax (Zpos (digits2_pos p) + e))) as [mz ez].
  unfold binary_round_aux.
  destruct (shr_fexp prec emax (Zpos mz) ez loc_Exact) as [mrs' e'].
  destruct (shr_fexp prec emax _ e' loc_Exact) as [mrs'' e''].
  destruct (shr_m mrs''); try exact I.
  now destruct (e'' <=? emax - prec).
Qed.

Lemma SFadd_nonneg (x y : spec_float) :
  sf_nonneg x -> sf_nonneg y -> sf_nonneg (SF64add x y).
Proof.
  unfold SF64add.
  destruct x as [[|] | [|] | | [|] mx ex]; cbn [sf_nonneg]; try contradiction;
    destruct y as [[|] | [|] | | [|] my ey]; cbn [sf_nonneg]; try contradiction;
    intros _ _; cbn [SFadd sf_nonneg cond_Zopp]; try exact I.
  cbn [binary_normalize Z.add]. apply binary_round_nonneg.
Qed.

End FloatSqrtMul.

(** ** Cosine similarity *)

Section CosineFacts.
Import Similarity SimilaritySpec.

Lemma cos_step_shift (x y : float) (a b : vector) (l : list nat) acc :
  fold_left (cos_step (x :: a) (y :: b)) (List.map S l) acc
  = fold_left (cos_step a b) l acc.
Proof.
  revert acc. induction l as [| i l IH]; intros acc; [reflexivity |].
  cbn [List.map fold_left]. rewrite IH. reflexivity.
Qed.

(** The loop over the indices below the shorter length reads the paired
    components, in order. *)
Lemma cos_sums_pairs (a b : vector) :
  forall acc,
    fold_left (cos_step a b) (seq 0 (Nat.min (length a) (length b))) acc
    = fold_left pair_step (combine a b) acc.
Proof.
  revert b. induction a as [| x a IH]; intros b acc; [reflexivity |].
  destruct b as [| y b]; [reflexivity |].
  cbn [length Nat.min seq combine fold_left].
  rewrite <- seq_shift, cos_step_shift, IH. reflexivity.
Qed.

Lemma pair_step_split (ps : list (float * float)) :
  forall dot na nb,
    fold_left pair_step ps (dot, na, nb)
    = (fold_left PrimFloat.add (List.map (fun p => (fst p * snd p)%float) ps) dot,
       fold_left PrimFloat.add (List.map (fun p => (fst p * fst p)%float) ps) na,
       fold_left PrimFloat.add (List.map (fun p => (snd p * snd p)%float) ps) nb).
Proof.
  induction ps as [| p ps IH]; intros dot na nb; [reflexivity |].
  cbn [fold_left List.map pair_step]. apply IH.
Qed.

Lemma cosineSimilarity_formula (a b : vector) :
  cosineSimilarity a b = cosine_formula a b.
Proof.
  unfold cosineSimilarity, cos_sums, cosine_formula, sum_left.
  rewrite cos_sums_pairs, pair_step_split. reflexivity.
Qed.

Lemma combine_firstn_min (A B : Type) (a : list A) (b : list B) :
  combine (firstn (Nat.min (length a) (length b)) a)
          (firstn (Nat.min (length a) (length b)) b)
  = combine a b.
Proof.
  revert b. induction a as [| x a IH]; intros b; [reflexivity |].
  destruct b as [| y b]; [reflexivity |].
  cbn [length Nat.min firstn combine]. now rewrite IH.
Qed.

Lemma combine_swap (A B : Type) (a : list A) (b : list B) :
  combine b a = List.map (fun p => (snd p, fst p)) (combine a b).
Proof.
  revert b. induction a as [| x a IH]; intros [| y b]; try reflexivity.
  cbn [combine List.map fst snd]. now rewrite IH.
Qed.

Lemma sum_left_zeros (l : list float) :
  Forall (fun x => x = 0%float) l -> sum_left l = 0%float.
Proof.
  unfold sum_left. induction 1 as [| x l -> _ IH]; [reflexivity |].
  cbn [fold_left]. exact IH.
Qed.

Lemma squares_of_zeros_l (u v : vector) :
  Forall is_zero u -> length u = length v ->
  Forall (fun x => x = 0%float)
    (List.map (fun p : float * float => (fst p * fst p)%float) (combine u v)).
Proof.
  intros H. revert v. induction H as [| x u Hx _ IH]; intros [| y v] Hlen;
    cbn [combine List.map]; try constructor; try discriminate.
  - cbn [fst]. now apply float_sq_zero.
  - apply IH. now injection Hlen.
Qed.

Lemma squares_of_zeros_r (u v : vector) :
  Forall is_zero v -> length u = length v ->
  Forall (fun x => x = 0%float)
    (List.map (fun p : float * float => (snd p * snd p)%float) (combine u v)).
Proof.
  intros H. revert u. induction H as [| y v Hy _ IH]; intros [| x u] Hlen;
    cbn [combine List.map]; try constructor; try discriminate.
  - cbn [snd]. now apply float_sq_zero.
  - apply IH. now injection Hlen.
Qed.

Lemma cosineSimilarity_prefix (a b : vector) :
  cosineSimilarity a b
  = cosine_formula (firstn (Nat.min (length a) (length b)) a)
                   (firstn (Nat.min (length a) (length b)) b).
Proof.
  rewrite cosineSimilarity_formula. unfold cosine_formula.
  now rewrite combine_firstn_min.
Qed.

Lemma cosineSimilarity_zero_prefix (a b : vector) :
  Forall is_zero (firstn (Nat.min (length a) (length b)) a)
  \/ Forall is_zero (firstn (Nat.min (length a) (length b)) b) ->
  cosineSimilarity a b = 0%float.
Proof.
  intros H. rewrite cosineSimilarity_prefix. unfold cosine_formula.
  set (len := Nat.min (length a) (length b)) in *.
  assert (Hlen : length (firstn len a) = length (firstn len b)).
  { rewrite !length_firstn. unfold len. lia. }
  destruct H as [H | H].
  - now rewrite (sum_left_zeros _ (squares_of_zeros_l _ _ H Hlen)).
  - rewrite (sum_left_zeros _ (squares_of_zeros_r _ _ H Hlen)).
    cbn [falsy]. now rewrite orb_true_r.
Qed.

Lemma cosineSimilarity_nil_r (a : vector) : cosineSimilarity a [] = 0%float.
Proof.
  unfold cosineSimilarity, cos_sums. now rewrite Nat.min_0_r.
Qed.

End CosineFacts.

Section DivisorFacts.
Import FloatOrder Similarity SimilaritySpec.

Lemma truthy_positive (x : float) :
  sf_nonneg (Prim2SF x) -> falsy x = false -> sf_positive (Prim2SF x).
Proof.
  unfold falsy, is_nan. rewrite !eqb_spec. change (Prim2SF 0) with (S754_zero false).
  destruct (Prim2SF x) as [[|] | [|] | | [|] m e]; cbn; try contradiction;
    try discriminate; auto.
Qed.

Lemma positive_truthy (x : float) :
  sf_positive (Prim2SF x) -> falsy x = false.
Proof.
  unfold falsy, is_nan. rewrite !eqb_spec. change (Prim2SF 0) with (S754_zero false).
  destruct (Prim2SF x) as [[|] | [|] | | [|] m e]; cbn; try contradiction; auto.
  intros _. now rewrite Z.compare_refl, Pos.compare_cont_refl.
Qed.

(** A sum of squares is zero, positive or [NaN]. *)
Lemma sum_squares_nonneg (l : list float) :
  forall acc,
    sf_nonneg (Prim2SF acc) ->
    sf_nonneg (Prim2SF (fold_left PrimFloat.add (List.map (fun x => (x * x)%float) l) acc)).
Proof.
  induction l as [| x l IH]; intros acc Hacc; [exact Hacc |].
  cbn [List.map fold_left]. apply IH. rewrite add_spec.
  apply SFadd_nonneg; [exact Hacc |]. rewrite mul_spec. apply SFmul_self_nonneg.
Qed.

(** The product of the square roots of two positive numbers is neither
    zero nor [NaN]. *)
Lemma sqrt_product_truthy (na nb : float) :
  sf_positive (Prim2SF na) -> sf_positive (Prim2SF nb) ->
  falsy (sqrt na * sqrt nb) = false.
Proof.
  intros Pa Pb. apply positive_truthy. rewrite mul_spec, !sqrt_spec.
  destruct (SFsqrt_lower _ (Prim2SF_valid na) Pa) as [Qa Ka].
  destruct (SFsqrt_lower _ (Prim2SF_valid nb) Pb) as [Qb Kb].
  now apply SFmul_positive.
Qed.

(** When the division of [cosineSimilarity] is reached, its divisor is
    neither zero nor [NaN]. *)
Lemma divisor_truthy (a b : vector) :
  let '(_, na, nb) := cos_sums a b in
  falsy na || falsy nb = false -> falsy (sqrt na * sqrt nb) = false.
Proof.
  unfold cos_sums. rewrite cos_sums_pairs, pair_step_split.
  intros H. apply orb_false_iff in H as [Ha Hb].
  apply sqrt_product_truthy.
  - apply truthy_positive; [| exact Ha].
    rewrite <- (map_map fst (fun x => (x * x)%float)).
    now apply sum_squares_nonneg.
  - apply truthy_positive; [| exact Hb].
    rewrite <- (map_map snd (fun x => (x * x)%float)).
    now apply sum_squares_nonneg.
Qed.

End DivisorFacts.

(** C9.  For all vectors [a] and [b], of equal length or not,
    [cosineSimilarity a b] equals [cosineSimilarity b a], and both are
    the cosine similarity of the first [min (length a) (length b)]
    components of each: the value of the function on the two prefixes, and
    the value of the formula on them.  The function has a value on every
    pair of vectors: a difference of lengths raises nothing. *)
Theorem cosineSimilarity_symmetric_prefix (a b : Similarity.vector) :
  let len := Nat.min (length a) (length b) in
  Similarity.cosineSimilarity a b = Similarity.cosineSimilarity b a
  /\ Similarity.cosineSimilarity a b
     = Similarity.cosineSimilarity (firstn len a) (firstn len b)
  /\ Similarity.cosineSimilarity a b
     = SimilaritySpec.cosine_formula (firstn len a) (firstn len b).
Proof.
  intros len. repeat split.
  - rewrite !cosineSimilarity_formula. unfold SimilaritySpec.cosine_formula.
    rewrite (combine_swap _ _ a b), !map_map. cbn [fst snd].
    rewrite (map_ext (fun p : float * float => (snd p * fst p)%float)
               (fun p => (fst p * snd p)%float))
      by (intros p; apply float_mul_comm).
    set (na := SimilaritySpec.sum_left
                 (List.map (fun p : float * float => (fst p * fst p)%float) (combine a b))).
    set (nb := SimilaritySpec.sum_left
                 (List.map (fun p : float * float => (snd p * snd p)%float) (combine a b))).
    now rewrite (orb_comm (Similarity.falsy nb)), (float_mul_comm (sqrt nb)).
  - rewrite !cosineSimilarity_formula. unfold SimilaritySpec.cosine_formula, len.
    now rewrite combine_firstn_min.
  - apply cosineSimilarity_prefix.
Qed.

(** C2.  [cosineSimilarity] has a value on every pair of vectors and
    never divides by zero: whenever one of them is empty, or every
    component of the first [min (length a) (length b)] components of [a],
    or of [b], is zero, the value is exactly [0], the test on the sums of
    squares answering before the division; and whenever the division is
    reached, on any vectors, its divisor is neither zero nor [NaN].  So a
    record whose embedding is [b] scores [0] against the query [a], and
    scoring a record with an empty embedding gives [0]. *)
Theorem cosineSimilarity_zero_norm (a b : Similarity.vector) :
  let len := Nat.min (length a) (length b) in
  a = [] \/ b = []
  \/ Forall SimilaritySpec.is_zero (firstn len a)
  \/ Forall SimilaritySpec.is_zero (firstn len b) ->
  Similarity.cosineSimilarity a b = 0%float
  /\ (forall d, embedding d = Some b -> Ranker.score_of a d = 0%float)
  /\ (forall q d, embedding d = Some [] -> Ranker.score_of q d = 0%float)
  /\ (forall x y,
        let '(_, na, nb) := Similarity.cos_sums x y in
        Similarity.falsy na || Similarity.falsy nb = false ->
        Similarity.falsy (sqrt na * sqrt nb) = false).
Proof.
  intros len H.
  assert (E : Similarity.cosineSimilarity a b = 0%float).
  { apply cosineSimilarity_zero_prefix. fold len.
    destruct H as [-> | [-> | [H | H]]]; auto.
    right. rewrite firstn_nil. constructor. }
  split; [exact E |]. split; [| split].
  - intros d Hd. unfold Ranker.score_of. now rewrite Hd.
  - intros q d Hd. unfold Ranker.score_of. rewrite Hd. apply cosineSimilarity_nil_r.
  - intros x y. apply divisor_truthy.
Qed.

(** A zero vector against a vector of three components. *)
Lemma cosineSimilarity_zero_norm_witness :
  Forall SimilaritySpec.is_zero [0%float; (-0)%float]
  /\ Similarity.cosineSimilarity [0%float; (-0)%float] [3%float; 4%float; 5%float]
     = 0%float.
Proof.
  assert (H : Forall SimilaritySpec.is_zero [0%float; (-0)%float])
    by (repeat constructor).
  split; [exact H |].
  apply (cosineSimilarity_zero_norm [0%float; (-0)%float] [3%float; 4%float; 5%float]).
  right. right. left. exact H.
Defined.

Example cosineSimilarity_unequal_lengths :
  Similarity.cosineSimilarity [3%float; 4%float] [3%float; 4%float; 5%float]
  = 1%float.
Proof. reflexivity. Qed.

(** ** Stable sorting *)

Section StableSort.
Import Ranker.
Variable A : Type.
Variable comparefn : A -> A -> float.
Variable rank : A -> Z.
Variable good : A -> Prop.
Hypothesis comparefn_rank :
  forall x y, good x -> good y ->
    (0 <? comparefn x y)%float = (rank x <? rank y)%Z.

Lemma sort_insert_perm (x : A) (l : list A) :
  Permutation (sort_insert comparefn x l) (x :: l).
Proof.
  induction l as [| y l IH]; cbn [sort_insert]; [reflexivity |].
  destruct (0 <? comparefn x y)%float; [| reflexivity].
  rewrite IH. apply perm_swap.
Qed.

Lemma array_sort_perm (l : list A) :
  Permutation (array_sort comparefn l) l.
Proof.
  induction l as [| x l IH]; cbn [array_sort fold_right]; [reflexivity |].
  fold (array_sort comparefn l). now rewrite sort_insert_perm, IH.
Qed.

Lemma array_sort_good (l : list A) :
  Forall good l -> Forall good (array_sort comparefn l).
Proof.
  intros H. rewrite Forall_forall in *. intros x Hx. apply H.
  eapply Permutation_in; [apply array_sort_perm | exact Hx].
Qed.

Lemma sort_insert_sorted (x : A) (l : list A) :
  good x -> Forall good l ->
  StronglySorted (RankingSpec.rank_ge rank) l ->
  StronglySorted (RankingSpec.rank_ge rank) (sort_insert comparefn x l).
Proof.
  intros Gx Gl Hs. induction Hs as [| y l Hs IH Hy]; cbn [sort_insert].
  - repeat constructor.
  - inversion Gl as [| ? ? Gy Gl']; subst.
    rewrite (comparefn_rank _ _ Gx Gy).
    destruct (Z.ltb_spec (rank x) (rank y)) as [Hlt | Hge].
    + constructor; [now apply IH |].
      rewrite Forall_forall in *. intros z Hz.
      apply (Permutation_in _ (sort_insert_perm x l)) in Hz.
      destruct Hz as [<- | Hz]; [unfold RankingSpec.rank_ge; lia | now apply Hy].
    + constructor; [now constructor |].
      constructor; [exact Hge |].
      rewrite Forall_forall in *. intros z Hz. specialize (Hy z Hz).
      unfold RankingSpec.rank_ge in *. lia.
Qed.

Lemma array_sort_sorted (l : list A) :
  Forall good l -> StronglySorted (RankingSpec.rank_ge rank) (array_sort comparefn l).
Proof.
  induction 1 as [| x l Gx Gl IH]; cbn [array_sort fold_right]; [constructor |].
  fold (array_sort comparefn l).
  apply sort_insert_sorted; auto using array_sort_good.
Qed.

(** Candidates of equal rank keep the order they had. *)
Lemma sort_insert_stable (v : Z) (x : A) (l : list A) :
  good x -> Forall good l ->
  filter (fun y => rank y =? v)%Z (sort_insert comparefn x l)
  = filter (fun y => rank y =? v)%Z (x :: l).
Proof.
  intros Gx Gl. induction Gl as [| y l Gy Gl IH]; [reflexivity |].
  cbn [sort_insert]. rewrite (comparefn_rank _ _ Gx Gy).
  destruct (Z.ltb_spec (rank x) (rank y)) as [Hlt | Hge]; [| reflexivity].
  cbn [filter] in *. rewrite IH.
  destruct (Z.eqb_spec (rank x) v), (Z.eqb_spec (rank y) v); try reflexivity. lia.
Qed.

Lemma array_sort_stable (v : Z) (l : list A) :
  Forall good l ->
  filter (fun y => rank y =? v)%Z (array_sort comparefn l)
  = filter (fun y => rank y =? v)%Z l.
Proof.
  induction 1 as [| x l Gx Gl IH]; [reflexivity |].
  cbn [array_sort fold_right]. fold (array_sort comparefn l).
  rewrite sort_insert_stable by auto using array_sort_good.
  cbn [filter]. now rewrite IH.
Qed.
End StableSort.

Section StableSortUnique.
Import Ranker RankingSpec.
Variable A : Type.
Variable rank : A -> Z.

Lemma filter_rank_head (x : A) (l : list A) :
  filter (fun y => rank y =? rank x)%Z (x :: l)
  = x :: filter (fun y => rank y =? rank x)%Z l.
Proof. cbn [filter]. now rewrite Z.eqb_refl. Qed.

Lemma filter_rank_in (v : Z) (x : A) (l l' : list A) :
  filter (fun y => rank y =? v)%Z l = x :: l' -> In x l /\ rank x = v.
Proof.
  intros H. assert (Hin : In x (filter (fun y => rank y =? v)%Z l))
    by (rewrite H; now left).
  apply filter_In in Hin as [Hin Hv]. split; [exact Hin | now apply Z.eqb_eq].
Qed.

(** Two lists in descending order of rank that list the elements of each
    rank in the same order are the same list: the outcome of a stable
    sort is determined, whatever the algorithm. *)
Lemma sorted_stable_unique (l1 : list A) :
  forall l2,
    StronglySorted (rank_ge rank) l1 -> StronglySorted (rank_ge rank) l2 ->
    (forall v, filter (fun y => rank y =? v)%Z l1 = filter (fun y => rank y =? v)%Z l2) ->
    l1 = l2.
Proof.
  induction l1 as [| x l1 IH]; intros l2 S1 S2 Hf.
  - destruct l2 as [| y l2]; [reflexivity |].
    specialize (Hf (rank y)). rewrite filter_rank_head in Hf. discriminate.
  - destruct l2 as [| y l2].
    { specialize (Hf (rank x)). rewrite filter_rank_head in Hf. discriminate. }
    inversion S1 as [| ? ? S1' Hx]; subst. inversion S2 as [| ? ? S2' Hy]; subst.
    rewrite Forall_forall in Hx, Hy.
    assert (Hxy : rank x = rank y).
    { pose proof (Hf (rank x)) as Fx. rewrite filter_rank_head in Fx.
      symmetry in Fx. apply filter_rank_in in Fx as [Ix _].
      pose proof (Hf (rank y)) as Fy. rewrite filter_rank_head in Fy.
      apply filter_rank_in in Fy as [Iy _].
      assert (rank x <= rank y)%Z
        by (destruct Ix as [-> | Ix]; [lia | exact (Hy x Ix)]).
      assert (rank y <= rank x)%Z
        by (destruct Iy as [-> | Iy]; [lia | exact (Hx y Iy)]).
      lia. }
    assert (E : x = y).
    { pose proof (Hf (rank x)) as Fx. rewrite filter_rank_head in Fx.
      cbn [filter] in Fx.
      replace (rank y =? rank x)%Z with true in Fx
        by (symmetry; apply Z.eqb_eq; lia).
      now injection Fx. }
    subst y. f_equal. apply IH; auto.
    intros v. specialize (Hf v). cbn [filter] in Hf.
    destruct (rank x =? v)%Z; [now injection Hf | exact Hf].
Qed.

End StableSortUnique.

(** ** Ranker *)

Section RankerFacts.
Import Similarity Ranker FloatOrder RankingSpec.

Lemma by_score_desc_rank (x y : Scored) :
  score_ok x -> score_ok y ->
  (0 <? by_score_desc x y)%float = (score_rank x <? score_rank y)%Z.
Proof. intros Hx Hy. now apply float_sub_positive. Qed.

Lemma scored_ok (q : vector) (docs : list ChunkRecord) :
  scores_are_numbers q docs -> Forall score_ok (List.map (to_scored q) docs).
Proof. intros H. rewrite Forall_map. exact H. Qed.

Lemma rank_ge_descending (l : list Scored) :
  Forall score_ok l ->
  StronglySorted (rank_ge score_rank) l -> descending l.
Proof.
  intros Hok Hs. induction Hs as [| x l Hs IH Hx]; [constructor |].
  inversion Hok as [| ? ? Ox Ol]; subst.
  constructor; [now apply IH |].
  rewrite Forall_forall in *. intros y Hy. unfold score_ge.
  rewrite float_leb_key; [| now apply Ol | exact Ox].
  apply Z.leb_le. now apply Hx.
Qed.

Lemma descending_app_l (l1 l2 : list Scored) :
  descending (l1 ++ l2) -> descending l1.
Proof.
  induction l1 as [| x l1 IH]; intros H; [constructor |].
  inversion H as [| ? ? Hs Hx]; subst.
  constructor; [now apply IH |].
  rewrite Forall_app in Hx. tauto.
Qed.




(** The sorted candidates are in descending order of score when no score
    is [NaN]. *)
Lemma scored_sorted_descending (q : vector) (docs : list ChunkRecord) :
  scores_are_numbers q docs -> descending (scored_sorted q docs).
Proof.
  intros Hok. pose proof (scored_ok q docs Hok) as Hs.
  apply rank_ge_descending.
  - now apply array_sort_good.
  - now apply (array_sort_sorted Scored by_score_desc score_rank score_ok
                 by_score_desc_rank).
Qed.

(** So are the candidates returned. *)
Lemma topK_descending (q : vector) (docs : list ChunkRecord) :
  scores_are_numbers q docs -> descending (topK q docs).
Proof.
  intros Hok. pose proof (scored_sorted_descending q docs Hok) as Hsorted.
  rewrite <- (firstn_skipn TOP_K (scored_sorted q docs)) in Hsorted.
  now apply descending_app_l in Hsorted.
Qed.

(** Whatever the sorting algorithm of the engine, as long as it is stable
    and its outcome is in descending order of score, its outcome is the one
    of [array_sort]. *)
Lemma scored_sorted_unique (q : vector) (docs : list ChunkRecord) (l : list Scored) :
  scores_are_numbers q docs ->
  StronglySorted (rank_ge score_rank) l ->
  (forall v, filter (fun x => score_rank x =? v)%Z l
             = filter (fun x => score_rank x =? v)%Z (List.map (to_scored q) docs)) ->
  l = scored_sorted q docs.
Proof.
  intros Hok Hl Hf. pose proof (scored_ok q docs Hok) as Hs.
  apply (sorted_stable_unique Scored score_rank); [exact Hl | |].
  - now apply (array_sort_sorted Scored by_score_desc score_rank score_ok
                 by_score_desc_rank).
  - intros v. rewrite Hf. symmetry.
    now apply (array_sort_stable Scored by_score_desc score_rank score_ok
                 by_score_desc_rank).
Qed.

(** The Firestore variant scores with the same function once the query
    embedding is an array. *)
Lemma Firestore_scored_all (q : vector) (docs : list ChunkRecord) (w : Effects.World) :
  Firestore.scored_all (Some q) docs w = (Effects.Ret (List.map (to_scored q) docs), w).
Proof.
  induction docs as [| d docs IH]; [reflexivity |].
  cbn [Firestore.scored_all List.map]. unfold Effects.bind at 1.
  unfold Firestore.scored_of.
  destruct (embedding d); cbn [Effects.ret]; unfold Effects.bind; now rewrite IH.
Qed.

End RankerFacts.


(** C10.  A stored record whose [embedding] is missing or is not an array
    is given the score [0], not an error (in the Firestore variant even
    when the query embedding itself is undefined); its candidate is the
    one a record with an empty embedding would get, it is among the
    sorted candidates, and it is returned whenever the store holds no
    more than five records. *)
Theorem missing_embedding_is_ranked (q : Similarity.vector)
    (docs : list ChunkRecord) (d : ChunkRecord) :
  In d docs -> embedding d = None ->
  Ranker.score_of q d = 0%float
  /\ Ranker.to_scored q d
     = Ranker.to_scored q (RankingSpec.with_embedding d (Some []))
  /\ In (Ranker.to_scored q d) (Ranker.scored_sorted q docs)
  /\ (length docs <= Ranker.TOP_K -> In (Ranker.to_scored q d) (Ranker.topK q docs))
  /\ (forall queryEmbedding w,
        Firestore.scored_of queryEmbedding d w
        = (Effects.Ret
             (Ranker.to_scored
                (match queryEmbedding with Some v => v | None => [] end) d),
           w)).
Proof.
  intros Hin Hemb.
  assert (Hs : In (Ranker.to_scored q d) (Ranker.scored_sorted q docs)).
  { eapply Permutation_in.
    - symmetry. apply array_sort_perm.
    - now apply in_map. }
  repeat split.
  - unfold Ranker.score_of. now rewrite Hemb.
  - unfold Ranker.to_scored, Ranker.score_of.
    cbn [embedding RankingSpec.with_embedding id text sourceType sourceName].
    rewrite Hemb, cosineSimilarity_nil_r. reflexivity.
  - exact Hs.
  - intros Hlen. unfold Ranker.topK. rewrite firstn_all2; [exact Hs |].
    unfold Ranker.scored_sorted.
    rewrite (Permutation_length (array_sort_perm Scored Ranker.by_score_desc _)),
      length_map.
    exact Hlen.
  - intros [v |] w; unfold Firestore.scored_of; now rewrite Hemb.
Qed.

(** The record without an embedding among [plain_docs]. *)
Lemma missing_embedding_is_ranked_witness :
  In (RankingSpec.chunk None) RankingSpec.plain_docs
  /\ In (Ranker.to_scored RankingSpec.plain_query (RankingSpec.chunk None))
        (Ranker.topK RankingSpec.plain_query RankingSpec.plain_docs).
Proof.
  assert (H : In (RankingSpec.chunk None) RankingSpec.plain_docs)
    by (right; right; left; reflexivity).
  split; [exact H |].
  apply (missing_embedding_is_ranked RankingSpec.plain_query RankingSpec.plain_docs
           (RankingSpec.chunk None) H eq_refl).
  unfold Ranker.TOP_K. simpl. lia.
Defined.

Example topK_plain_scores :
  List.map score (Ranker.topK RankingSpec.plain_query RankingSpec.plain_docs)
  = [1%float; 0x1.6a09e667f3bccp-1%float; 0%float; 0%float].
Proof. vm_compute. reflexivity. Qed.

(** ** Query classifier *)

Section WordCount.
Import JsString ClassifierSpec.

Lemma truthy_app_cons (cur : jsstring) (c : codeunit) : truthy (cur ++ [c]) = true.
Proof. now destruct cur. Qed.

Lemma split_go_count (s : jsstring) :
  forall in_sep cur,
    (in_sep = true -> cur = []) ->
    length (filter truthy (split_go in_sep cur s))
    = count_tokens_from (negb (truthy cur)) s + (if truthy cur then 1 else 0).
Proof.
  induction s as [| c s IH]; intros in_sep cur Hinv; cbn [split_go count_tokens_from].
  - cbn [filter]. now destruct (truthy cur).
  - destruct (isWhiteSpace c).
    + destruct in_sep.
      * rewrite (Hinv eq_refl). rewrite IH by reflexivity. reflexivity.
      * cbn [filter]. destruct (truthy cur); cbn [length negb];
          rewrite IH by reflexivity; cbn [truthy negb]; lia.
    + rewrite IH by discriminate. rewrite truthy_app_cons. cbn [negb].
      destruct (truthy cur); cbn [negb]; lia.
Qed.

Lemma wordCount_tokens (s : jsstring) :
  length (filter truthy (split_ws s)) = count_tokens s.
Proof.
  unfold split_ws, count_tokens. rewrite split_go_count by discriminate.
  cbn [truthy negb]. lia.
Qed.

End WordCount.

Section RegexFacts.
Import JsString Regex.

Lemma rmatch_rchars (l : jsstring) :
  forall k before after,
    rmatch (rchars l) k before after = true
    <-> exists rest, after = l ++ rest /\ k (rev l ++ before) rest = true.
Proof.
  induction l as [| c l IH]; intros k before after; cbn [rchars fold_right rmatch].
  - split.
    + intros H. now exists after.
    + intros (rest & -> & H). exact H.
  - fold (rchars l). destruct after as [| x after].
    + split; [discriminate |]. intros (rest & E & _). discriminate.
    + destruct (N.eqb_spec x c) as [-> | Hne].
      * rewrite IH. split.
        -- intros (rest & -> & H). exists rest. split; [reflexivity |].
           cbn [rev]. now rewrite <- app_assoc.
        -- intros (rest & E & H). injection E as ->. exists rest. split; [reflexivity |].
           cbn [rev] in H. now rewrite <- app_assoc in H.
      * split; [discriminate |]. intros (rest & E & _). cbn in E. congruence.
Qed.

Lemma repeat_snoc (c : codeunit) (n : nat) (l : jsstring) :
  repeat c n ++ c :: l = c :: repeat c n ++ l.
Proof. induction n as [| n IH]; cbn [repeat app]; [reflexivity | now rewrite IH]. Qed.

Lemma iterate_char (c : codeunit) (k : jsstring -> jsstring -> bool) :
  forall n before after,
    length after <= n ->
    iterate (rmatch (rchars [c])) k n before after = true
    <-> exists m rest,
          after = repeat c (S m) ++ rest /\ k (repeat c (S m) ++ before) rest = true.
Proof.
  induction n as [| n IH]; intros before after Hlen.
  - destruct after; [| cbn in Hlen; lia]. cbn. split; [discriminate |].
    intros (m & rest & E & _). discriminate.
  - cbn [iterate rchars fold_right rmatch].
    destruct after as [| x after].
    + split; [discriminate |]. intros (m & rest & E & _). discriminate.
    + destruct (N.eqb_spec x c) as [-> | Hne].
      * cbn [length]. rewrite (proj2 (Nat.ltb_lt _ _) (Nat.lt_succ_diag_r _)).
        rewrite orb_true_iff, IH by (cbn in Hlen; lia). split.
        -- intros [(m & rest & -> & H) | H].
           ++ exists (S m), rest. split; [reflexivity |].
              cbn [repeat app] in *. now rewrite repeat_snoc in H.
           ++ exists 0, after. split; [reflexivity | exact H].
        -- intros (m & rest & E & H). cbn [repeat app] in E. injection E as ->.
           destruct m as [| m].
           ++ right. exact H.
           ++ left. exists m, rest. split; [reflexivity |].
              cbn [repeat app] in *. now rewrite repeat_snoc.
      * split; [discriminate |]. intros (m & rest & E & _). cbn in E. congruence.
Qed.

Lemma rev_repeat (c : codeunit) (n : nat) : rev (repeat c n) = repeat c n.
Proof.
  induction n as [| n IH]; [reflexivity |].
  cbn [repeat rev]. rewrite IH. change [c] with (repeat c 1).
  rewrite <- repeat_app. now rewrite Nat.add_1_r.
Qed.

(** A stretched word: the stem, then one or more of the last letter. *)
Lemma rmatch_stretched (stem : jsstring) (c : codeunit)
    (k : jsstring -> jsstring -> bool) (before after : jsstring) :
  rmatch (RSeq (rchars stem) (RPlus (rchars [c]))) k before after = true
  <-> exists n rest,
        after = (stem ++ repeat c (S n)) ++ rest
        /\ k (rev (stem ++ repeat c (S n)) ++ before) rest = true.
Proof.
  cbn [rmatch]. rewrite rmatch_rchars. split.
  - intros (rest1 & -> & H). cbn [rmatch] in H.
    apply iterate_char in H; [| lia].
    destruct H as (n & rest & -> & H). exists n, rest.
    split; [now rewrite <- app_assoc |].
    now rewrite rev_app_distr, rev_repeat, <- app_assoc.
  - intros (n & rest & -> & H). exists (repeat c (S n) ++ rest).
    split; [now rewrite <- app_assoc |]. cbn [rmatch].
    apply iterate_char; [lia |]. exists n, rest. split; [reflexivity |].
    now rewrite rev_app_distr, rev_repeat, <- app_assoc in H.
Qed.

Lemma test_anchored (r : regex) (s : jsstring) :
  test (RSeq RStart r) s = rmatch r (fun _ _ => true) [] s.
Proof.
  unfold test. cbn [seq existsb firstn skipn rev rmatch].
  destruct (rmatch r (fun _ _ => true) [] s); [reflexivity |]. cbn [orb].
  destruct s as [| c s]; [reflexivity |].
  apply not_true_is_false. intros H. apply existsb_exists in H as (i & Hi & H).
  apply in_seq in Hi. destruct i as [| i]; [lia |].
  cbn [firstn rev] in H. destruct (rev (firstn i s) ++ [c]) eqn:E.
  - now apply app_eq_nil in E as [_ E].
  - discriminate.
Qed.

End RegexFacts.

Section GreetingFacts.
Import JsString Regex Classifier ClassifierSpec.

Lemma matches_rstr (s : string) : matches_words (eq (lit s)) (rstr s).
Proof.
  intros k before after. unfold rstr. rewrite rmatch_rchars. split.
  - intros (rest & -> & H). now exists (lit s), rest.
  - intros (w & rest & -> & <- & H). now exists rest.
Qed.

Lemma matches_stretched (stem last : string) :
  lit last = [letter last] ->
  matches_words (stretched stem last) (rstr_plus stem last).
Proof.
  intros Hl k before after. unfold rstr_plus, rstr. rewrite Hl.
  rewrite rmatch_stretched. split.
  - intros (n & rest & -> & H). exists (lit stem ++ repeat (letter last) (S n)), rest.
    repeat split; [now exists n | exact H].
  - intros (w & rest & -> & (n & ->) & H). now exists n, rest.
Qed.

Lemma matches_alt (P Q : jsstring -> Prop) (r1 r2 : regex) :
  matches_words P r1 -> matches_words Q r2 ->
  matches_words (fun w => P w \/ Q w) (RAlt r1 r2).
Proof.
  unfold matches_words. intros H1 H2 k before after.
  cbn [rmatch]. rewrite orb_true_iff, H1, H2. split.
  - intros [(w & rest & E & Hw & H) | (w & rest & E & Hw & H)];
      exists w, rest; auto.
  - intros (w & rest & E & [Hw | Hw] & H); [left | right]; exists w, rest; auto.
Qed.

Lemma matches_seq (P Q : jsstring -> Prop) (r1 r2 : regex) :
  matches_words P r1 -> matches_words Q r2 ->
  matches_words (fun w => exists w1 w2, w = w1 ++ w2 /\ P w1 /\ Q w2) (RSeq r1 r2).
Proof.
  unfold matches_words. intros H1 H2 k before after. cbn [rmatch]. rewrite H1. split.
  - intros (w1 & rest1 & -> & Hw1 & H). apply H2 in H as (w2 & rest & -> & Hw2 & H).
    exists (w1 ++ w2), rest. split; [now rewrite app_assoc |].
    split; [now exists w1, w2 |].
    now rewrite rev_app_distr, <- app_assoc.
  - intros (w & rest & -> & (w1 & w2 & -> & Hw1 & Hw2) & H).
    exists w1, (w2 ++ rest). split; [now rewrite app_assoc |]. split; [exact Hw1 |].
    apply H2. exists w2, rest. split; [reflexivity |]. split; [exact Hw2 |].
    now rewrite rev_app_distr, <- app_assoc in H.
Qed.

Lemma matches_iff (P Q : jsstring -> Prop) (r : regex) :
  (forall w, P w <-> Q w) -> matches_words P r -> matches_words Q r.
Proof.
  unfold matches_words. intros HPQ H k before after. rewrite H. split;
    intros (w & rest & E & Hw & Hk); exists w, rest; repeat split; auto;
    now apply HPQ.
Qed.

Lemma greetingWords_match : matches_words greeting_word greetingWords.
Proof.
  unfold greetingWords, greetingRegex.
  eapply matches_iff; cycle 1.
  - repeat (apply matches_alt);
      try (apply matches_stretched; reflexivity);
      try apply matches_rstr.
    apply matches_seq; [apply matches_rstr |].
    repeat (apply matches_alt); apply matches_rstr.
  - intros w. cbv beta. unfold greeting_word. split.
    + intros [H | [H | [H | [H | [H | H]]]]]; auto 10.
      destruct H as (w1 & w2 & -> & <- & [<- | [<- | [<- | <-]]]); auto 10.
    + intros [H | [H | [H | [H | [H | [H | [H | [H | H]]]]]]]]; auto 10;
        do 5 right; subst w.
      * exists (lit "good "), (lit "morning"); auto 10.
      * exists (lit "good "), (lit "evening"); auto 10.
      * exists (lit "good "), (lit "afternoon"); auto 10.
      * exists (lit "good "), (lit "night"); auto 10.
Qed.

Lemma isGreeting_spec (s : jsstring) :
  isGreeting s = true <-> starts_with_greeting s.
Proof.
  unfold isGreeting.
  change greetingRegex with (RSeq RStart (RSeq greetingWords RWordB)).
  rewrite test_anchored. cbn [rmatch]. rewrite (greetingWords_match _ _ _).
  unfold starts_with_greeting, boundary_between. split.
  - intros (w & rest & -> & Hw & H). exists w, rest. repeat split; auto.
    rewrite app_nil_r in H.
    change (is_word_before (rev w)) with (last_is_word w) in H.
    change (is_word_at rest) with (first_is_word rest) in H.
    destruct (last_is_word w), (first_is_word rest); cbn in H; congruence.
  - intros (w & rest & -> & Hw & H). exists w, rest. repeat split; auto.
    rewrite app_nil_r.
    change (is_word_before (rev w)) with (last_is_word w).
    change (is_word_at rest) with (first_is_word rest).
    destruct (last_is_word w), (first_is_word rest); cbn; congruence.
Qed.

End GreetingFacts.

(** ** White space around a message *)

Section TrimFacts.
Import JsString.

Lemma trimStart_space_app (pre s : jsstring) :
  Forall (fun c => isWhiteSpace c = true) pre -> trimStart (pre ++ s) = trimStart s.
Proof.
  induction 1 as [| c pre Hc _ IH]; [reflexivity |].
  cbn [app trimStart]. now rewrite Hc.
Qed.

Lemma trimStart_space (post : jsstring) :
  Forall (fun c => isWhiteSpace c = true) post -> trimStart post = [].
Proof.
  intros H. rewrite <- (app_nil_r post). now rewrite trimStart_space_app.
Qed.

Lemma trimStart_app_space (s post : jsstring) :
  Forall (fun c => isWhiteSpace c = true) post ->
  trimStart (s ++ post)
  = match trimStart s with [] => [] | _ :: _ => trimStart s ++ post end.
Proof.
  intros H. induction s as [| c s IH]; cbn [app trimStart].
  - now apply trimStart_space.
  - destruct (isWhiteSpace c); [exact IH | reflexivity].
Qed.

Lemma trimEnd_app_space (s post : jsstring) :
  Forall (fun c => isWhiteSpace c = true) post -> trimEnd (s ++ post) = trimEnd s.
Proof.
  intros H. unfold trimEnd. rewrite rev_app_distr, trimStart_space_app; [reflexivity |].
  now apply Forall_rev.
Qed.

Lemma trim_padded (pre s post : jsstring) :
  Forall (fun c => isWhiteSpace c = true) pre ->
  Forall (fun c => isWhiteSpace c = true) post ->
  trim (pre ++ s ++ post) = trim s.
Proof.
  intros Hpre Hpost. unfold trim.
  rewrite trimStart_space_app by exact Hpre.
  rewrite trimStart_app_space by exact Hpost.
  destruct (trimStart s) as [| c t] eqn:E; [reflexivity |].
  now apply trimEnd_app_space.
Qed.

(** A string trims to nothing exactly when it holds white space only. *)
Lemma trimStart_nil (s : jsstring) :
  trimStart s = [] <-> Forall (fun c => isWhiteSpace c = true) s.
Proof.
  split; [| apply trimStart_space].
  induction s as [| c s IH]; [constructor |]. cbn [trimStart].
  destruct (isWhiteSpace c) eqn:E; [| discriminate]. auto.
Qed.

Lemma trimEnd_nil (s : jsstring) : trimEnd s = [] -> s = [] \/ trimStart s = [].
Proof.
  unfold trimEnd. intros H. apply (f_equal (@rev _)) in H.
  rewrite rev_involutive in H. cbn in H. apply trimStart_nil in H.
  apply Forall_rev in H. rewrite rev_involutive in H.
  right. now apply trimStart_nil.
Qed.

Lemma trim_nil (s : jsstring) :
  trim s = [] <-> Forall (fun c => isWhiteSpace c = true) s.
Proof.
  unfold trim. split.
  - intros H. apply trimEnd_nil in H. apply trimStart_nil. destruct H as [H | H]; [exact H |].
    destruct (trimStart s) as [| c t] eqn:E; [reflexivity |].
    cbn [trimStart] in H. destruct (isWhiteSpace c) eqn:Ec; [| discriminate].
    exfalso. clear H. revert c t E Ec. induction s as [| x s IH]; intros c t E Ec.
    + discriminate.
    + cbn [trimStart] in E. destruct (isWhiteSpace x) eqn:Ex.
      * eapply IH; eauto.
      * injection E as -> ->. congruence.
  - intros H. apply trimStart_nil in H. now rewrite H.
Qed.

(** What [trimStart] removes is white space, and what it leaves does not
    start with white space. *)
Lemma trimStart_split (s : jsstring) :
  exists pre, s = pre ++ trimStart s /\ Forall (fun c => isWhiteSpace c = true) pre.
Proof.
  induction s as [| c s (pre & E & Hpre)]; [now exists [] |].
  cbn [trimStart]. destruct (isWhiteSpace c) eqn:Ec.
  - exists (c :: pre). split; [cbn; now rewrite <- E | now constructor].
  - now exists [].
Qed.

Lemma trimStart_head (s : jsstring) (c : codeunit) (rest : jsstring) :
  trimStart s = c :: rest -> isWhiteSpace c = false.
Proof.
  induction s as [| x s IH]; [discriminate |]. cbn [trimStart].
  destruct (isWhiteSpace x) eqn:Ex; [exact IH |]. intros [= <- _]. exact Ex.
Qed.

Lemma trimEnd_split (s : jsstring) :
  exists post, s = trimEnd s ++ post /\ Forall (fun c => isWhiteSpace c = true) post.
Proof.
  destruct (trimStart_split (rev s)) as (pre & E & Hpre).
  exists (rev pre). split; [| now apply Forall_rev].
  unfold trimEnd. rewrite <- rev_app_distr, <- E. now rewrite rev_involutive.
Qed.

Lemma trimEnd_last (s : jsstring) (c : codeunit) (rest : jsstring) :
  trimEnd s = rest ++ [c] -> isWhiteSpace c = false.
Proof.
  unfold trimEnd. intros H. apply (f_equal (@rev _)) in H.
  rewrite rev_involutive, rev_app_distr in H. cbn [rev app] in H.
  now apply trimStart_head in H.
Qed.

(** A string that neither starts nor ends with white space is what
    [trim] returns for it. *)
Lemma trim_fixed (t : jsstring) :
  (forall c rest, t = c :: rest -> isWhiteSpace c = false) ->
  (forall c rest, t = rest ++ [c] -> isWhiteSpace c = false) ->
  trim t = t.
Proof.
  intros Hhead Hlast. unfold trim.
  assert (E : trimStart t = t).
  { destruct t as [| c r]; [reflexivity |]. cbn [trimStart].
    now rewrite (Hhead c r eq_refl). }
  rewrite E. unfold trimEnd.
  destruct (rev t) as [| c r] eqn:R.
  - apply (f_equal (@rev _)) in R. now rewrite rev_involutive in R.
  - assert (Et : t = rev r ++ [c]).
    { apply (f_equal (@rev _)) in R. now rewrite rev_involutive in R. }
    cbn [trimStart]. rewrite (Hlast c (rev r) Et). now rewrite <- R, rev_involutive.
Qed.

(** [trim] returns the message trimmed, and nothing else is. *)
Lemma trim_trimmed (s : jsstring) : ClassifierSpec.trimmed s (trim s).
Proof.
  destruct (trimStart_split s) as (pre & E1 & Hpre).
  destruct (trimEnd_split (trimStart s)) as (post & E2 & Hpost).
  fold (trim s) in E2. split; [| split].
  - exists pre, post. split; [| split; assumption]. now rewrite <- E2.
  - intros c rest Ht. rewrite Ht in E2. cbn [app] in E2.
    now apply trimStart_head in E2.
  - intros c rest Ht. unfold trim in Ht. now apply trimEnd_last in Ht.
Qed.

Lemma trimmed_unique (s t : jsstring) : ClassifierSpec.trimmed s t -> t = trim s.
Proof.
  intros ((pre & post & -> & Hpre & Hpost) & Hhead & Hlast).
  rewrite (trim_padded pre t post Hpre Hpost). symmetry. now apply trim_fixed.
Qed.

End TrimFacts.

(** C4.  For every message, and so for every non-blank one, the
    classifier answers Greeting exactly when the message, trimmed (its
    leading and trailing white space removed) and then lowercased, starts
    with one of the greeting words (hi, hello, hey, yo with the last
    letter once or more, sup, good morning, good evening, good afternoon,
    good night) followed by a word boundary, and has at most 5 tokens
    separated by white space; it answers Question otherwise.  The trimmed
    message is described without the code: it is the one string [t] such
    that the message is [t] between two runs of white space and [t]
    neither starts nor ends with white space. *)
Theorem classify_greeting_iff (engine : Engine) (message : jsstring) :
  let is_greeting (t : jsstring) : Prop :=
    ClassifierSpec.starts_with_greeting (toLowerCase engine t)
    /\ ClassifierSpec.count_tokens (toLowerCase engine t) <= 5 in
  (exists t, ClassifierSpec.trimmed message t)
  /\ (forall t, ClassifierSpec.trimmed message t ->
        t = JsString.trim message
        /\ (Classifier.classify engine message = Greeting <-> is_greeting t)
        /\ (Classifier.classify engine message = Question <-> ~ is_greeting t))
  /\ (Classifier.classify engine message = Greeting
      <-> is_greeting (JsString.trim message))
  /\ (Classifier.classify engine message = Question
      <-> ~ is_greeting (JsString.trim message)).
Proof.
  intros is_greeting.
  assert (H : Classifier.classify engine message = Greeting
              <-> is_greeting (JsString.trim message)).
  { unfold Classifier.classify, Classifier.normalize, Classifier.wordCount, is_greeting.
    rewrite wordCount_tokens.
    destruct (Classifier.isGreeting (toLowerCase engine (JsString.trim message))
              && (ClassifierSpec.count_tokens (toLowerCase engine (JsString.trim message))
                  <=? Classifier.MAX_GREETING_WORDS)) eqn:E.
    - apply andb_true_iff in E as [E1 E2].
      apply isGreeting_spec in E1. apply Nat.leb_le in E2.
      split; [intros _; split; assumption | reflexivity].
    - split; [discriminate |]. intros [G1 G2]. exfalso.
      apply isGreeting_spec in G1. apply Nat.leb_le in G2.
      unfold Classifier.MAX_GREETING_WORDS in E. rewrite G1, G2 in E. discriminate. }
  assert (Q : Classifier.classify engine message = Question
              <-> ~ is_greeting (JsString.trim message)).
  { rewrite <- H. destruct (Classifier.classify engine message); split;
      try congruence; intros N; exfalso; now apply N. }
  split; [exists (JsString.trim message); apply trim_trimmed |].
  split; [| split; assumption].
  intros t Ht. apply trimmed_unique in Ht. subst t. auto.
Qed.

Example classify_hi :
  Classifier.classify RefEngine.engine (lit "hi") = Greeting.
Proof. reflexivity. Qed.

(** Upper case and white space around the message. *)
Example classify_padded_upper_case :
  Classifier.classify RefEngine.engine (lit " HELLOOO there ") = Greeting
  /\ Classifier.classify RefEngine.engine (lit "Hi") = Greeting.
Proof. split; reflexivity. Qed.

Example classify_six_words :
  Classifier.classify RefEngine.engine (lit "hello there how are you doing today")
  = Question.
Proof. reflexivity. Qed.

Example classify_long_question :
  Classifier.classify RefEngine.engine
    (lit "hi, what does section 3 of my contract say about termination")
  = Question.
Proof. reflexivity. Qed.

Example classify_history :
  Classifier.classify RefEngine.engine (lit "history of rome") = Question.
Proof. reflexivity. Qed.

(** ** Context assembler *)

Section ContextFacts.
Import JsString ContextAssembler ContextSpec.
Variable engine : Engine.

Lemma section_of_section (i : nat) (d : Scored) :
  section_of engine i d = section engine (S i) d.
Proof.
  unfold section_of, section, header. rewrite Nat.add_1_r.
  now rewrite <- !app_assoc.
Qed.

Lemma mapi_sections (topK : list Scored) :
  forall i, mapi_from (section_of engine) i topK = sections_from engine (S i) topK.
Proof.
  induction topK as [| d rest IH]; intros i; [reflexivity |].
  cbn [mapi_from sections_from]. now rewrite section_of_section, IH.
Qed.

Lemma context_loop_terminated (topK : list Scored) :
  forall i contextText,
    context_loop engine i topK contextText
    = contextText ++ terminated (sections_from engine (S i) topK).
Proof.
  induction topK as [| d rest IH]; intros i contextText.
  - cbn. now rewrite app_nil_r.
  - cbn [context_loop sections_from]. rewrite IH, section_of_section.
    unfold terminated. cbn [List.map concat]. now rewrite <- !app_assoc.
Qed.

Lemma terminated_separated (l : list jsstring) :
  l <> [] -> terminated l = separated l ++ SEP.
Proof.
  induction l as [| x l IH]; [congruence |]. intros _.
  destruct l as [| y l].
  - cbn. now rewrite app_nil_r.
  - unfold terminated, separated in *. cbn [List.map concat join].
    cbn [List.map concat] in IH. rewrite IH by discriminate.
    now rewrite <- !app_assoc.
Qed.

Lemma sections_from_length (topK : list Scored) :
  forall first, length (sections_from engine first topK) = length topK.
Proof.
  induction topK as [| d rest IH]; intros first; [reflexivity |].
  cbn [sections_from length]. now rewrite IH.
Qed.

Lemma sections_from_nth (topK : list Scored) :
  forall first i d,
    nth_error topK i = Some d ->
    nth_error (sections_from engine first topK) i = Some (section engine (first + i) d).
Proof.
  induction topK as [| d0 rest IH]; intros first i d H.
  - now destruct i.
  - destruct i as [| i]; cbn [nth_error sections_from] in *.
    + injection H as ->. now rewrite Nat.add_0_r.
    + rewrite (IH (S first) i d H). do 2 f_equal. lia.
Qed.
End ContextFacts.

(** C5, amended.  For every list of [K] candidates the block is made of
    exactly [K] sections, in rank order 1..K; the section of rank [i + 1]
    is the header line [[#<rank> | <sourceType>:<sourceName> |
    score=<score to 3 decimals>]] followed at once by the text of the
    candidate at index [i].  In the Firestore variant consecutive sections
    are separated by one blank line and nothing follows the last; in the
    in-memory variant every section, the last one too, is followed by one
    blank line, so that the block of a list that is not empty is the
    Firestore one with a blank line after it.  The empty list gives the
    empty block in both. *)
Theorem contextText_sections (engine : Engine) (topK : list Scored) :
  length (ContextSpec.sections engine topK) = length topK
  /\ (forall i d, nth_error topK i = Some d ->
        nth_error (ContextSpec.sections engine topK) i
        = Some (ContextSpec.header engine (i + 1) d
                  ++ ContextAssembler.NL ++ s_text d))
  /\ ContextAssembler.contextText_join engine topK
     = ContextSpec.separated (ContextSpec.sections engine topK)
  /\ ContextAssembler.contextText_loop engine topK
     = ContextSpec.terminated (ContextSpec.sections engine topK)
  /\ (topK <> [] ->
        ContextAssembler.contextText_loop engine topK
        = ContextSpec.separated (ContextSpec.sections engine topK)
            ++ ContextAssembler.SEP)
  /\ ContextAssembler.contextText_join engine [] = []
  /\ ContextAssembler.contextText_loop engine [] = [].
Proof.
  unfold ContextSpec.sections. repeat split.
  - apply sections_from_length.
  - intros i d H. rewrite (sections_from_nth engine topK 1 i d H).
    now rewrite Nat.add_comm.
  - unfold ContextAssembler.contextText_join. now rewrite mapi_sections.
  - unfold ContextAssembler.contextText_loop. now rewrite context_loop_terminated.
  - intros Hne. unfold ContextAssembler.contextText_loop.
    rewrite context_loop_terminated. cbn [app].
    apply terminated_separated. now destruct topK.
Qed.

(** One candidate in the in-memory variant. *)
Lemma contextText_sections_witness :
  [ContextSpec.sky_candidate] <> []
  /\ ContextAssembler.contextText_loop RefEngine.engine [ContextSpec.sky_candidate]
     = ContextSpec.separated
         (ContextSpec.sections RefEngine.engine [ContextSpec.sky_candidate])
         ++ ContextAssembler.SEP.
Proof.
  assert (H : [ContextSpec.sky_candidate] <> []) by discriminate.
  split; [exact H |].
  apply (contextText_sections RefEngine.engine [ContextSpec.sky_candidate]).
  exact H.
Defined.

(** C5 as stated fails in the in-memory variant: the block of one
    candidate ends with a blank line, which is a separator after the last
    section. *)
Lemma contextText_loop_trailing_separator :
  ContextAssembler.contextText_loop RefEngine.engine [ContextSpec.sky_candidate]
  = lit "[#1 | doc:sky.txt | score=0.500]" ++ ContextAssembler.NL
      ++ lit "The sky is blue." ++ ContextAssembler.NL ++ ContextAssembler.NL
  /\ ContextAssembler.contextText_loop RefEngine.engine [ContextSpec.sky_candidate]
     <> ContextSpec.separated
          (ContextSpec.sections RefEngine.engine [ContextSpec.sky_candidate]).
Proof.
  split; [vm_compute; reflexivity |]. vm_compute. discriminate.
Qed.

Example contextText_join_one :
  ContextAssembler.contextText_join RefEngine.engine [ContextSpec.sky_candidate]
  = lit "[#1 | doc:sky.txt | score=0.500]" ++ ContextAssembler.NL
      ++ lit "The sky is blue.".
Proof. vm_compute. reflexivity. Qed.

(** ** Handlers *)

Section HandlerFacts.
Import JsString Classifier Effects Texts HandlerSpec.

Lemma blank_missing_inmem (x : option jsstring) :
  blank x -> InMemory.missing_or_blank x = true.
Proof.
  destruct x as [s |]; cbn; [| reflexivity]. intros ->. now rewrite orb_true_r.
Qed.

Lemma blank_missing_fs (x : option jsstring) :
  blank x -> Firestore.missing_or_blank x = true.
Proof.
  destruct x as [s |]; cbn; [| reflexivity]. intros ->. now rewrite orb_true_r.
Qed.

Lemma present_inmem (s : jsstring) :
  trim s <> [] -> InMemory.missing_or_blank (Some s) = false.
Proof.
  intros H. cbn. destruct s as [| c s]; [now contradiction H |].
  destruct (trim (c :: s)); [congruence | reflexivity].
Qed.

Lemma present_fs (s : jsstring) :
  trim s <> [] -> Firestore.missing_or_blank (Some s) = false.
Proof.
  intros H. cbn. destruct s as [| c s]; [now contradiction H |].
  destruct (trim (c :: s)); [congruence | reflexivity].
Qed.

Lemma appends_ret (A : Type) (a : A) : appends (ret a).
Proof. intros w. exists []. cbn. now rewrite app_nil_r. Qed.

Lemma appends_throw (A : Type) (m : jsstring) : appends (@throw A m).
Proof. intros w. exists []. cbn. now rewrite app_nil_r. Qed.

Lemma appends_lift (A : Type) (o : outcome A) : appends (lift o).
Proof. intros w. exists []. cbn. now rewrite app_nil_r. Qed.

Lemma appends_emit (e : event) : appends (emit e).
Proof. intros w. now exists [e]. Qed.

Lemma appends_bind (A B : Type) (c : M A) (k : A -> M B) :
  appends c -> (forall a, appends (k a)) -> appends (bind c k).
Proof.
  intros Hc Hk w. unfold bind. destruct (Hc w) as [evs E].
  destruct (c w) as [[a | m] w1]; cbn [snd] in *.
  - destruct (Hk a w1) as [evs' E']. exists (evs ++ evs').
    now rewrite E', E, app_assoc.
  - now exists evs.
Qed.

Lemma appends_batch_sets (env : Env) (st sn : jsstring) embeddings chunks :
  forall i, appends (Firestore.batch_sets env st sn embeddings i chunks).
Proof.
  induction chunks as [| c rest IH]; intros i; cbn [Firestore.batch_sets].
  - apply appends_ret.
  - apply appends_bind.
    + intros w. exists []. cbn. now rewrite app_nil_r.
    + intros doc. apply appends_bind; [apply IH |]. intros docs. apply appends_ret.
Qed.

Lemma appends_batch_commit (env : Env) docs : appends (Firestore.batch_commit env docs).
Proof.
  intros w. unfold Firestore.batch_commit. exists [EvStoreWrite (length docs)].
  now destruct (firestoreUp env).
Qed.

Lemma appends_collection_get (env : Env) : appends (Firestore.collection_get env).
Proof.
  intros w. unfold Firestore.collection_get. exists [EvStoreRead].
  now destruct (firestoreUp env).
Qed.

Lemma appends_scored_all (q : option Similarity.vector) docs :
  appends (Firestore.scored_all q docs).
Proof.
  induction docs as [| d rest IH]; cbn [Firestore.scored_all].
  - apply appends_ret.
  - apply appends_bind.
    + unfold Firestore.scored_of.
      destruct (embedding d), q; auto using appends_ret, appends_throw.
    + intros s. apply appends_bind; [apply IH |]. intros ss. apply appends_ret.
Qed.

Lemma try_catch_snd (body : M Response) (handler : jsstring -> Response) (w : World) :
  snd (try_catch body handler w) = snd (body w).
Proof. unfold try_catch. now destruct (body w) as [[r | m] w']. Qed.

(** A handler body that starts with a provider call. *)
Lemma emit_first (e : event) (rest : M Response) (handler : jsstring -> Response)
    (w : World) :
  is_provider_call e = true -> appends rest ->
  calls_provider_first w (try_catch (bind (emit e) (fun _ => rest)) handler w).
Proof.
  intros He Hrest. unfold calls_provider_first. rewrite try_catch_snd.
  unfold bind. cbn [emit].
  destruct (Hrest {| store := store w; nextId := nextId w; trace := trace w ++ [e] |})
    as [evs E].
  destruct (rest _) as [[r | m] w']; cbn [snd trace] in *;
    exists e, evs; now rewrite E, <- app_assoc.
Qed.

End HandlerFacts.

Section HandlerTheorems.
Import JsString Classifier Effects Texts HandlerSpec.

(** C7.  For every Ingest request whose [text] is missing or blank after
    trimming, and every Query request whose [message] is, both variants
    answer with status 400 and a message that says what is missing
    ([Missing text], [Missing message]), and leave the world as it was:
    no call to the provider is made and the chunk store is unchanged. *)
Theorem blank_request_rejected (env : Env) (w : World)
    (ingest : IngestRequest) (chat : ChatRequest) :
  blank (req_text ingest) -> blank (req_message chat) ->
  InMemory.ingestText env ingest w = (Send 400 MISSING_TEXT, w)
  /\ Firestore.ingestText env ingest w = (Send 400 MISSING_TEXT, w)
  /\ InMemory.chatRag env chat w = (Send 400 MISSING_MESSAGE, w)
  /\ Firestore.chatRag env chat w = (Send 400 MISSING_MESSAGE, w)
  /\ client_error (Send 400 MISSING_TEXT)
  /\ client_error (Send 400 MISSING_MESSAGE).
Proof.
  intros Ht Hm. repeat split.
  - unfold InMemory.ingestText, try_catch. now rewrite (blank_missing_inmem _ Ht).
  - unfold Firestore.ingestText. now rewrite (blank_missing_fs _ Ht).
  - unfold InMemory.chatRag, try_catch. now rewrite (blank_missing_inmem _ Hm).
  - unfold Firestore.chatRag. now rewrite (blank_missing_fs _ Hm).
  - exists 400, MISSING_TEXT. repeat split; [lia | lia | discriminate].
  - exists 400, MISSING_MESSAGE. repeat split; [lia | lia | discriminate].
Qed.

(** A text of three spaces, and no message. *)
Lemma blank_request_rejected_witness :
  blank (req_text ingest_blank)
  /\ InMemory.ingestText (env_of answering (Some A_KEY)) ingest_blank empty_world
     = (Send 400 MISSING_TEXT, empty_world)
  /\ Firestore.chatRag (env_of answering (Some A_KEY)) {| req_message := None |}
       empty_world
     = (Send 400 MISSING_MESSAGE, empty_world).
Proof.
  assert (H : blank (req_text ingest_blank)) by reflexivity.
  split; [exact H |].
  split;
    apply (blank_request_rejected (env_of answering (Some A_KEY)) empty_world
             ingest_blank {| req_message := None |} H I).
Defined.

(** C8, amended.  In the in-memory variant, whenever [GEMINI_API_KEY] is
    absent (or is shorter than 20 characters), every Ingest and Query
    request that passes validation is answered with status 500 and the
    message [GEMINI_API_KEY is not configured on the server], a status
    other than the 400 of a validation error, and the world is left as it
    was: no call to the provider has been attempted.  A request that fails
    validation is answered 400 whatever the key.  The Firestore variant
    has no such test (it warns when it starts): the first thing its
    handlers do with a request that passes validation is to call the
    provider. *)
Theorem missing_key_reported (env : Env) (w : World)
    (ingest : IngestRequest) (chat : ChatRequest) (text message : jsstring) :
  InMemory.key_configured (GEMINI_API_KEY env) = false ->
  req_text ingest = Some text -> trim text <> [] ->
  req_message chat = Some message -> trim message <> [] ->
  InMemory.ingestText env ingest w = (Send 500 KEY_NOT_CONFIGURED, w)
  /\ InMemory.chatRag env chat w = (Send 500 KEY_NOT_CONFIGURED, w)
  /\ server_error (Send 500 KEY_NOT_CONFIGURED)
  /\ InMemory.key_configured None = false
  /\ calls_provider_first w (Firestore.ingestText env ingest w)
  /\ calls_provider_first w (Firestore.chatRag env chat w).
Proof.
  intros Hkey Ht Htrim Hm Hmtrim. split; [| split; [| split; [| split; [| split]]]].
  - unfold InMemory.ingestText, try_catch.
    now rewrite Ht, (present_inmem _ Htrim), Hkey.
  - unfold InMemory.chatRag, try_catch.
    now rewrite Hm, (present_inmem _ Hmtrim), Hkey.
  - exists 500, KEY_NOT_CONFIGURED. split; [reflexivity | lia].
  - reflexivity.
  - unfold Firestore.ingestText. rewrite Ht, (present_fs _ Htrim).
    destruct (default_chunks text) as (chunks & -> & _).
    apply emit_first; [reflexivity |].
    apply appends_bind; [apply appends_lift |]. intros embeddings.
    apply appends_bind; [apply appends_batch_sets |]. intros docs.
    apply appends_bind; [apply appends_batch_commit |]. intros _. apply appends_ret.
  - unfold Firestore.chatRag. rewrite Hm, (present_fs _ Hmtrim).
    destruct (classify (engine env) message).
    + apply emit_first; [reflexivity |].
      apply appends_bind; [apply appends_lift |]. intros resp. apply appends_ret.
    + apply emit_first; [reflexivity |].
      apply appends_bind; [apply appends_lift |]. intros embRes.
      apply appends_bind.
      { unfold Firestore.queryEmbedding_of.
        destruct embRes; auto using appends_ret, appends_throw. }
      intros q. apply appends_bind; [apply appends_collection_get |]. intros docs.
      apply appends_bind; [apply appends_scored_all |]. intros scored.
      apply appends_bind; [apply appends_emit |]. intros _.
      apply appends_bind; [apply appends_lift |]. intros resp. apply appends_ret.
Qed.

(** No key, a text and a message that are not blank. *)
Lemma missing_key_reported_witness :
  InMemory.key_configured (GEMINI_API_KEY (env_of answering None)) = false
  /\ InMemory.ingestText (env_of answering None) ingest_sky empty_world
     = (Send 500 KEY_NOT_CONFIGURED, empty_world)
  /\ InMemory.chatRag (env_of answering None) chat_hi empty_world
     = (Send 500 KEY_NOT_CONFIGURED, empty_world).
Proof.
  assert (Ht : trim (lit "The sky is blue. Grass is green.") <> [])
    by (vm_compute; discriminate).
  assert (Hm : trim (lit "hi") <> []) by (vm_compute; discriminate).
  split; [reflexivity |].
  split;
    apply (missing_key_reported (env_of answering None) empty_world ingest_sky chat_hi
             (lit "The sky is blue. Grass is green.") (lit "hi")
             eq_refl eq_refl Ht eq_refl Hm).
Defined.

(** C8 as stated fails.  Without a key, the in-memory variant answers
    400, not a 5xx, to a request whose text is blank; and the Firestore
    variant calls the provider: it answers 500 only if that call fails,
    after it, and succeeds if the provider answers. *)
Lemma missing_key_not_reported_first :
  InMemory.ingestText (env_of unreachable None) ingest_blank empty_world
  = (Send 400 MISSING_TEXT, empty_world)
  /\ Firestore.ingestText (env_of unreachable None) ingest_sky empty_world
     = (Send 500 (lit "Error ingesting text"),
        log empty_world [EvBatchEmbed [lit "The sky is blue. Grass is green."]])
  /\ Firestore.ingestText (env_of answering None) ingest_sky empty_world
     = (JsonIngest 1,
        {| store := [{| id := lit "1"; text := lit "The sky is blue. Grass is green.";
                        embedding := Some [1%float]; sourceType := lit "doc";
                        sourceName := lit "unknown"; createdAt := 0 |}];
           nextId := 2;
           trace := [EvBatchEmbed [lit "The sky is blue. Grass is green."];
                     EvStoreWrite 1] |}).
Proof.
  repeat split; vm_compute; reflexivity.
Qed.

(** C6.  For every query message that is classified as Greeting (a
    message that passed validation and, in the in-memory variant, the
    test of the key), the handler makes one call, to the answer
    generator with the greeting prompt, and answers with what it returned
    (or the fixed fallback) and [topChunks = []]; if that call throws it
    answers 500.  In both cases it did no retrieval: it called no
    embedding operation and did not read the chunk store, which it leaves
    unchanged, and the answer does not depend on what the store holds. *)
Theorem greeting_skips_retrieval (env : Env) (w : World) (message : jsstring) :
  trim message <> [] ->
  classify (engine env) message = Greeting ->
  let chat := {| req_message := Some message |} in
  let client := getGeminiClients env in
  (InMemory.key_configured (GEMINI_API_KEY env) = true ->
     InMemory.chatRag env chat w
     = (match generateContent client (InMemory.greetPrompt message) with
        | Ret text => JsonChat (InMemory.answer_of text InMemory.GREETING_FALLBACK) []
        | Throw m =>
            Send 500 (lit "Error generating answer: "
                        ++ (if truthy m then m else lit "unknown error"))
        end,
        log w [EvGenerate (InMemory.greetPrompt message)])
     /\ answers_without_retrieval w (InMemory.chatRag env chat w))
  /\ Firestore.chatRag env chat w
     = (match generateContent client (Firestore.greetPrompt message) with
        | Ret text => JsonChat (Firestore.answer_of text HI) []
        | Throw _ => Send 500 (lit "Error generating answer")
        end,
        log w [EvGenerate (Firestore.greetPrompt message)])
  /\ answers_without_retrieval w (Firestore.chatRag env chat w).
Proof.
  intros Htrim Hclass chat client.
  assert (Hm : InMemory.key_configured (GEMINI_API_KEY env) = true ->
               InMemory.chatRag env chat w
               = (match generateContent client (InMemory.greetPrompt message) with
                  | Ret text => JsonChat (InMemory.answer_of text InMemory.GREETING_FALLBACK) []
                  | Throw m =>
                      Send 500 (lit "Error generating answer: "
                                  ++ (if truthy m then m else lit "unknown error"))
                  end,
                  log w [EvGenerate (InMemory.greetPrompt message)])).
  { intros Hkey. unfold InMemory.chatRag, try_catch, chat. cbn [req_message].
    rewrite (present_inmem _ Htrim), Hkey, Hclass. cbn [negb].
    unfold bind, emit, lift, ret. fold client.
    now destruct (generateContent client (InMemory.greetPrompt message)). }
  assert (Hf : Firestore.chatRag env chat w
               = (match generateContent client (Firestore.greetPrompt message) with
                  | Ret text => JsonChat (Firestore.answer_of text HI) []
                  | Throw _ => Send 500 (lit "Error generating answer")
                  end,
                  log w [EvGenerate (Firestore.greetPrompt message)])).
  { unfold Firestore.chatRag, try_catch, chat. cbn [req_message].
    rewrite (present_fs _ Htrim), Hclass.
    unfold bind, emit, lift, ret. fold client.
    now destruct (generateContent client (Firestore.greetPrompt message)). }
  split; [intros Hkey; split; [now apply Hm |] | split; [exact Hf |]].
  - rewrite (Hm Hkey). unfold answers_without_retrieval. cbn [fst snd log store trace].
    repeat split.
    + intros answer topChunks.
      destruct (generateContent client (InMemory.greetPrompt message)); congruence.
    + now exists [EvGenerate (InMemory.greetPrompt message)].
  - rewrite Hf. unfold answers_without_retrieval. cbn [fst snd log store trace].
    repeat split.
    + intros answer topChunks.
      destruct (generateContent client (Firestore.greetPrompt message)); congruence.
    + now exists [EvGenerate (Firestore.greetPrompt message)].
Qed.

(** The message [hi]. *)
Lemma greeting_skips_retrieval_witness :
  classify (engine (env_of answering (Some A_KEY))) (lit "hi") = Greeting
  /\ Firestore.chatRag (env_of answering (Some A_KEY)) chat_hi empty_world
     = (JsonChat (lit "Hello!") [],
        log empty_world [EvGenerate (Firestore.greetPrompt (lit "hi"))])
  /\ answers_without_retrieval empty_world
       (InMemory.chatRag (env_of answering (Some A_KEY)) chat_hi empty_world).
Proof.
  assert (Hm : trim (lit "hi") <> []) by (vm_compute; discriminate).
  split; [reflexivity |].
  split.
  - apply (greeting_skips_retrieval (env_of answering (Some A_KEY)) empty_world
             (lit "hi") Hm eq_refl).
  - apply (greeting_skips_retrieval (env_of answering (Some A_KEY)) empty_world
             (lit "hi") Hm eq_refl).
    reflexivity.
Defined.

(** The end-to-end scenario: one text ingested, then a greeting and a
    question. *)
Example ingest_sky_in_memory :
  InMemory.ingestText (env_of answering (Some A_KEY)) ingest_sky empty_world
  = (JsonIngest 1,
     {| store := [{| id := lit "1"; text := lit "The sky is blue. Grass is green.";
                     embedding := Some [1%float]; sourceType := lit "doc";
                     sourceName := lit "unknown"; createdAt := 0 |}];
        nextId := 2;
        trace := [EvBatchEmbed [lit "The sky is blue. Grass is green."];
                  EvStoreWrite 1] |}).
Proof. vm_compute. reflexivity. Qed.

Example question_retrieves_chunk :
  fst (InMemory.chatRag (env_of answering (Some A_KEY))
         {| req_message := Some (lit "what color is the sky") |}
         (snd (InMemory.ingestText (env_of answering (Some A_KEY)) ingest_sky
                 empty_world)))
  = JsonChat (lit "Hello!")
      [{| t_id := lit "1"; t_sourceType := lit "doc"; t_sourceName := lit "unknown";
          t_score := 1%float |}].
Proof. vm_compute. reflexivity. Qed.

End HandlerTheorems.
(** ** Chunk boundaries *)

Section ChunkBoundaries.
Import Chunker ChunkerSpec.

Lemma pieces_S (text : jsstring) (maxChars start n : nat) :
  pieces text maxChars start (S n)
  = slice text start (start + maxChars) :: pieces text maxChars (start + maxChars) n.
Proof.
  unfold pieces. cbn [seq List.map]. rewrite Nat.add_0_r. f_equal.
  rewrite <- seq_shift, map_map. apply map_ext. intros k.
  f_equal; lia.
Qed.

Lemma chunk_loop_pieces (text : jsstring) (maxChars : nat) :
  0 < maxChars ->
  forall fuel start chunks,
    length text - start <= fuel ->
    chunk_loop fuel text maxChars start chunks
    = Some (chunks ++ pieces text maxChars start (ceil_div (length text - start) maxChars)).
Proof.
  intros Hm. induction fuel as [| fuel IH]; intros start chunks Hfuel.
  - cbn [chunk_loop].
    destruct (Nat.ltb_spec start (length text)) as [Hlt | Hge]; [lia |].
    replace (length text - start) with 0 by lia.
    rewrite ceil_div_zero by exact Hm. cbn. now rewrite app_nil_r.
  - cbn [chunk_loop].
    destruct (Nat.ltb_spec start (length text)) as [Hlt | Hge].
    + rewrite IH by lia. rewrite <- app_assoc. cbn [app].
      rewrite (ceil_div_step (length text - start)) by lia.
      rewrite pieces_S.
      now replace (length text - (start + maxChars))
        with (length text - start - maxChars) by lia.
    + replace (length text - start) with 0 by lia.
      rewrite ceil_div_zero by exact Hm. cbn. now rewrite app_nil_r.
Qed.

Lemma slice_length (s : jsstring) (a m : nat) :
  length (slice s a (a + m)) = Nat.min m (length s - a).
Proof.
  unfold slice. rewrite length_firstn, length_skipn. f_equal. lia.
Qed.

End ChunkBoundaries.

(** X1.  For every text [T] and chunk size [maxChars > 0], the chunk at
    index [i] of [chunkText(T, maxChars)] is [T.slice(i * maxChars,
    i * maxChars + maxChars)]: no chunk is empty, the chunk at index [i]
    holds [min maxChars (length T - i * maxChars)] code units, and every
    chunk but the last holds exactly [maxChars]. *)
Theorem chunkText_boundaries (T : jsstring) (maxChars : nat) :
  0 < maxChars ->
  let n := Chunker.ceil_div (length T) maxChars in
  exists chunks,
    Chunker.chunkText (length T) T (Some maxChars) = Some chunks
    /\ Chunker.chunkText_inmem (length T) T (Some maxChars) = Some chunks
    /\ length chunks = n
    /\ (forall i, i < n ->
          nth_error chunks i = Some (slice T (i * maxChars) (i * maxChars + maxChars)))
    /\ (forall i c, nth_error chunks i = Some c ->
          c <> [] /\ length c = Nat.min maxChars (length T - i * maxChars))
    /\ (forall i c, nth_error chunks i = Some c -> S i < n -> length c = maxChars).
Proof.
  intros Hm n.
  pose proof (chunk_loop_pieces T maxChars Hm (length T) 0 [] ltac:(lia)) as Hrun.
  rewrite Nat.sub_0_r in Hrun. cbn [app] in Hrun. fold n in Hrun.
  exists (ChunkerSpec.pieces T maxChars 0 n).
  assert (Hlen : length (ChunkerSpec.pieces T maxChars 0 n) = n)
    by (unfold ChunkerSpec.pieces; now rewrite length_map, length_seq).
  assert (Hnth : forall i, i < n ->
            nth_error (ChunkerSpec.pieces T maxChars 0 n) i
            = Some (slice T (i * maxChars) (i * maxChars + maxChars))).
  { intros i Hi. unfold ChunkerSpec.pieces.
    rewrite nth_error_map, nth_error_seq.
    destruct (Nat.ltb_spec i n) as [_ | ?]; [| lia]. reflexivity. }
  destruct (ceil_div_is_ceiling (length T) maxChars Hm) as [Hup Hlow]. fold n in Hup, Hlow.
  assert (Hin : forall i c, nth_error (ChunkerSpec.pieces T maxChars 0 n) i = Some c ->
            i < n /\ c = slice T (i * maxChars) (i * maxChars + maxChars)).
  { intros i c Hc.
    assert (Hi : i < n).
    { rewrite <- Hlen. apply nth_error_Some. congruence. }
    split; [exact Hi |]. rewrite (Hnth i Hi) in Hc. congruence. }
  repeat split.
  - exact Hrun.
  - unfold Chunker.chunkText_inmem. destruct maxChars; [lia | exact Hrun].
  - exact Hlen.
  - exact Hnth.
  - destruct (Hin i c H) as [Hi ->]. intros E.
    apply (f_equal (@length _)) in E. rewrite slice_length in E. cbn in E. nia.
  - destruct (Hin i c H) as [Hi ->]. apply slice_length.
  - intros i c Hc Hi. destruct (Hin i c Hc) as [_ ->]. rewrite slice_length. nia.
Qed.

(** The text [abcdefg] in chunks of 3: the last one is [g]. *)
Lemma chunkText_boundaries_witness :
  0 < 3
  /\ exists chunks,
       Chunker.chunkText 7 (lit "abcdefg") (Some 3) = Some chunks
       /\ nth_error chunks 2 = Some (lit "g").
Proof.
  split; [lia |].
  destruct (chunkText_boundaries (lit "abcdefg") 3 ltac:(lia))
    as (chunks & Hrun & _ & _ & Hnth & _).
  exists chunks. split; [exact Hrun |]. apply (Hnth 2). vm_compute. lia.
Defined.

(** X2.  A chunk size of zero.  With the default parameter of the
    Firestore variant, [chunkText(T, 0)] on a text that is not empty never
    returns: its loop is still running after any number of iterations.
    The in-memory variant replaces the zero by 800 ([maxChars || 800]) and
    returns the chunks of that size. *)
Theorem chunkText_zero_size (T : jsstring) :
  T <> [] ->
  (forall fuel, Chunker.chunkText fuel T (Some 0) = None)
  /\ (forall fuel,
        Chunker.chunkText_inmem fuel T (Some 0) = Chunker.chunkText fuel T (Some 800))
  /\ exists chunks,
       Chunker.chunkText_inmem (length T) T (Some 0) = Some chunks /\ concat chunks = T.
Proof.
  intros Hne. split; [| split].
  - intros fuel. now apply chunk_loop_zero_diverges.
  - reflexivity.
  - destruct (chunk_loop_spec T 800 ltac:(lia) (length T) 0 [] ltac:(lia))
      as (chunks & Hrun & Hcat & _).
    exists chunks. split; [exact Hrun | exact Hcat].
Qed.

(** The text [abc]. *)
Lemma chunkText_zero_size_witness :
  lit "abc" <> []
  /\ Chunker.chunkText 5 (lit "abc") (Some 0) = None
  /\ Chunker.chunkText_inmem 5 (lit "abc") (Some 0) = Some [lit "abc"].
Proof.
  assert (H : lit "abc" <> []) by discriminate.
  split; [exact H |].
  destruct (chunkText_zero_size (lit "abc") H) as (Hnone & E & _).
  split; [exact (Hnone 5) |]. rewrite (E 5). reflexivity.
Defined.

(** ** Components that are not numbers *)

Section NanFacts.
Import Similarity SimilaritySpec.

Lemma is_nan_true (x : float) : is_nan x = true -> x = nan.
Proof.
  intros H. rewrite <- (SF2Prim_Prim2SF x).
  unfold is_nan in H. rewrite eqb_spec in H.
  destruct (Prim2SF x) as [s | s | | s m e]; cbn in H.
  - discriminate.
  - destruct s; discriminate.
  - reflexivity.
  - destruct s; rewrite Z.compare_refl, Pos.compare_cont_refl in H; discriminate.
Qed.

Lemma nan_mul_l (y : float) : (nan * y)%float = nan.
Proof. apply Prim2SF_inj. rewrite mul_spec. reflexivity. Qed.

Lemma nan_add_r (x : float) : (x + nan)%float = nan.
Proof.
  apply Prim2SF_inj. rewrite add_spec. change (Prim2SF nan) with S754_nan.
  now destruct (Prim2SF x) as [[|] | [|] | | [|] m e].
Qed.

Lemma nan_add_l (y : float) : (nan + y)%float = nan.
Proof. apply Prim2SF_inj. rewrite add_spec. reflexivity. Qed.

Lemma sum_from_nan (l : list float) : fold_left PrimFloat.add l nan = nan.
Proof.
  induction l as [| x l IH]; [reflexivity |]. cbn [fold_left]. now rewrite nan_add_l.
Qed.

Lemma sum_with_nan (l : list float) :
  In nan l -> forall acc, fold_left PrimFloat.add l acc = nan.
Proof.
  induction l as [| x l IH]; intros Hin acc; [contradiction |].
  cbn [fold_left]. destruct Hin as [-> | Hin].
  - rewrite nan_add_r. apply sum_from_nan.
  - now apply IH.
Qed.

Lemma nth_error_combine (A B : Type) (a : list A) (b : list B) (i : nat) (x : A) (y : B) :
  nth_error a i = Some x -> nth_error b i = Some y ->
  nth_error (combine a b) i = Some (x, y).
Proof.
  revert b i. induction a as [| x0 a IH]; intros [| y0 b] [| i] Ha Hb;
    cbn in *; try discriminate; try congruence. now apply IH.
Qed.

End NanFacts.

(** X3.  If a component of [a] or of [b] at an index both vectors have is
    [NaN], [cosineSimilarity a b] is [0], not [NaN]: the sum of squares
    is [NaN], which the test [!na || !nb] takes as zero.  A record with
    such an embedding scores [0]. *)
Theorem cosineSimilarity_nan_component (a b : Similarity.vector) (i : nat)
    (x y : float) :
  nth_error a i = Some x -> nth_error b i = Some y ->
  is_nan x = true \/ is_nan y = true ->
  Similarity.cosineSimilarity a b = 0%float
  /\ (forall d, embedding d = Some b -> Ranker.score_of a d = 0%float).
Proof.
  intros Ha Hb Hnan.
  assert (E : Similarity.cosineSimilarity a b = 0%float).
  { rewrite cosineSimilarity_formula. unfold SimilaritySpec.cosine_formula.
    pose proof (nth_error_In _ _ (nth_error_combine _ _ a b i x y Ha Hb)) as Hin.
    destruct Hnan as [Hx | Hy].
    - apply is_nan_true in Hx. subst x.
      replace (SimilaritySpec.sum_left
                 (List.map (fun p : float * float => (fst p * fst p)%float) (combine a b)))
        with nan; [reflexivity |].
      symmetry. apply sum_with_nan.
      apply (in_map (fun p : float * float => (fst p * fst p)%float)) in Hin.
      cbn [fst] in Hin. now rewrite nan_mul_l in Hin.
    - apply is_nan_true in Hy. subst y.
      replace (SimilaritySpec.sum_left
                 (List.map (fun p : float * float => (snd p * snd p)%float) (combine a b)))
        with nan; [cbn [Similarity.falsy]; now rewrite orb_true_r |].
      symmetry. apply sum_with_nan.
      apply (in_map (fun p : float * float => (snd p * snd p)%float)) in Hin.
      cbn [snd] in Hin. now rewrite nan_mul_l in Hin. }
  split; [exact E |].
  intros d Hd. unfold Ranker.score_of. now rewrite Hd.
Qed.

(** A vector whose second component is [NaN]. *)
Lemma cosineSimilarity_nan_component_witness :
  is_nan nan = true
  /\ Similarity.cosineSimilarity [1%float; nan; 2%float] [3%float; 4%float] = 0%float.
Proof.
  split; [reflexivity |].
  apply (cosineSimilarity_nan_component [1%float; nan; 2%float] [3%float; 4%float]
           1 nan 4%float eq_refl eq_refl).
  left. reflexivity.
Defined.

(** ** Ranking when scores tie or are not numbers *)

Section TieFacts.
Import Similarity Ranker RankingSpec.

Lemma in_firstn (A : Type) (n : nat) (l : list A) (x : A) :
  In x (firstn n l) -> In x l.
Proof.
  intros H. rewrite <- (firstn_skipn n l). apply in_or_app. now left.
Qed.

(** The comparator never asks to swap two candidates of the same score,
    a score that is not a number included. *)
Lemma by_score_desc_same (x y : Scored) :
  score x = score y -> (0 <? by_score_desc x y)%float = false.
Proof.
  intros E. unfold by_score_desc. rewrite E.
  destruct (is_nan (score y)) eqn:N.
  - apply is_nan_true in N. rewrite N. reflexivity.
  - rewrite (float_sub_positive _ _ N N). apply Z.ltb_irrefl.
Qed.

Lemma array_sort_tied (l : list Scored) (s : float) :
  Forall (fun x => score x = s) l -> array_sort by_score_desc l = l.
Proof.
  induction 1 as [| x l Hx Hl IH]; [reflexivity |].
  cbn [array_sort fold_right]. fold (array_sort by_score_desc l). rewrite IH.
  destruct l as [| y l]; [reflexivity |]. cbn [sort_insert].
  inversion Hl as [| ? ? Hy _]; subst.
  rewrite by_score_desc_same by congruence. reflexivity.
Qed.

Lemma topK_tied (q : vector) (docs : list ChunkRecord) (s : float) :
  Forall (fun d => score_of q d = s) docs ->
  topK q docs = firstn TOP_K (List.map (to_scored q) docs).
Proof.
  intros H. unfold topK, scored_sorted. rewrite (array_sort_tied _ s); [reflexivity |].
  rewrite Forall_map. exact H.
Qed.

Lemma cosineSimilarity_nil_l (b : vector) : cosineSimilarity [] b = 0%float.
Proof. reflexivity. Qed.

Lemma score_of_nil (d : ChunkRecord) : score_of [] d = 0%float.
Proof. unfold score_of. destruct (embedding d); reflexivity. Qed.

Lemma topK_nil_query (docs : list ChunkRecord) :
  topK [] docs = firstn TOP_K (List.map (to_scored []) docs).
Proof.
  apply (topK_tied [] docs 0%float). rewrite Forall_forall. intros d _.
  apply score_of_nil.
Qed.

End TieFacts.

(** X4.  When every record has the same score, whatever it is ([0],
    [NaN], an infinity), the ranker returns the first five records of the
    store in the order of the store: the comparator never asks to swap
    two candidates of the same score. *)
Theorem topK_ties_keep_store_order (q : Similarity.vector)
    (docs : list ChunkRecord) (s : float) :
  Forall (fun d => Ranker.score_of q d = s) docs ->
  Ranker.topK q docs = firstn 5 (List.map (Ranker.to_scored q) docs)
  /\ Forall (fun c => score c = s) (Ranker.topK q docs).
Proof.
  intros H. rewrite (topK_tied q docs s H). split; [reflexivity |].
  apply Forall_forall. intros c Hc. apply in_firstn in Hc.
  apply in_map_iff in Hc as (d & <- & Hd).
  rewrite Forall_forall in H. exact (H d Hd).
Qed.

(** Two records that both score [NaN]. *)
Lemma topK_ties_keep_store_order_witness :
  Forall (fun d => Ranker.score_of RankingSpec.overflow_query d = nan)
    [RankingSpec.chunk (Some [0x1p+1000%float]); RankingSpec.chunk (Some [0x1p+1001%float])]
  /\ List.map score
       (Ranker.topK RankingSpec.overflow_query
          [RankingSpec.chunk (Some [0x1p+1000%float]);
           RankingSpec.chunk (Some [0x1p+1001%float])])
     = [nan; nan].
Proof.
  assert (H : Forall (fun d => Ranker.score_of RankingSpec.overflow_query d = nan)
                [RankingSpec.chunk (Some [0x1p+1000%float]);
                 RankingSpec.chunk (Some [0x1p+1001%float])])
    by (repeat constructor).
  split; [exact H |].
  destruct (topK_ties_keep_store_order _ _ _ H) as [E _]. rewrite E. reflexivity.
Defined.

(** ** White space around a message, and the class *)

(** X5.  White space before and after a message does not change its
    class: the classifier sees the message trimmed. *)
Theorem classify_ignores_outer_space (engine : Engine)
    (pre message post : jsstring) :
  Forall (fun c => JsString.isWhiteSpace c = true) pre ->
  Forall (fun c => JsString.isWhiteSpace c = true) post ->
  Classifier.normalize engine (pre ++ message ++ post)
  = Classifier.normalize engine message
  /\ Classifier.classify engine (pre ++ message ++ post)
     = Classifier.classify engine message.
Proof.
  intros Hpre Hpost. unfold Classifier.classify, Classifier.normalize.
  now rewrite (trim_padded pre message post Hpre Hpost).
Qed.

(** Two spaces before [hello there] and a line break after it. *)
Lemma classify_ignores_outer_space_witness :
  Forall (fun c => JsString.isWhiteSpace c = true) (lit "  ")
  /\ Classifier.classify RefEngine.engine (lit "  " ++ lit "hello there" ++ [10%N])
     = Classifier.classify RefEngine.engine (lit "hello there").
Proof.
  assert (H1 : Forall (fun c => JsString.isWhiteSpace c = true) (lit "  "))
    by (repeat constructor).
  assert (H2 : Forall (fun c => JsString.isWhiteSpace c = true) [10%N])
    by (repeat constructor).
  split; [exact H1 |].
  apply (classify_ignores_outer_space RefEngine.engine (lit "  ") (lit "hello there")
           [10%N] H1 H2).
Defined.

(** ** Queries leave the store alone *)

Section StoreFacts.
Import JsString Classifier Effects Texts HandlerSpec ServiceSpec.

Lemma same_store_refl (w : World) : same_store w w.
Proof. now split. Qed.

Lemma same_store_trans (w1 w2 w3 : World) :
  same_store w1 w2 -> same_store w2 w3 -> same_store w1 w3.
Proof. unfold same_store. intros [] []. split; congruence. Qed.

Lemma keeps_ret (A : Type) (a : A) : keeps_store (ret a).
Proof. intros w. apply same_store_refl. Qed.

Lemma keeps_throw (A : Type) (m : jsstring) : keeps_store (@throw A m).
Proof. intros w. apply same_store_refl. Qed.

Lemma keeps_lift (A : Type) (o : outcome A) : keeps_store (lift o).
Proof. intros w. apply same_store_refl. Qed.

Lemma keeps_emit (e : event) : keeps_store (emit e).
Proof. intros w. now split. Qed.

Lemma keeps_bind (A B : Type) (c : M A) (k : A -> M B) :
  keeps_store c -> (forall a, keeps_store (k a)) -> keeps_store (bind c k).
Proof.
  intros Hc Hk w. unfold bind. specialize (Hc w).
  destruct (c w) as [[a | m] w1]; cbn [snd] in *; [| exact Hc].
  eapply same_store_trans; [exact Hc | apply Hk].
Qed.

Lemma keeps_read_ragChunks : keeps_store InMemory.read_ragChunks.
Proof. intros w. now split. Qed.

Lemma keeps_collection_get (env : Env) : keeps_store (Firestore.collection_get env).
Proof. intros w. unfold Firestore.collection_get. now destruct (firestoreUp env). Qed.

Lemma keeps_scored_all (q : option Similarity.vector) docs :
  keeps_store (Firestore.scored_all q docs).
Proof.
  induction docs as [| d rest IH]; cbn [Firestore.scored_all].
  - apply keeps_ret.
  - apply keeps_bind.
    + unfold Firestore.scored_of.
      destruct (embedding d), q; auto using keeps_ret, keeps_throw.
    + intros s. apply keeps_bind; [apply IH |]. intros ss. apply keeps_ret.
Qed.

Lemma keeps_queryEmbedding_of embRes : keeps_store (Firestore.queryEmbedding_of embRes).
Proof. destruct embRes; [apply keeps_ret | apply keeps_throw]. Qed.

Lemma keeps_retrieve (env : Env) prompt_of message :
  keeps_store (CloudFunctions.retrieve env prompt_of message).
Proof.
  unfold CloudFunctions.retrieve.
  repeat (first [ apply keeps_bind | apply keeps_emit | apply keeps_lift
                | apply keeps_ret | apply keeps_queryEmbedding_of
                | apply keeps_collection_get | apply keeps_scored_all | intro ]).
Qed.

Lemma keeps_try_catch (body : M Response) (handler : jsstring -> Response) (w : World) :
  keeps_store body -> same_store w (snd (try_catch body handler w)).
Proof. intros H. rewrite try_catch_snd. apply H. Qed.

Lemma method_checked_snd (Body : Type) (handler : Body -> World -> Response * World)
    (req : CloudFunctions.HttpRequest Body) (w : World) :
  snd (CloudFunctions.method_checked handler req w) = w
  \/ snd (CloudFunctions.method_checked handler req w)
     = snd (handler (CloudFunctions.req_body req) w).
Proof.
  unfold CloudFunctions.method_checked.
  destruct (CloudFunctions.same_string _ _); [now left |].
  destruct (negb _); [now left |].
  right. now destruct (handler _ w).
Qed.

Lemma InMemory_chatRag_keeps (env : Env) (req : ChatRequest) (w : World) :
  same_store w (snd (InMemory.chatRag env req w)).
Proof.
  unfold InMemory.chatRag. apply keeps_try_catch.
  destruct (InMemory.missing_or_blank _); [apply keeps_ret |].
  destruct (negb _); [apply keeps_ret |].
  destruct (classify _ _);
    repeat (first [ apply keeps_bind | apply keeps_emit | apply keeps_lift
                  | apply keeps_ret | apply keeps_read_ragChunks | intro ]).
Qed.

Lemma Firestore_chatRag_keeps (env : Env) (req : ChatRequest) (w : World) :
  same_store w (snd (Firestore.chatRag env req w)).
Proof.
  unfold Firestore.chatRag.
  destruct (Firestore.missing_or_blank _); [apply same_store_refl |].
  apply keeps_try_catch.
  destruct (classify _ _);
    repeat (first [ apply keeps_bind | apply keeps_emit | apply keeps_lift
                  | apply keeps_ret | apply keeps_queryEmbedding_of
                  | apply keeps_collection_get | apply keeps_scored_all | intro ]).
Qed.

Lemma Cloud_chatRag_body_keeps (env : Env) (req : ChatRequest) (w : World) :
  same_store w (snd (CloudFunctions.chatRag_body env req w)).
Proof.
  unfold CloudFunctions.chatRag_body.
  destruct (Firestore.missing_or_blank _); [apply same_store_refl |].
  apply keeps_try_catch.
  destruct (classify _ _); [| apply keeps_retrieve].
  repeat (first [ apply keeps_bind | apply keeps_emit | apply keeps_lift
                | apply keeps_ret | intro ]).
Qed.

Lemma Cloud_chatRag_plain_body_keeps (env : Env) (req : ChatRequest) (w : World) :
  same_store w (snd (CloudFunctions.chatRag_plain_body env req w)).
Proof.
  unfold CloudFunctions.chatRag_plain_body.
  destruct (Firestore.missing_or_blank _); [apply same_store_refl |].
  apply keeps_try_catch. apply keeps_retrieve.
Qed.

End StoreFacts.

(** X6.  A query never changes the chunk store or the id counter:
    whatever the request, the method, the provider's answers and the
    branch taken, in the in-memory variant, the Firestore variant and both
    sets of Cloud Functions. *)
Theorem chatRag_never_writes (env : Effects.Env) (w : Effects.World) (req : ChatRequest)
    (method : jsstring) :
  let http := {| CloudFunctions.req_method := method; CloudFunctions.req_body := req |} in
  ServiceSpec.same_store w (snd (InMemory.chatRag env req w))
  /\ ServiceSpec.same_store w (snd (Firestore.chatRag env req w))
  /\ ServiceSpec.same_store w (snd (CloudFunctions.chatRag env http w))
  /\ ServiceSpec.same_store w (snd (CloudFunctions.chatRag_plain env http w)).
Proof.
  intros http. split; [apply InMemory_chatRag_keeps |].
  split; [apply Firestore_chatRag_keeps |]. split.
  - unfold CloudFunctions.chatRag.
    destruct (method_checked_snd _ (CloudFunctions.chatRag_body env) http w) as [-> | ->].
    + apply same_store_refl.
    + apply Cloud_chatRag_body_keeps.
  - unfold CloudFunctions.chatRag_plain.
    destruct (method_checked_snd _ (CloudFunctions.chatRag_plain_body env) http w)
      as [-> | ->].
    + apply same_store_refl.
    + apply Cloud_chatRag_plain_body_keeps.
Qed.

(** ** Ingestion *)

Section IngestFacts.
Import JsString Classifier Effects Texts HandlerSpec ServiceSpec.

Lemma push_chunks_run (env : Env) (st sn : jsstring) embeddings chunks :
  forall i w,
    InMemory.push_chunks env st sn embeddings i chunks w
    = (Ret tt,
       {| store := store w
            ++ stored_chunks (pushed_record env st sn embeddings) i (nextId w) chunks;
          nextId := nextId w + length chunks;
          trace := trace w ++ repeat (EvStoreWrite 1) (length chunks) |}).
Proof.
  induction chunks as [| c rest IH]; intros i w.
  - cbn. rewrite !app_nil_r, Nat.add_0_r. now destruct w.
  - cbn [InMemory.push_chunks]. unfold bind at 1. cbn [InMemory.push_chunk].
    rewrite IH. cbn [store nextId trace stored_chunks length repeat].
    rewrite <- !app_assoc. cbn [app]. now rewrite Nat.add_succ_r.
Qed.

Lemma batch_sets_run (env : Env) (st sn : jsstring) embeddings chunks :
  forall i w,
    Firestore.batch_sets env st sn embeddings i chunks w
    = (Ret (stored_chunks (set_record env st sn embeddings) i (nextId w) chunks),
       {| store := store w; nextId := nextId w + length chunks; trace := trace w |}).
Proof.
  induction chunks as [| c rest IH]; intros i w.
  - cbn. rewrite Nat.add_0_r. now destruct w.
  - cbn [Firestore.batch_sets]. unfold bind at 1. cbn [Firestore.batch_set].
    unfold bind at 1. rewrite IH. cbn [store nextId trace stored_chunks length ret].
    now rewrite Nat.add_succ_r.
Qed.

Lemma stored_chunks_length mk chunks :
  forall i n, length (stored_chunks mk i n chunks) = length chunks.
Proof.
  induction chunks as [| c rest IH]; intros i n; [reflexivity |].
  cbn [stored_chunks length]. now rewrite IH.
Qed.

Lemma stored_chunks_nth mk chunks :
  forall i n k chunk,
    nth_error chunks k = Some chunk ->
    nth_error (stored_chunks mk i n chunks) k = Some (mk (i + k) (n + k) chunk).
Proof.
  induction chunks as [| c rest IH]; intros i n k chunk H.
  - now destruct k.
  - destruct k as [| k]; cbn [nth_error stored_chunks] in *.
    + injection H as ->. now rewrite !Nat.add_0_r.
    + rewrite (IH (S i) (S n) k chunk H). do 2 f_equal; lia.
Qed.

Lemma stored_chunks_text mk chunks :
  (forall i n c, text (mk i n c) = c) ->
  forall i n, List.map text (stored_chunks mk i n chunks) = chunks.
Proof.
  intros Hmk. induction chunks as [| c rest IH]; intros i n; [reflexivity |].
  cbn [stored_chunks List.map]. now rewrite Hmk, IH.
Qed.

Lemma stored_chunks_id mk (name : nat -> jsstring) chunks :
  (forall i n c, id (mk i n c) = name n) ->
  forall i n, List.map id (stored_chunks mk i n chunks)
              = List.map name (seq n (length chunks)).
Proof.
  intros Hmk. induction chunks as [| c rest IH]; intros i n; [reflexivity |].
  cbn [stored_chunks List.map length seq]. now rewrite Hmk, IH.
Qed.

(** The chunks of a text that is not blank: what the handlers get from
    [chunkText(text)]. *)
Lemma handler_chunks (text : jsstring) :
  trim text <> [] ->
  exists chunks,
    Chunker.chunkText (length text) text None = Some chunks
    /\ Chunker.chunkText_inmem (length text) text None = Some chunks
    /\ concat chunks = text
    /\ length chunks = Chunker.ceil_div (length text) 800
    /\ chunks <> [].
Proof.
  intros Htrim.
  destruct (chunk_loop_spec text 800 ltac:(lia) (length text) 0 [] ltac:(lia))
    as (chunks & Hrun & Hcat & Hlen & _).
  cbn [app skipn] in *. rewrite Nat.sub_0_r in Hlen.
  exists chunks. repeat split; auto.
  intros ->. cbn in Hcat. subst text. now apply Htrim.
Qed.

Lemma not_blank_inmem (x : option jsstring) :
  InMemory.missing_or_blank x = false -> exists s, x = Some s /\ trim s <> [].
Proof.
  destruct x as [s |]; cbn; [| discriminate]. intros H. exists s. split; [reflexivity |].
  apply orb_false_iff in H as [_ H]. now destruct (trim s).
Qed.

Lemma not_blank_fs (x : option jsstring) :
  Firestore.missing_or_blank x = false -> exists s, x = Some s /\ trim s <> [].
Proof.
  destruct x as [s |]; cbn; [| discriminate]. intros H. exists s. split; [reflexivity |].
  apply orb_false_iff in H as [_ H]. now destruct (trim s).
Qed.

(** The in-memory ingestion of a text that is not blank, with a key. *)
Lemma InMemory_ingest_run (env : Env) (w : World) (req : IngestRequest)
    (input : jsstring) (chunks : list jsstring) :
  req_text req = Some input -> trim input <> [] ->
  InMemory.key_configured (GEMINI_API_KEY env) = true ->
  Chunker.chunkText_inmem (length input) input None = Some chunks ->
  InMemory.ingestText env req w
  = match batchEmbedContents (getGeminiClients env) chunks with
    | Ret embeddings =>
        (JsonIngest (length chunks),
         {| store := store w
              ++ stored_chunks
                   (pushed_record env
                      (InMemory.or_default (req_sourceType req) (lit "doc"))
                      (InMemory.or_default (req_sourceName req) (lit "unknown"))
                      embeddings)
                   0 (nextId w) chunks;
            nextId := nextId w + length chunks;
            trace := trace w
              ++ EvBatchEmbed chunks :: repeat (EvStoreWrite 1) (length chunks) |})
    | Throw m =>
        (Send 500
           (lit "Error ingesting text on server: "
              ++ (if truthy m then m else lit "unknown error")),
         log w [EvBatchEmbed chunks])
    end.
Proof.
  intros Ht Htrim Hkey Hrun. unfold InMemory.ingestText, try_catch.
  rewrite Ht, (present_inmem _ Htrim), Hkey. cbn [negb]. rewrite Hrun.
  unfold bind at 1. cbn [emit]. unfold bind at 1, lift.
  destruct (batchEmbedContents (getGeminiClients env) chunks) as [embeddings | m];
    [| reflexivity].
  unfold bind at 1. rewrite push_chunks_run.
  cbn [store nextId trace ret]. now rewrite <- app_assoc.
Qed.

(** The Firestore ingestion of a text that is not blank. *)
Lemma Firestore_ingest_run (env : Env) (w : World) (req : IngestRequest)
    (input : jsstring) (chunks : list jsstring) :
  req_text req = Some input -> trim input <> [] ->
  Chunker.chunkText (length input) input None = Some chunks ->
  Firestore.ingestText env req w
  = match batchEmbedContents (getGeminiClients env) chunks with
    | Ret embeddings =>
        (if firestoreUp env then JsonIngest (length chunks)
         else Send 500 (lit "Error ingesting text"),
         {| store :=
              if firestoreUp env
              then store w
                     ++ stored_chunks
                          (set_record env
                             (Firestore.with_default (req_sourceType req) (lit "doc"))
                             (Firestore.with_default (req_sourceName req) (lit "unknown"))
                             embeddings)
                          0 (nextId w) chunks
              else store w;
            nextId := nextId w + length chunks;
            trace := trace w ++ [EvBatchEmbed chunks; EvStoreWrite (length chunks)] |})
    | Throw _ =>
        (Send 500 (lit "Error ingesting text"), log w [EvBatchEmbed chunks])
    end.
Proof.
  intros Ht Htrim Hrun. unfold Firestore.ingestText, try_catch.
  rewrite Ht, (present_fs _ Htrim). rewrite Hrun.
  unfold bind at 1. cbn [emit]. unfold bind at 1, lift.
  destruct (batchEmbedContents (getGeminiClients env) chunks) as [embeddings | m];
    [| reflexivity].
  unfold bind at 1. rewrite batch_sets_run.
  cbn [store nextId trace]. unfold bind, Firestore.batch_commit.
  cbn [store nextId trace ret]. rewrite stored_chunks_length.
  destruct (firestoreUp env); cbn [ret]; now rewrite <- ?app_assoc.
Qed.

End IngestFacts.

Section IngestTheorems.
Import JsString Classifier Effects Texts HandlerSpec ServiceSpec.



(** X8.  Firestore ingestion.  For a text that is not blank and an
    answer of the embedding call, the handler sets one document per chunk
    and commits them in one batch: if Firestore accepts it the documents
    are added in order and the handler answers with their number,
    [ceil (length / 800)]; if it rejects it the handler answers 500 and
    no document is added.  The texts of the documents concatenate to the
    text of the request. *)
Theorem ingestText_commits_chunks (env : Env) (w : World) (req : IngestRequest)
    (input : jsstring) :
  req_text req = Some input -> trim input <> [] ->
  exists chunks,
    Chunker.chunkText (length input) input None = Some chunks
    /\ concat chunks = input
    /\ forall embeddings,
         batchEmbedContents (getGeminiClients env) chunks = Ret embeddings ->
         let sourceType := Firestore.with_default (req_sourceType req) (lit "doc") in
         let sourceName := Firestore.with_default (req_sourceName req) (lit "unknown") in
         let added :=
           stored_chunks (set_record env sourceType sourceName embeddings)
             0 (nextId w) chunks in
         Firestore.ingestText env req w
         = (if firestoreUp env
            then JsonIngest (Chunker.ceil_div (length input) 800)
            else Send 500 (lit "Error ingesting text"),
            {| store := if firestoreUp env then store w ++ added else store w;
               nextId := nextId w + length chunks;
               trace := trace w ++ [EvBatchEmbed chunks; EvStoreWrite (length chunks)] |})
         /\ concat (List.map text added) = input
         /\ List.map id added = List.map (newDocId env) (seq (nextId w) (length chunks))
         /\ (forall k chunk, nth_error chunks k = Some chunk ->
               nth_error added k
               = Some {| id := newDocId env (nextId w + k); text := chunk;
                         embedding := Some (Firestore.embedding_at embeddings k);
                         sourceType := sourceType; sourceName := sourceName;
                         createdAt := dateNow env k |}).
Proof.
  intros Ht Htrim.
  destruct (handler_chunks input Htrim) as (chunks & Hrun & _ & Hcat & Hlen & _).
  exists chunks. split; [exact Hrun |]. split; [exact Hcat |].
  intros embeddings Hemb sourceType sourceName added. repeat split.
  - rewrite (Firestore_ingest_run env w req input chunks Ht Htrim Hrun), Hemb.
    now rewrite Hlen.
  - unfold added. rewrite stored_chunks_text by reflexivity. exact Hcat.
  - unfold added. now apply stored_chunks_id.
  - intros k chunk Hk. unfold added.
    now rewrite (stored_chunks_nth _ chunks 0 (nextId w) k chunk Hk).
Qed.

(** A text of 32 code units. *)
Lemma ingestText_commits_chunks_witness :
  trim (lit "The sky is blue. Grass is green.") <> []
  /\ exists chunks,
       Chunker.chunkText 32 (lit "The sky is blue. Grass is green.") None = Some chunks
       /\ concat chunks = lit "The sky is blue. Grass is green.".
Proof.
  assert (Ht : trim (lit "The sky is blue. Grass is green.") <> [])
    by (vm_compute; discriminate).
  split; [exact Ht |].
  destruct (ingestText_commits_chunks (env_of answering None) empty_world
              ingest_sky (lit "The sky is blue. Grass is green.") eq_refl Ht)
    as (chunks & Hrun & Hcat & _).
  exists chunks. split; [exact Hrun | exact Hcat].
Defined.

(** X9.  Ingestion is all or nothing.  Every ingestion request either
    is answered with [{ ok: true, chunks: n }], [n >= 1], and adds exactly
    [n] records at the end of the store, or is answered 400 or 500 and
    leaves the records of the store as they were; records already stored
    are never changed.  A Cloud Function request whose method is not POST
    changes nothing. *)
Theorem ingestText_all_or_nothing (env : Env) (w : World) (req : IngestRequest)
    (method : jsstring) :
  let http := {| CloudFunctions.req_method := method; CloudFunctions.req_body := req |} in
  all_or_nothing w (InMemory.ingestText env req w)
  /\ all_or_nothing w (Firestore.ingestText env req w)
  /\ (CloudFunctions.same_string method (lit "POST") = true ->
        all_or_nothing w
          (CloudFunctions.res_sent (fst (CloudFunctions.ingestText env http w)),
           snd (CloudFunctions.ingestText env http w)))
  /\ (CloudFunctions.same_string method (lit "POST") = false ->
        snd (CloudFunctions.ingestText env http w) = w).
Proof.
  intros http.
  assert (Hfs : all_or_nothing w (Firestore.ingestText env req w)).
  { destruct (Firestore.missing_or_blank (req_text req)) eqn:Hb.
    - right. unfold Firestore.ingestText. rewrite Hb. cbn. auto.
    - destruct (not_blank_fs _ Hb) as (input & Ht & Htrim).
      destruct (handler_chunks input Htrim) as (chunks & Hrun & _ & _ & _ & Hne).
      rewrite (Firestore_ingest_run env w req input chunks Ht Htrim Hrun).
      destruct (batchEmbedContents (getGeminiClients env) chunks) as [embeddings | m].
      + destruct (firestoreUp env).
        * left. eexists. cbn [fst snd store]. split; [| split; [| reflexivity]].
          -- now rewrite stored_chunks_length.
          -- intros E. apply (f_equal (@length _)) in E.
             rewrite stored_chunks_length in E. now destruct chunks.
        * right. cbn. auto.
      + right. cbn. auto. }
  split; [| split; [exact Hfs | split]].
  - destruct (InMemory.missing_or_blank (req_text req)) eqn:Hb.
    { right. unfold InMemory.ingestText, try_catch. rewrite Hb. cbn. auto. }
    destruct (InMemory.key_configured (GEMINI_API_KEY env)) eqn:Hkey.
    2: { right. unfold InMemory.ingestText, try_catch. rewrite Hb, Hkey. cbn. auto. }
    destruct (not_blank_inmem _ Hb) as (input & Ht & Htrim).
    destruct (handler_chunks input Htrim) as (chunks & _ & Hrun & _ & _ & Hne).
    rewrite (InMemory_ingest_run env w req input chunks Ht Htrim Hkey Hrun).
    destruct (batchEmbedContents (getGeminiClients env) chunks) as [embeddings | m].
    + left. eexists. cbn [fst snd store]. split; [| split; [| reflexivity]].
      * now rewrite stored_chunks_length.
      * intros E. apply (f_equal (@length _)) in E.
        rewrite stored_chunks_length in E. now destruct chunks.
    + right. cbn. auto.
  - intros Hpost. unfold CloudFunctions.ingestText, CloudFunctions.method_checked.
    cbn [CloudFunctions.req_method CloudFunctions.req_body http].
    destruct (CloudFunctions.same_string method (lit "OPTIONS")) eqn:Hopt.
    { exfalso. clear - Hpost Hopt.
      destruct method as [| c m]; [discriminate |]. cbn in Hpost, Hopt.
      destruct (c =? 80)%N eqn:E1; [| discriminate].
      destruct (c =? 79)%N eqn:E2; [| discriminate].
      apply N.eqb_eq in E1, E2. congruence. }
    rewrite Hpost. cbn [negb].
    destruct (Firestore.ingestText env req w) as [r w'] eqn:E. cbn [fst snd CloudFunctions.res_sent].
    exact Hfs.
  - intros Hpost. unfold CloudFunctions.ingestText, CloudFunctions.method_checked.
    cbn [CloudFunctions.req_method http]. rewrite Hpost.
    now destruct (CloudFunctions.same_string method (lit "OPTIONS")).
Qed.

End IngestTheorems.

(** ** Questions *)

Section QuestionFacts.
Import JsString Similarity Ranker Classifier ContextAssembler Effects Texts HandlerSpec ServiceSpec.

Lemma scored_all_run (values : option vector) (docs : list ChunkRecord) (w : World) :
  Firestore.scored_all values docs w = (scored_or_error values docs, w).
Proof.
  destruct values as [q |]; [apply Firestore_scored_all |].
  unfold scored_or_error.
  induction docs as [| d docs IH]; [reflexivity |].
  cbn [Firestore.scored_all existsb List.map]. unfold bind at 1.
  unfold Firestore.scored_of. destruct (embedding d) eqn:E; [reflexivity |].
  cbn [ret orb]. unfold bind. rewrite IH.
  destruct (existsb _ docs); reflexivity.
Qed.

(** The retrieval path of the Firestore handlers and of the Cloud
    Functions, call by call. *)
Lemma retrieve_run (env : Env) (prompt_of : jsstring -> jsstring -> jsstring)
    (message : jsstring) (w : World) :
  CloudFunctions.retrieve env prompt_of message w
  = match embedContent (getGeminiClients env) message with
    | Throw m => (Throw m, log w [EvEmbed message])
    | Ret None => (Throw (lit "TypeError"), log w [EvEmbed message])
    | Ret (Some values) =>
        if firestoreUp env then
          match scored_or_error values (store w) with
          | Throw m => (Throw m, log w [EvEmbed message; EvStoreRead])
          | Ret scored =>
              let top := firstn TOP_K (array_sort by_score_desc scored) in
              let prompt := prompt_of message (contextText_join (engine env) top) in
              (match generateContent (getGeminiClients env) prompt with
               | Ret resp =>
                   Ret (JsonChat (Firestore.answer_of resp NO_ANSWER)
                          (List.map Firestore.to_topChunk top))
               | Throw m => Throw m
               end,
               log w [EvEmbed message; EvStoreRead; EvGenerate prompt])
          end
        else (Throw (lit "unavailable"), log w [EvEmbed message; EvStoreRead])
    end.
Proof.
  unfold CloudFunctions.retrieve. unfold bind at 1. cbn [emit].
  unfold bind at 1, lift.
  destruct (embedContent (getGeminiClients env) message) as [[values |] | m];
    try reflexivity.
  unfold bind at 1. cbn [Firestore.queryEmbedding_of ret].
  unfold bind at 1, Firestore.collection_get. cbn [store nextId trace].
  destruct (firestoreUp env); [| unfold log; cbn; now rewrite <- app_assoc].
  unfold bind at 1. rewrite scored_all_run.
  destruct (scored_or_error values (store w)) as [scored | m].
  - unfold bind, emit, lift, ret. cbn [store nextId trace].
    unfold log. cbn [store nextId trace]. rewrite <- !app_assoc. cbn [app].
    now destruct (generateContent _ _).
  - unfold log; cbn; now rewrite <- app_assoc.
Qed.

Lemma Firestore_question_retrieve (env : Env) (message : jsstring) (w : World) :
  trim message <> [] -> classify (engine env) message = Question ->
  Firestore.chatRag env {| req_message := Some message |} w
  = try_catch (CloudFunctions.retrieve env Firestore.prompt_of message)
      (fun _ => Send 500 (lit "Error generating answer")) w.
Proof.
  intros Htrim Hclass. unfold Firestore.chatRag. cbn [req_message].
  now rewrite (present_fs _ Htrim), Hclass.
Qed.

(** The retrieval path of the in-memory handler, call by call. *)
Lemma InMemory_question_run (env : Env) (message : jsstring) (w : World) :
  trim message <> [] ->
  InMemory.key_configured (GEMINI_API_KEY env) = true ->
  classify (engine env) message = Question ->
  InMemory.chatRag env {| req_message := Some message |} w
  = match embedContent (getGeminiClients env) message with
    | Throw m => (Send 500 (chat_error m), log w [EvEmbed message])
    | Ret embRes =>
        let top := topK (InMemory.queryEmbedding_of embRes) (store w) in
        let prompt :=
          InMemory.ragPrompt message (contextText_loop (engine env) top) in
        (match generateContent (getGeminiClients env) prompt with
         | Ret resp =>
             JsonChat (InMemory.answer_of resp NO_ANSWER)
               (List.map InMemory.to_topChunk top)
         | Throw m => Send 500 (chat_error m)
         end,
         log w [EvEmbed message; EvStoreRead; EvGenerate prompt])
    end.
Proof.
  intros Htrim Hkey Hclass. unfold InMemory.chatRag, try_catch. cbn [req_message].
  rewrite (present_inmem _ Htrim), Hkey, Hclass. cbn [negb].
  unfold bind at 1. cbn [emit]. unfold bind at 1, lift.
  destruct (embedContent (getGeminiClients env) message) as [embRes | m];
    [| reflexivity].
  unfold bind at 1, InMemory.read_ragChunks. cbn [store nextId trace].
  unfold bind, emit, lift, ret. cbn [store nextId trace].
  unfold log. cbn [store nextId trace]. rewrite <- !app_assoc. cbn [app].
  now destruct (generateContent _ _).
Qed.

Lemma topK_at_most (q : vector) (docs : list ChunkRecord) :
  length (topK q docs) <= 5.
Proof. unfold topK. rewrite length_firstn. unfold TOP_K. lia. Qed.

End QuestionFacts.

Section QuestionTheorems.
Import JsString Similarity Ranker Classifier ContextAssembler Effects Texts HandlerSpec ServiceSpec.

(** X10.  A question in the in-memory variant.  When the embedding call
    answers and no score is [NaN], the handler reads the store, ranks it
    against the query embedding and makes one generation call;
    [topChunks] are the ranked candidates, [min N 5] of them in descending
    order of score, each with the id, source and score of a stored
    record, and the prompt ends with the context block of exactly those
    candidates.  If the generation call throws the answer is 500. *)
Theorem question_answer_in_memory (env : Env) (w : World) (message : jsstring)
    (embRes : option (option vector)) :
  trim message <> [] ->
  InMemory.key_configured (GEMINI_API_KEY env) = true ->
  classify (engine env) message = Question ->
  embedContent (getGeminiClients env) message = Ret embRes ->
  RankingSpec.scores_are_numbers (InMemory.queryEmbedding_of embRes) (store w) ->
  let top := topK (InMemory.queryEmbedding_of embRes) (store w) in
  let prompt := InMemory.ragPrompt message (contextText_loop (engine env) top) in
  InMemory.chatRag env {| req_message := Some message |} w
  = (match generateContent (getGeminiClients env) prompt with
     | Ret resp =>
         JsonChat (InMemory.answer_of resp NO_ANSWER) (List.map InMemory.to_topChunk top)
     | Throw m => Send 500 (chat_error m)
     end,
     log w [EvEmbed message; EvStoreRead; EvGenerate prompt])
  /\ length (List.map InMemory.to_topChunk top) = Nat.min (length (store w)) 5
  /\ RankingSpec.descending top
  /\ (forall c, In c (List.map InMemory.to_topChunk top) ->
        exists d, In d (store w)
          /\ c = {| t_id := id d; t_sourceType := sourceType d;
                    t_sourceName := sourceName d;
                    t_score := score_of (InMemory.queryEmbedding_of embRes) d |})
  /\ prompt
     = GROUNDING ++ message ++ NL ++ NL ++ lit "Context:" ++ NL
         ++ ContextSpec.terminated (ContextSpec.sections (engine env) top).
Proof.
  intros Htrim Hkey Hclass Hemb Hok top prompt.
  split; [| split; [| split; [| split]]].
  - rewrite (InMemory_question_run env message w Htrim Hkey Hclass), Hemb. reflexivity.
  - rewrite length_map. unfold top, topK, scored_sorted.
    rewrite length_firstn,
      (Permutation_length (array_sort_perm Scored by_score_desc _)), length_map.
    unfold TOP_K. lia.
  - now apply topK_descending.
  - intros c Hc. apply in_map_iff in Hc as (s & <- & Hs).
    unfold top, topK, scored_sorted in Hs. apply in_firstn in Hs.
    apply (Permutation_in _ (array_sort_perm Scored by_score_desc _)) in Hs.
    apply in_map_iff in Hs as (d & <- & Hd). now exists d.
  - unfold prompt, InMemory.ragPrompt, contextText_loop.
    rewrite context_loop_terminated. reflexivity.
Qed.

(** A question on a store of one chunk. *)
Lemma question_answer_in_memory_witness :
  classify (engine (env_of answering (Some A_KEY))) (lit "what color is the sky")
  = Question
  /\ RankingSpec.scores_are_numbers [1%float] (store sky_world)
  /\ fst (InMemory.chatRag (env_of answering (Some A_KEY))
            {| req_message := Some (lit "what color is the sky") |} sky_world)
     = JsonChat (lit "Hello!")
         [{| t_id := lit "1"; t_sourceType := lit "doc"; t_sourceName := lit "sky.txt";
             t_score := 1%float |}].
Proof.
  assert (Ht : trim (lit "what color is the sky") <> []) by (vm_compute; discriminate).
  assert (Hok : RankingSpec.scores_are_numbers [1%float] (store sky_world))
    by (repeat constructor).
  split; [reflexivity |]. split; [exact Hok |].
  destruct (question_answer_in_memory (env_of answering (Some A_KEY)) sky_world
              (lit "what color is the sky") (Some (Some [1%float]))
              Ht eq_refl eq_refl eq_refl Hok) as [E _].
  rewrite E. reflexivity.
Defined.



End QuestionTheorems.

Section FailureTheorems.
Import JsString Similarity Ranker Classifier ContextAssembler Effects Texts HandlerSpec ServiceSpec.

(** X12.  An embedding answer without an embedding.  The in-memory
    variant goes on with an empty query embedding: every record scores
    [0] and [topChunks] are the first five records of the store.  The
    Firestore variant answers 500: at once when the answer has no
    [embedding], after reading the store when [embedding] has no [values]
    and a stored record has an embedding; it makes no generation call. *)
Theorem missing_query_embedding (env : Env) (w : World) (message : jsstring) :
  trim message <> [] ->
  classify (engine env) message = Question ->
  let chat := {| req_message := Some message |} in
  let client := getGeminiClients env in
  (forall embRes,
     InMemory.key_configured (GEMINI_API_KEY env) = true ->
     embedContent client message = Ret embRes ->
     embRes = None \/ embRes = Some None ->
     let top := firstn 5 (List.map (to_scored []) (store w)) in
     let prompt := InMemory.ragPrompt message (contextText_loop (engine env) top) in
     InMemory.chatRag env chat w
     = (match generateContent client prompt with
        | Ret resp =>
            JsonChat (InMemory.answer_of resp NO_ANSWER)
              (List.map InMemory.to_topChunk top)
        | Throw m => Send 500 (chat_error m)
        end,
        log w [EvEmbed message; EvStoreRead; EvGenerate prompt])
     /\ Forall (fun c => t_score c = 0%float) (List.map InMemory.to_topChunk top))
  /\ (embedContent client message = Ret None ->
        Firestore.chatRag env chat w
        = (Send 500 (lit "Error generating answer"), log w [EvEmbed message]))
  /\ (embedContent client message = Ret (Some None) ->
        firestoreUp env = true ->
        (exists d, In d (store w) /\ embedding d <> None) ->
        Firestore.chatRag env chat w
        = (Send 500 (lit "Error generating answer"),
           log w [EvEmbed message; EvStoreRead])).
Proof.
  intros Htrim Hclass chat client. split; [| split].
  - intros embRes Hkey Hemb Hnone top prompt.
    assert (Hq : InMemory.queryEmbedding_of embRes = [])
      by (destruct Hnone as [-> | ->]; reflexivity).
    split.
    + unfold chat. rewrite (InMemory_question_run env message w Htrim Hkey Hclass).
      fold client. rewrite Hemb, Hq, topK_nil_query. reflexivity.
    + rewrite Forall_map. apply Forall_forall. intros c Hc.
      apply in_firstn in Hc. apply in_map_iff in Hc as (d & <- & _).
      apply score_of_nil.
  - intros Hemb. unfold chat.
    rewrite (Firestore_question_retrieve env message w Htrim Hclass).
    unfold try_catch. rewrite retrieve_run. fold client. now rewrite Hemb.
  - intros Hemb Hup (d & Hd & He). unfold chat.
    rewrite (Firestore_question_retrieve env message w Htrim Hclass).
    unfold try_catch. rewrite retrieve_run. fold client. rewrite Hemb, Hup.
    cbn [scored_or_error].
    replace (existsb _ (store w)) with true; [reflexivity |].
    symmetry. apply existsb_exists. exists d. split; [exact Hd |].
    now destruct (embedding d).
Qed.

(** A provider that answers without an embedding, and a store of one
    chunk that has one. *)
Lemma missing_query_embedding_witness :
  classify (engine (env_of no_embedding (Some A_KEY))) (lit "what color is the sky")
  = Question
  /\ Firestore.chatRag (env_of no_embedding (Some A_KEY))
       {| req_message := Some (lit "what color is the sky") |} sky_world
     = (Send 500 (lit "Error generating answer"),
        log sky_world [EvEmbed (lit "what color is the sky")])
  /\ fst (InMemory.chatRag (env_of no_embedding (Some A_KEY))
            {| req_message := Some (lit "what color is the sky") |} sky_world)
     = JsonChat (lit "Hello!")
         [{| t_id := lit "1"; t_sourceType := lit "doc"; t_sourceName := lit "sky.txt";
             t_score := 0%float |}].
Proof.
  assert (Ht : trim (lit "what color is the sky") <> []) by (vm_compute; discriminate).
  split; [reflexivity |].
  destruct (missing_query_embedding (env_of no_embedding (Some A_KEY)) sky_world
              (lit "what color is the sky") Ht eq_refl) as (Hm & Hf & _).
  split.
  - apply Hf. reflexivity.
  - destruct (Hm None eq_refl eq_refl (or_introl eq_refl)) as [E _].
    rewrite E. reflexivity.
Defined.

(** X13.  When the embedding call throws, ingestion and query answer 500
    after that one call: nothing is stored, the store is not read, no
    answer is generated.  The in-memory variant appends the message of the
    exception to its error text; the Firestore variant sends a fixed
    text. *)
Theorem embedding_failure_reported (env : Env) (w : World) (m : jsstring) :
  let client := getGeminiClients env in
  (forall req input,
     req_text req = Some input -> trim input <> [] ->
     exists chunks,
       Chunker.chunkText (length input) input None = Some chunks
       /\ (batchEmbedContents client chunks = Throw m ->
             (InMemory.key_configured (GEMINI_API_KEY env) = true ->
                InMemory.ingestText env req w
                = (Send 500
                     (lit "Error ingesting text on server: "
                        ++ (if truthy m then m else lit "unknown error")),
                   log w [EvBatchEmbed chunks]))
             /\ Firestore.ingestText env req w
                = (Send 500 (lit "Error ingesting text"), log w [EvBatchEmbed chunks])))
  /\ (forall message,
        trim message <> [] -> classify (engine env) message = Question ->
        embedContent client message = Throw m ->
        (InMemory.key_configured (GEMINI_API_KEY env) = true ->
           InMemory.chatRag env {| req_message := Some message |} w
           = (Send 500
                (lit "Error generating answer: "
                   ++ (if truthy m then m else lit "unknown error")),
              log w [EvEmbed message]))
        /\ Firestore.chatRag env {| req_message := Some message |} w
           = (Send 500 (lit "Error generating answer"), log w [EvEmbed message])).
Proof.
  intros client. split.
  - intros req input Ht Htrim.
    destruct (handler_chunks input Htrim) as (chunks & Hrun & Hrun' & _).
    exists chunks. split; [exact Hrun |]. intros Hthrow. split.
    + intros Hkey.
      rewrite (InMemory_ingest_run env w req input chunks Ht Htrim Hkey Hrun').
      fold client. now rewrite Hthrow.
    + rewrite (Firestore_ingest_run env w req input chunks Ht Htrim Hrun).
      fold client. now rewrite Hthrow.
  - intros message Htrim Hclass Hthrow. split.
    + intros Hkey. rewrite (InMemory_question_run env message w Htrim Hkey Hclass).
      fold client. now rewrite Hthrow.
    + rewrite (Firestore_question_retrieve env message w Htrim Hclass).
      unfold try_catch. rewrite retrieve_run. fold client. now rewrite Hthrow.
Qed.

End FailureTheorems.

(** ** What a query may answer *)

Section OutcomeFacts.
Import JsString Similarity Ranker Classifier ContextAssembler Effects Texts HandlerSpec ServiceSpec.

Lemma missing_inmem_blank (x : option jsstring) :
  InMemory.missing_or_blank x = true <-> blank x.
Proof.
  split; [| apply blank_missing_inmem].
  destruct x as [s |]; cbn; [| auto]. intros H.
  destruct s as [| c s]; [reflexivity |]. cbn [truthy negb orb] in H.
  now destruct (trim (c :: s)).
Qed.

Lemma missing_fs_blank (x : option jsstring) :
  Firestore.missing_or_blank x = true <-> blank x.
Proof.
  split; [| apply blank_missing_fs].
  destruct x as [s |]; cbn; [| auto]. intros H.
  destruct s as [| c s]; [reflexivity |]. cbn [truthy negb orb] in H.
  now destruct (trim (c :: s)).
Qed.

(** The greeting path of the in-memory handler. *)
Lemma InMemory_greeting_run (env : Env) (message : jsstring) (w : World) :
  trim message <> [] ->
  InMemory.key_configured (GEMINI_API_KEY env) = true ->
  classify (engine env) message = Greeting ->
  InMemory.chatRag env {| req_message := Some message |} w
  = (match generateContent (getGeminiClients env) (InMemory.greetPrompt message) with
     | Ret resp => JsonChat (InMemory.answer_of resp InMemory.GREETING_FALLBACK) []
     | Throw m => Send 500 (chat_error m)
     end,
     log w [EvGenerate (InMemory.greetPrompt message)]).
Proof.
  intros Htrim Hkey Hclass. unfold InMemory.chatRag, try_catch. cbn [req_message].
  rewrite (present_inmem _ Htrim), Hkey, Hclass. cbn [negb].
  unfold bind, emit, lift, ret.
  now destruct (generateContent _ _).
Qed.

(** The greeting path of the Firestore handler and of the Cloud Function:
    they differ by the prompt and the fallback. *)
Lemma Firestore_greeting_run (env : Env) (message : jsstring) (w : World) :
  trim message <> [] ->
  classify (engine env) message = Greeting ->
  Firestore.chatRag env {| req_message := Some message |} w
  = (match generateContent (getGeminiClients env) (Firestore.greetPrompt message) with
     | Ret resp => JsonChat (Firestore.answer_of resp HI) []
     | Throw _ => Send 500 (lit "Error generating answer")
     end,
     log w [EvGenerate (Firestore.greetPrompt message)]).
Proof.
  intros Htrim Hclass. unfold Firestore.chatRag, try_catch. cbn [req_message].
  rewrite (present_fs _ Htrim), Hclass.
  unfold bind, emit, lift, ret.
  now destruct (generateContent _ _).
Qed.

Lemma Cloud_greeting_run (env : Env) (message : jsstring) (w : World) :
  trim message <> [] ->
  classify (engine env) message = Greeting ->
  CloudFunctions.chatRag_body env {| req_message := Some message |} w
  = (match generateContent (getGeminiClients env) (CloudFunctions.greetPrompt message) with
     | Ret resp =>
         JsonChat (Firestore.answer_of resp CloudFunctions.GREETING_FALLBACK) []
     | Throw _ => Send 500 (lit "Error generating answer")
     end,
     log w [EvGenerate (CloudFunctions.greetPrompt message)]).
Proof.
  intros Htrim Hclass. unfold CloudFunctions.chatRag_body, try_catch. cbn [req_message].
  rewrite (present_fs _ Htrim), Hclass.
  unfold bind, emit, lift, ret.
  now destruct (generateContent _ _).
Qed.

Lemma answered_chat_outcome (r : Response) : answered_or_failed r -> chat_outcome r.
Proof. unfold chat_outcome. intros [H | H]; auto. Qed.

Lemma answered_not_missing (r : Response) :
  answered_or_failed r -> r <> Send 400 MISSING_MESSAGE.
Proof. intros [(a & t & -> & _) | (b & ->)]; discriminate. Qed.

Lemma retrieve_answered (env : Env) prompt_of (message : jsstring) (w : World) :
  answered_or_failed
    (fst (try_catch (CloudFunctions.retrieve env prompt_of message)
            (fun _ => Send 500 (lit "Error generating answer")) w)).
Proof.
  unfold try_catch. rewrite retrieve_run.
  destruct (embedContent _ _) as [[values |] | m]; cbn [fst];
    try (right; eexists; reflexivity).
  destruct (firestoreUp env); cbn [fst]; try (right; eexists; reflexivity).
  destruct (scored_or_error _ _) as [scored | m]; cbn [fst];
    try (right; eexists; reflexivity).
  destruct (generateContent _ _) as [resp | m]; cbn [fst];
    try (right; eexists; reflexivity).
  left. do 2 eexists. split; [reflexivity |].
  rewrite length_map, length_firstn. unfold TOP_K. lia.
Qed.

Lemma InMemory_chat_answered (env : Env) (message : jsstring) (w : World) :
  trim message <> [] ->
  answered_or_failed (fst (InMemory.chatRag env {| req_message := Some message |} w)).
Proof.
  intros Htrim.
  destruct (InMemory.key_configured (GEMINI_API_KEY env)) eqn:Hkey.
  2: { unfold InMemory.chatRag, try_catch. cbn [req_message].
       rewrite (present_inmem _ Htrim), Hkey. right. eexists. reflexivity. }
  destruct (classify (engine env) message) eqn:Hclass.
  - rewrite (InMemory_greeting_run env message w Htrim Hkey Hclass). cbn [fst].
    destruct (generateContent _ _); [left | right]; repeat eexists. cbn. lia.
  - rewrite (InMemory_question_run env message w Htrim Hkey Hclass).
    destruct (embedContent _ _) as [embRes | m]; cbn [fst];
      [| right; eexists; reflexivity].
    destruct (generateContent _ _); [left | right; eexists; reflexivity].
    do 2 eexists. split; [reflexivity |]. rewrite length_map. apply topK_at_most.
Qed.

Lemma Firestore_chat_answered (env : Env) (message : jsstring) (w : World) :
  trim message <> [] ->
  answered_or_failed (fst (Firestore.chatRag env {| req_message := Some message |} w)).
Proof.
  intros Htrim. destruct (classify (engine env) message) eqn:Hclass.
  - rewrite (Firestore_greeting_run env message w Htrim Hclass). cbn [fst].
    destruct (generateContent _ _); [left | right]; repeat eexists. cbn. lia.
  - rewrite (Firestore_question_retrieve env message w Htrim Hclass).
    apply retrieve_answered.
Qed.

Lemma Cloud_chat_answered (env : Env) (message : jsstring) (w : World) :
  trim message <> [] ->
  answered_or_failed
    (fst (CloudFunctions.chatRag_body env {| req_message := Some message |} w)).
Proof.
  intros Htrim. destruct (classify (engine env) message) eqn:Hclass.
  - rewrite (Cloud_greeting_run env message w Htrim Hclass). cbn [fst].
    destruct (generateContent _ _); [left | right]; repeat eexists. cbn. lia.
  - unfold CloudFunctions.chatRag_body. cbn [req_message].
    rewrite (present_fs _ Htrim), Hclass. apply retrieve_answered.
Qed.

Lemma Cloud_plain_answered (env : Env) (message : jsstring) (w : World) :
  trim message <> [] ->
  answered_or_failed
    (fst (CloudFunctions.chatRag_plain_body env {| req_message := Some message |} w)).
Proof.
  intros Htrim. unfold CloudFunctions.chatRag_plain_body. cbn [req_message].
  rewrite (present_fs _ Htrim). apply retrieve_answered.
Qed.

End OutcomeFacts.

(** X14.  What a query may answer.  In every variant the response of
    the query handler is an answer with five chunks at most, the 400
    [Missing message], or a 500; it is the 400 exactly when the message is
    absent or blank after trimming. *)
Theorem chatRag_outcomes (env : Effects.Env) (w : Effects.World) (req : ChatRequest) :
  let outs :=
    [fst (InMemory.chatRag env req w); fst (Firestore.chatRag env req w);
     fst (CloudFunctions.chatRag_body env req w);
     fst (CloudFunctions.chatRag_plain_body env req w)] in
  Forall ServiceSpec.chat_outcome outs
  /\ Forall (fun r => r = Send 400 Texts.MISSING_MESSAGE
                      <-> HandlerSpec.blank (req_message req)) outs.
Proof.
  intros outs. unfold outs. clear outs.
  destruct (Firestore.missing_or_blank (req_message req)) eqn:Hb.
  - pose proof (proj1 (missing_fs_blank _) Hb) as B.
    pose proof (blank_missing_inmem _ B) as Hb'.
    assert (E1 : fst (InMemory.chatRag env req w) = Send 400 Texts.MISSING_MESSAGE)
      by (unfold InMemory.chatRag, Effects.try_catch; now rewrite Hb').
    assert (E2 : fst (Firestore.chatRag env req w) = Send 400 Texts.MISSING_MESSAGE)
      by (unfold Firestore.chatRag; now rewrite Hb).
    assert (E3 : fst (CloudFunctions.chatRag_body env req w)
                 = Send 400 Texts.MISSING_MESSAGE)
      by (unfold CloudFunctions.chatRag_body; now rewrite Hb).
    assert (E4 : fst (CloudFunctions.chatRag_plain_body env req w)
                 = Send 400 Texts.MISSING_MESSAGE)
      by (unfold CloudFunctions.chatRag_plain_body; now rewrite Hb).
    rewrite E1, E2, E3, E4.
    split.
    + repeat (apply Forall_cons; [right; left; reflexivity |]). apply Forall_nil.
    + repeat (apply Forall_cons; [split; intros _; [exact B | reflexivity] |]).
      apply Forall_nil.
  - destruct (not_blank_fs _ Hb) as (message & Hm & Htrim).
    destruct req as [x]. cbn [req_message] in *. subst x.
    pose proof (InMemory_chat_answered env message w Htrim) as A1.
    pose proof (Firestore_chat_answered env message w Htrim) as A2.
    pose proof (Cloud_chat_answered env message w Htrim) as A3.
    pose proof (Cloud_plain_answered env message w Htrim) as A4.
    split.
    + repeat (apply Forall_cons; [now apply answered_chat_outcome |]). apply Forall_nil.
    + repeat (apply Forall_cons;
              [split;
               [intros E; exfalso; revert E; now apply answered_not_missing
               | intros B; exfalso; apply Htrim; exact B] |]).
      apply Forall_nil.
Qed.

(** ** Calls to the provider *)

Section BudgetFacts.
Import JsString Similarity Ranker Classifier ContextAssembler Effects Texts HandlerSpec ServiceSpec.

Lemma budget_none (n : nat) (r : Response) (w : World) : within_budget n w (r, w).
Proof. exists []. cbn. split; [now rewrite app_nil_r | lia]. Qed.

Lemma budget_log (n : nat) (r : Response) (w : World) (evs : list event) :
  provider_calls evs <= n -> within_budget n w (r, log w evs).
Proof. intros H. now exists evs. Qed.

Lemma provider_calls_writes (k n : nat) :
  provider_calls (repeat (EvStoreWrite k) n) = 0.
Proof. unfold provider_calls. induction n as [| n IH]; [reflexivity | exact IH]. Qed.

Lemma retrieve_budget (env : Env) prompt_of (message : jsstring) (w : World) handler :
  within_budget 2 w (try_catch (CloudFunctions.retrieve env prompt_of message) handler w).
Proof.
  unfold try_catch. rewrite retrieve_run.
  destruct (embedContent _ _) as [[values |] | m];
    try (apply budget_log; cbn; lia).
  destruct (firestoreUp env); try (apply budget_log; cbn; lia).
  destruct (scored_or_error _ _) as [scored | m]; try (apply budget_log; cbn; lia).
  cbv zeta. destruct (generateContent _ _); apply budget_log; cbn; lia.
Qed.

End BudgetFacts.

Section BudgetTheorems.
Import JsString Similarity Ranker Classifier ContextAssembler Effects Texts HandlerSpec ServiceSpec.

(** X15.  Calls to the provider.  An ingestion request makes one call to
    the provider at most, whatever the number of chunks; a query makes two
    at most. *)
Theorem provider_call_budget (env : Env) (w : World) (ingest : IngestRequest)
    (chat : ChatRequest) :
  within_budget 1 w (InMemory.ingestText env ingest w)
  /\ within_budget 1 w (Firestore.ingestText env ingest w)
  /\ within_budget 2 w (InMemory.chatRag env chat w)
  /\ within_budget 2 w (Firestore.chatRag env chat w)
  /\ within_budget 2 w (CloudFunctions.chatRag_body env chat w)
  /\ within_budget 2 w (CloudFunctions.chatRag_plain_body env chat w).
Proof.
  split; [| split; [| split; [| split; [| split]]]].
  - destruct (InMemory.missing_or_blank (req_text ingest)) eqn:Hb.
    { unfold InMemory.ingestText, try_catch. rewrite Hb. apply budget_none. }
    destruct (InMemory.key_configured (GEMINI_API_KEY env)) eqn:Hkey.
    2: { unfold InMemory.ingestText, try_catch. rewrite Hb, Hkey. apply budget_none. }
    destruct (not_blank_inmem _ Hb) as (input & Ht & Htrim).
    destruct (handler_chunks input Htrim) as (chunks & _ & Hrun & _).
    rewrite (InMemory_ingest_run env w ingest input chunks Ht Htrim Hkey Hrun).
    destruct (batchEmbedContents _ _) as [embeddings | m].
    + eexists. cbn [snd trace]. split; [reflexivity |].
      unfold provider_calls. cbn [filter is_provider_call length].
      fold (provider_calls (repeat (EvStoreWrite 1) (length chunks))).
      rewrite provider_calls_writes. lia.
    + apply budget_log. cbn. lia.
  - destruct (Firestore.missing_or_blank (req_text ingest)) eqn:Hb.
    { unfold Firestore.ingestText. rewrite Hb. apply budget_none. }
    destruct (not_blank_fs _ Hb) as (input & Ht & Htrim).
    destruct (handler_chunks input Htrim) as (chunks & Hrun & _).
    rewrite (Firestore_ingest_run env w ingest input chunks Ht Htrim Hrun).
    destruct (batchEmbedContents _ _) as [embeddings | m].
    + eexists. cbn [snd trace]. split; [reflexivity |]. cbn. lia.
    + apply budget_log. cbn. lia.
  - destruct (InMemory.missing_or_blank (req_message chat)) eqn:Hb.
    { unfold InMemory.chatRag, try_catch. rewrite Hb. apply budget_none. }
    destruct (InMemory.key_configured (GEMINI_API_KEY env)) eqn:Hkey.
    2: { unfold InMemory.chatRag, try_catch. rewrite Hb, Hkey. apply budget_none. }
    destruct (not_blank_inmem _ Hb) as (message & Hm & Htrim).
    destruct chat as [x]. cbn [req_message] in Hm. subst x.
    destruct (classify (engine env) message) eqn:Hclass.
    + rewrite (InMemory_greeting_run env message w Htrim Hkey Hclass).
      apply budget_log. cbn. lia.
    + rewrite (InMemory_question_run env message w Htrim Hkey Hclass).
      destruct (embedContent _ _) as [embRes | m]; apply budget_log; cbn; lia.
  - destruct (Firestore.missing_or_blank (req_message chat)) eqn:Hb.
    { unfold Firestore.chatRag. rewrite Hb. apply budget_none. }
    destruct (not_blank_fs _ Hb) as (message & Hm & Htrim).
    destruct chat as [x]. cbn [req_message] in Hm. subst x.
    destruct (classify (engine env) message) eqn:Hclass.
    + rewrite (Firestore_greeting_run env message w Htrim Hclass).
      apply budget_log. cbn. lia.
    + rewrite (Firestore_question_retrieve env message w Htrim Hclass).
      apply retrieve_budget.
  - destruct (Firestore.missing_or_blank (req_message chat)) eqn:Hb.
    { unfold CloudFunctions.chatRag_body. rewrite Hb. apply budget_none. }
    destruct (not_blank_fs _ Hb) as (message & Hm & Htrim).
    destruct chat as [x]. cbn [req_message] in Hm. subst x.
    destruct (classify (engine env) message) eqn:Hclass.
    + rewrite (Cloud_greeting_run env message w Htrim Hclass).
      apply budget_log. cbn. lia.
    + unfold CloudFunctions.chatRag_body. cbn [req_message].
      rewrite (present_fs _ Htrim), Hclass. apply retrieve_budget.
  - destruct (Firestore.missing_or_blank (req_message chat)) eqn:Hb.
    { unfold CloudFunctions.chatRag_plain_body. rewrite Hb. apply budget_none. }
    destruct (not_blank_fs _ Hb) as (message & Hm & Htrim).
    destruct chat as [x]. cbn [req_message] in Hm. subst x.
    unfold CloudFunctions.chatRag_plain_body. cbn [req_message].
    rewrite (present_fs _ Htrim). apply retrieve_budget.
Qed.

End BudgetTheorems.

(** ** Identifiers of the in-memory store *)

Section IdFacts.
Import JsString Effects HandlerSpec ServiceSpec.

Lemma lit_inj (s1 s2 : string) : lit s1 = lit s2 -> s1 = s2.
Proof.
  unfold lit. intros H. apply (f_equal (List.map ascii_of_N)) in H.
  rewrite !map_map in H.
  rewrite !(map_ext _ (fun a => a) ascii_N_embedding), !map_id in H.
  apply (f_equal string_of_list_ascii) in H.
  now rewrite !string_of_list_ascii_of_string in H.
Qed.

Lemma to_uint_nonnil (n : nat) : Nat.to_uint n <> Decimal.Nil.
Proof.
  rewrite <- (Unsigned.of_to n) at 1. rewrite Unsigned.to_of. apply unorm_nonnil.
Qed.

(** Two numbers with the same decimal string are the same number. *)
Lemma decimal_inj (n m : nat) : decimal n = decimal m -> n = m.
Proof.
  unfold decimal. intros H. apply lit_inj in H.
  apply (f_equal NilZero.uint_of_string) in H.
  rewrite !NilZero.usu in H by apply to_uint_nonnil.
  injection H as H. now apply Unsigned.to_uint_inj.
Qed.

Lemma numbered_nodup (w : World) : numbered w -> NoDup (List.map id (store w)).
Proof.
  intros [H _]. rewrite H. apply Finite.Injective_map_NoDup.
  - intros n m. apply decimal_inj.
  - apply seq_NoDup.
Qed.

Lemma numbered_same (w w' : World) : same_store w w' -> numbered w -> numbered w'.
Proof. unfold same_store, numbered. intros [-> ->]. auto. Qed.

Lemma numbered_log (w : World) (evs : list event) : numbered w -> numbered (log w evs).
Proof. auto. Qed.

Lemma ingest_numbered (env : Env) (req : IngestRequest) (w : World) :
  numbered w -> numbered (snd (InMemory.ingestText env req w)).
Proof.
  intros Hw.
  destruct (InMemory.missing_or_blank (req_text req)) eqn:Hb.
  { unfold InMemory.ingestText, try_catch. now rewrite Hb. }
  destruct (InMemory.key_configured (GEMINI_API_KEY env)) eqn:Hkey.
  2: { unfold InMemory.ingestText, try_catch. now rewrite Hb, Hkey. }
  destruct (not_blank_inmem _ Hb) as (input & Ht & Htrim).
  destruct (handler_chunks input Htrim) as (chunks & _ & Hrun & _).
  rewrite (InMemory_ingest_run env w req input chunks Ht Htrim Hkey Hrun).
  destruct (batchEmbedContents _ _) as [embeddings | m]; [| exact Hw].
  destruct Hw as [Hids Hnext]. unfold numbered. cbn [snd store nextId].
  rewrite length_app, stored_chunks_length, map_app, Hids.
  rewrite (stored_chunks_id _ decimal) by reflexivity.
  rewrite Hnext, seq_app, map_app. split; [reflexivity | lia].
Qed.

Lemma serve_numbered (env : Env) (r : Request) (w : World) :
  numbered w -> numbered (snd (serve env r w)).
Proof.
  destruct r as [req | req]; cbn [serve].
  - apply ingest_numbered.
  - apply numbered_same. apply InMemory_chatRag_keeps.
Qed.

Lemma serve_all_numbered (reqs : list (Env * Request)) :
  forall w, numbered w -> numbered (serve_all reqs w).
Proof.
  induction reqs as [| [env r] rest IH]; intros w Hw; [exact Hw |].
  cbn [serve_all]. apply IH. now apply serve_numbered.
Qed.

End IdFacts.

(** X16.  Identifiers in the in-memory variant.  After any sequence of
    ingestion and query requests handled one after the other from the
    initial state, the stored chunks carry the ids [1], [2], ... in the
    order they were added, [nextId] is the next number, and no two chunks
    share an id. *)
Theorem in_memory_ids_numbered (reqs : list (Effects.Env * ServiceSpec.Request)) :
  let w := ServiceSpec.serve_all reqs HandlerSpec.empty_world in
  List.map id (Effects.store w)
  = List.map JsString.decimal (seq 1 (length (Effects.store w)))
  /\ Effects.nextId w = S (length (Effects.store w))
  /\ NoDup (List.map id (Effects.store w)).
Proof.
  intros w.
  assert (H : ServiceSpec.numbered w).
  { apply serve_all_numbered. split; reflexivity. }
  split; [apply H |]. split; [apply H |]. now apply numbered_nodup.
Qed.

(** ** The method tests of the Cloud Functions *)

Section MethodFacts.
Import JsString Classifier Effects Texts HandlerSpec ServiceSpec CloudFunctions.

Lemma same_string_eq (a b : jsstring) : same_string a b = true <-> a = b.
Proof.
  revert b. induction a as [| x a IH]; intros [| y b]; cbn [same_string];
    try (split; [discriminate | congruence]); [tauto |].
  rewrite andb_true_iff, N.eqb_eq, IH. split; [intros [-> ->] | intros [= -> ->]]; auto.
Qed.

Lemma same_string_neq (a b : jsstring) : a <> b -> same_string a b = false.
Proof.
  intros H. destruct (same_string a b) eqn:E; [| reflexivity].
  apply same_string_eq in E. contradiction.
Qed.

Lemma method_options (Body : Type) (handler : Body -> World -> Response * World)
    (body : Body) (w : World) :
  method_checked handler {| req_method := lit "OPTIONS"; req_body := body |} w
  = ({| res_headers := CORS; res_sent := Send 204 [] |}, w).
Proof. reflexivity. Qed.

Lemma method_other (Body : Type) (handler : Body -> World -> Response * World)
    (method : jsstring) (body : Body) (w : World) :
  method <> lit "OPTIONS" -> method <> lit "POST" ->
  method_checked handler {| req_method := method; req_body := body |} w
  = ({| res_headers := CORS; res_sent := Send 405 (lit "Use POST") |}, w).
Proof.
  intros H1 H2. unfold method_checked. cbn [req_method].
  now rewrite (same_string_neq _ _ H1), (same_string_neq _ _ H2).
Qed.

Lemma method_post (Body : Type) (handler : Body -> World -> Response * World)
    (body : Body) (w : World) :
  method_checked handler {| req_method := lit "POST"; req_body := body |} w
  = ({| res_headers := CORS; res_sent := fst (handler body w) |}, snd (handler body w)).
Proof.
  unfold method_checked. cbn [req_method req_body].
  change (same_string (lit "POST") (lit "OPTIONS")) with false.
  change (same_string (lit "POST") (lit "POST")) with true. cbn [negb].
  now destruct (handler body w).
Qed.

Lemma method_headers (Body : Type) (handler : Body -> World -> Response * World)
    (req : HttpRequest Body) (w : World) :
  res_headers (fst (method_checked handler req w)) = CORS.
Proof.
  unfold method_checked. destruct (same_string _ _); [reflexivity |].
  destruct (negb _); [reflexivity |]. now destruct (handler _ w).
Qed.

End MethodFacts.

Section FunctionTheorems.
Import JsString Classifier Effects Texts HandlerSpec ServiceSpec CloudFunctions.

(** X17.  The Cloud Functions test the method before they read the body.
    A request with method OPTIONS is answered 204 with an empty body, a
    request with any method other than OPTIONS and POST is answered 405
    [Use POST]; neither calls the provider nor touches the store, whatever
    the body.  A POST goes on to the handler: a blank text is answered 400.
    Every response carries the two [Access-Control-Allow-*] headers. *)
Theorem functions_test_method (env : Env) (w : World) (method : jsstring)
    (ingest : IngestRequest) (chat : ChatRequest) :
  let to_ingest := {| req_method := method; req_body := ingest |} in
  let to_chat := {| req_method := method; req_body := chat |} in
  let all_send (r : Response) : Prop :=
    CloudFunctions.ingestText env to_ingest w
    = ({| res_headers := CORS; res_sent := r |}, w)
    /\ CloudFunctions.chatRag env to_chat w
       = ({| res_headers := CORS; res_sent := r |}, w)
    /\ CloudFunctions.chatRag_plain env to_chat w
       = ({| res_headers := CORS; res_sent := r |}, w) in
  (method = lit "OPTIONS" -> all_send (Send 204 []))
  /\ (method <> lit "OPTIONS" -> method <> lit "POST" ->
        all_send (Send 405 (lit "Use POST")))
  /\ (method = lit "POST" ->
        CloudFunctions.ingestText env to_ingest w
        = ({| res_headers := CORS;
              res_sent := fst (Firestore.ingestText env ingest w) |},
           snd (Firestore.ingestText env ingest w))
        /\ CloudFunctions.chatRag env to_chat w
           = ({| res_headers := CORS; res_sent := fst (chatRag_body env chat w) |},
              snd (chatRag_body env chat w))
        /\ CloudFunctions.chatRag_plain env to_chat w
           = ({| res_headers := CORS;
                 res_sent := fst (chatRag_plain_body env chat w) |},
              snd (chatRag_plain_body env chat w))
        /\ (blank (req_text ingest) ->
              res_sent (fst (CloudFunctions.ingestText env to_ingest w))
              = Send 400 MISSING_TEXT))
  /\ res_headers (fst (CloudFunctions.ingestText env to_ingest w)) = CORS
  /\ res_headers (fst (CloudFunctions.chatRag env to_chat w)) = CORS
  /\ res_headers (fst (CloudFunctions.chatRag_plain env to_chat w)) = CORS.
Proof.
  intros to_ingest to_chat all_send.
  split; [| split; [| split; [| split; [| split]]]].
  - intros ->. repeat split; apply method_options.
  - intros H1 H2. repeat split; now apply method_other.
  - intros ->. split; [apply method_post |]. split; [apply method_post |].
    split; [apply method_post |].
    intros Hb. unfold CloudFunctions.ingestText, to_ingest. rewrite method_post.
    cbn [fst res_sent]. unfold Firestore.ingestText.
    now rewrite (blank_missing_fs _ Hb).
  - apply method_headers.
  - apply method_headers.
  - apply method_headers.
Qed.

(** X18.  The two sets of Cloud Functions differ on greetings.  The first
    answers a greeting with one generation call and no retrieval; the
    second has no classifier: it starts by embedding the message, as for
    any question. *)
Theorem functions_differ_on_greetings (env : Env) (w : World) (message : jsstring) :
  trim message <> [] ->
  classify (engine env) message = Greeting ->
  let chat := {| req_message := Some message |} in
  chatRag_body env chat w
  = (match generateContent (getGeminiClients env) (CloudFunctions.greetPrompt message) with
     | Ret resp =>
         JsonChat (Firestore.answer_of resp CloudFunctions.GREETING_FALLBACK) []
     | Throw _ => Send 500 (lit "Error generating answer")
     end,
     log w [EvGenerate (CloudFunctions.greetPrompt message)])
  /\ answers_without_retrieval w (chatRag_body env chat w)
  /\ (exists rest,
        trace (snd (chatRag_plain_body env chat w)) = trace w ++ EvEmbed message :: rest)
  /\ ~ answers_without_retrieval w (chatRag_plain_body env chat w).
Proof.
  intros Htrim Hclass chat.
  pose proof (Cloud_greeting_run env message w Htrim Hclass) as Hg. fold chat in Hg.
  assert (Hp : exists rest,
             trace (snd (chatRag_plain_body env chat w))
             = trace w ++ EvEmbed message :: rest).
  { unfold chatRag_plain_body, chat. cbn [req_message].
    rewrite (present_fs _ Htrim), try_catch_snd, retrieve_run.
    destruct (embedContent _ _) as [[values |] | m]; try (now eexists).
    destruct (firestoreUp env); try (now eexists).
    destruct (scored_or_error _ _) as [scored | m]; now eexists. }
  split; [exact Hg |]. split; [| split; [exact Hp |]].
  - rewrite Hg. unfold answers_without_retrieval. cbn [fst snd log store trace].
    repeat split.
    + intros answer topChunks. destruct (generateContent _ _); congruence.
    + now eexists.
  - intros (_ & _ & evs & E & Hno). destruct Hp as [rest Hp].
    rewrite Hp in E. apply app_inv_head in E. subst evs. discriminate.
Qed.

(** The message [hi]. *)
Lemma functions_differ_on_greetings_witness :
  classify (engine (env_of answering None)) (lit "hi") = Greeting
  /\ answers_without_retrieval empty_world
       (chatRag_body (env_of answering None) chat_hi empty_world)
  /\ ~ answers_without_retrieval empty_world
         (chatRag_plain_body (env_of answering None) chat_hi empty_world).
Proof.
  assert (Hm : trim (lit "hi") <> []) by (vm_compute; discriminate).
  split; [reflexivity |].
  split;
    apply (functions_differ_on_greetings (env_of answering None) empty_world (lit "hi")
             Hm eq_refl).
Defined.

End FunctionTheorems.

(** ** Queries one after the other *)

Section IsolationFacts.
Import JsString Similarity Ranker Classifier ContextAssembler Effects Texts HandlerSpec ServiceSpec.

Lemma retrieve_store_only (env : Env) prompt_of (message : jsstring) handler
    (w1 w2 : World) :
  store w1 = store w2 ->
  fst (try_catch (CloudFunctions.retrieve env prompt_of message) handler w1)
  = fst (try_catch (CloudFunctions.retrieve env prompt_of message) handler w2).
Proof.
  intros H. unfold try_catch. rewrite !retrieve_run, H.
  destruct (embedContent _ _) as [[values |] | m]; try reflexivity.
  destruct (firestoreUp env); try reflexivity.
  destruct (scored_or_error _ _) as [scored | m]; try reflexivity.
  cbv zeta. now destruct (generateContent _ _).
Qed.

Lemma InMemory_chat_store_only (env : Env) (req : ChatRequest) (w1 w2 : World) :
  store w1 = store w2 ->
  fst (InMemory.chatRag env req w1) = fst (InMemory.chatRag env req w2).
Proof.
  intros H.
  destruct (InMemory.missing_or_blank (req_message req)) eqn:Hb.
  { unfold InMemory.chatRag, try_catch. now rewrite Hb. }
  destruct (InMemory.key_configured (GEMINI_API_KEY env)) eqn:Hkey.
  2: { unfold InMemory.chatRag, try_catch. now rewrite Hb, Hkey. }
  destruct (not_blank_inmem _ Hb) as (message & Hm & Htrim).
  destruct req as [x]. cbn [req_message] in Hm. subst x.
  destruct (classify (engine env) message) eqn:Hclass.
  - now rewrite !(InMemory_greeting_run env message _ Htrim Hkey Hclass).
  - rewrite !(InMemory_question_run env message _ Htrim Hkey Hclass), H.
    destruct (embedContent _ _) as [embRes | m]; [| reflexivity].
    cbv zeta. now destruct (generateContent _ _).
Qed.

Lemma Firestore_chat_store_only (env : Env) (req : ChatRequest) (w1 w2 : World) :
  store w1 = store w2 ->
  fst (Firestore.chatRag env req w1) = fst (Firestore.chatRag env req w2).
Proof.
  intros H.
  destruct (Firestore.missing_or_blank (req_message req)) eqn:Hb.
  { unfold Firestore.chatRag. now rewrite Hb. }
  destruct (not_blank_fs _ Hb) as (message & Hm & Htrim).
  destruct req as [x]. cbn [req_message] in Hm. subst x.
  destruct (classify (engine env) message) eqn:Hclass.
  - now rewrite !(Firestore_greeting_run env message _ Htrim Hclass).
  - rewrite !(Firestore_question_retrieve env message _ Htrim Hclass).
    now apply retrieve_store_only.
Qed.

Lemma Cloud_chat_store_only (env : Env) (req : ChatRequest) (w1 w2 : World) :
  store w1 = store w2 ->
  fst (CloudFunctions.chatRag_body env req w1)
  = fst (CloudFunctions.chatRag_body env req w2).
Proof.
  intros H.
  destruct (Firestore.missing_or_blank (req_message req)) eqn:Hb.
  { unfold CloudFunctions.chatRag_body. now rewrite Hb. }
  destruct (not_blank_fs _ Hb) as (message & Hm & Htrim).
  destruct req as [x]. cbn [req_message] in Hm. subst x.
  destruct (classify (engine env) message) eqn:Hclass.
  - now rewrite !(Cloud_greeting_run env message _ Htrim Hclass).
  - unfold CloudFunctions.chatRag_body. cbn [req_message].
    rewrite (present_fs _ Htrim), Hclass. now apply retrieve_store_only.
Qed.

Lemma Cloud_plain_store_only (env : Env) (req : ChatRequest) (w1 w2 : World) :
  store w1 = store w2 ->
  fst (CloudFunctions.chatRag_plain_body env req w1)
  = fst (CloudFunctions.chatRag_plain_body env req w2).
Proof.
  intros H. unfold CloudFunctions.chatRag_plain_body.
  destruct (Firestore.missing_or_blank (req_message req)); [reflexivity |].
  now apply retrieve_store_only.
Qed.

End IsolationFacts.

Section IsolationTheorems.
Import JsString Similarity Ranker Classifier ContextAssembler Effects Texts HandlerSpec ServiceSpec.

(** X19.  Queries do not influence each other: the response to a query
    is the same after an earlier query as without it, in every variant. *)
Theorem queries_do_not_interfere (env env' : Env) (w : World)
    (req earlier : ChatRequest) :
  fst (InMemory.chatRag env req (snd (InMemory.chatRag env' earlier w)))
  = fst (InMemory.chatRag env req w)
  /\ fst (Firestore.chatRag env req (snd (Firestore.chatRag env' earlier w)))
     = fst (Firestore.chatRag env req w)
  /\ fst (CloudFunctions.chatRag_body env req
            (snd (CloudFunctions.chatRag_body env' earlier w)))
     = fst (CloudFunctions.chatRag_body env req w)
  /\ fst (CloudFunctions.chatRag_plain_body env req
            (snd (CloudFunctions.chatRag_plain_body env' earlier w)))
     = fst (CloudFunctions.chatRag_plain_body env req w).
Proof.
  split; [| split; [| split]].
  - apply InMemory_chat_store_only. apply InMemory_chatRag_keeps.
  - apply Firestore_chat_store_only. apply Firestore_chatRag_keeps.
  - apply Cloud_chat_store_only. apply Cloud_chatRag_body_keeps.
  - apply Cloud_plain_store_only. apply Cloud_chatRag_plain_body_keeps.
Qed.

(** X20.  What is ingested is retrieved.  After an ingestion answered
    with [n] chunks, a question that gets an answer has
    [min (N + n) 5] top chunks, [N] the number of chunks stored before;
    when [N + n <= 5] their ids are the ids of the chunks stored before
    and the [n] new ids [String(nextId)], ..., each once. *)
Theorem ingested_chunks_are_candidates (env env' : Env) (w : World)
    (ingest : IngestRequest) (n : nat) (message answer : jsstring)
    (topChunks : list TopChunk) :
  fst (InMemory.ingestText env ingest w) = JsonIngest n ->
  classify (engine env') message = Question ->
  fst (InMemory.chatRag env' {| req_message := Some message |}
         (snd (InMemory.ingestText env ingest w)))
  = JsonChat answer topChunks ->
  length topChunks = Nat.min (length (store w) + n) 5
  /\ (length (store w) + n <= 5 ->
        Permutation (List.map t_id topChunks)
          (List.map id (store w) ++ List.map decimal (seq (nextId w) n))).
Proof.
  intros Hingest Hclass Hchat.
  destruct (InMemory.missing_or_blank (req_text ingest)) eqn:Hb.
  { unfold InMemory.ingestText, try_catch in Hingest. rewrite Hb in Hingest.
    discriminate. }
  destruct (InMemory.key_configured (GEMINI_API_KEY env)) eqn:Hkey.
  2: { unfold InMemory.ingestText, try_catch in Hingest. rewrite Hb, Hkey in Hingest.
       discriminate. }
  destruct (not_blank_inmem _ Hb) as (input & Ht & Htrim).
  destruct (handler_chunks input Htrim) as (chunks & _ & Hrun & _).
  rewrite (InMemory_ingest_run env w ingest input chunks Ht Htrim Hkey Hrun)
    in Hingest, Hchat.
  destruct (batchEmbedContents _ _) as [embeddings | m]; [| discriminate].
  cbn [fst snd] in Hingest, Hchat. injection Hingest as <-.
  set (added := stored_chunks _ 0 (nextId w) chunks) in Hchat.
  set (w1 := {| store := store w ++ added; nextId := _; trace := _ |}) in Hchat.
  assert (Hadded : length added = length chunks) by apply stored_chunks_length.
  assert (Hids : List.map id added = List.map decimal (seq (nextId w) (length chunks)))
    by (apply stored_chunks_id; reflexivity).
  destruct (InMemory.missing_or_blank (Some message)) eqn:Hbm.
  { unfold InMemory.chatRag, try_catch in Hchat. cbn [req_message] in Hchat.
    rewrite Hbm in Hchat. discriminate. }
  destruct (InMemory.key_configured (GEMINI_API_KEY env')) eqn:Hkey'.
  2: { unfold InMemory.chatRag, try_catch in Hchat. cbn [req_message] in Hchat.
       rewrite Hbm, Hkey' in Hchat. discriminate. }
  destruct (not_blank_inmem _ Hbm) as (message' & [= <-] & Htrim').
  rewrite (InMemory_question_run env' message w1 Htrim' Hkey' Hclass) in Hchat.
  destruct (embedContent _ _) as [embRes | m]; [| discriminate].
  cbv zeta in Hchat. cbn [fst] in Hchat.
  destruct (generateContent _ _) as [resp | m]; [| discriminate].
  injection Hchat as _ <-.
  set (q := InMemory.queryEmbedding_of embRes).
  pose proof (array_sort_perm Scored by_score_desc
                (List.map (to_scored q) (store w ++ added))) as P.
  fold (scored_sorted q (store w ++ added)) in P.
  assert (L : length (scored_sorted q (store w ++ added))
              = length (store w) + length chunks).
  { now rewrite (Permutation_length P), length_map, length_app, Hadded. }
  split.
  - rewrite length_map. unfold topK. rewrite length_firstn, L. unfold TOP_K. lia.
  - intros Hle. unfold topK. rewrite firstn_all2 by (rewrite L; exact Hle).
    rewrite (Permutation_map t_id (Permutation_map InMemory.to_topChunk P)).
    replace (List.map t_id
               (List.map InMemory.to_topChunk
                  (List.map (to_scored q) (store w ++ added))))
      with (List.map id (store w ++ added))
      by (rewrite !map_map; reflexivity).
    now rewrite map_app, Hids.
Qed.

(** One chunk ingested into the empty store, then a question. *)
Lemma ingested_chunks_are_candidates_witness :
  fst (InMemory.ingestText (env_of answering (Some A_KEY)) ingest_sky empty_world)
  = JsonIngest 1
  /\ Permutation
       (List.map t_id
          [{| t_id := lit "1"; t_sourceType := lit "doc"; t_sourceName := lit "unknown";
              t_score := 1%float |}])
       (List.map id (store empty_world) ++ List.map decimal (seq (nextId empty_world) 1)).
Proof.
  split; [vm_compute; reflexivity |].
  apply (ingested_chunks_are_candidates (env_of answering (Some A_KEY))
           (env_of answering (Some A_KEY)) empty_world ingest_sky 1
           (lit "what color is the sky") (lit "Hello!")
           [{| t_id := lit "1"; t_sourceType := lit "doc"; t_sourceName := lit "unknown";
               t_score := 1%float |}]).
  - vm_compute. reflexivity.
  - vm_compute. reflexivity.
  - vm_compute. reflexivity.
  - cbn. lia.
Defined.

End IsolationTheorems.

(** ** Chunks without an embedding, answers without a text *)

Section FallbackFacts.
Import JsString Similarity Ranker Classifier ContextAssembler Effects Texts HandlerSpec ServiceSpec.

Lemma nth_error_app_added (A : Type) (l added : list A) (k : nat) :
  nth_error (l ++ added) (length l + k) = nth_error added k.
Proof.
  rewrite nth_error_app2 by lia. f_equal. lia.
Qed.

Lemma answer_of_inmem_given (resp : option jsstring) (fallback : jsstring) :
  fallback <> [] -> InMemory.answer_of resp fallback <> [].
Proof.
  intros H. unfold InMemory.answer_of. destruct resp as [[| c t] |]; cbn; auto.
  discriminate.
Qed.

Lemma answer_of_fs_given (resp : option jsstring) (fallback : jsstring) :
  fallback <> [] -> Firestore.answer_of resp fallback <> [].
Proof.
  intros H. unfold Firestore.answer_of. destruct resp as [[| c t] |]; cbn; auto.
  discriminate.
Qed.

Lemma retrieve_answer_given (env : Env) prompt_of (message : jsstring) (w : World) :
  answer_given
    (fst (try_catch (CloudFunctions.retrieve env prompt_of message)
            (fun _ => Send 500 (lit "Error generating answer")) w)).
Proof.
  unfold try_catch. rewrite retrieve_run. intros answer topChunks.
  destruct (embedContent _ _) as [[values |] | m]; cbn [fst]; try discriminate.
  destruct (firestoreUp env); cbn [fst]; try discriminate.
  destruct (scored_or_error _ _) as [scored | m]; cbn [fst]; try discriminate.
  destruct (generateContent _ _) as [resp | m]; cbn [fst]; try discriminate.
  intros [= <- _]. now apply answer_of_fs_given.
Qed.

Lemma InMemory_answer_given (env : Env) (req : ChatRequest) (w : World) :
  answer_given (fst (InMemory.chatRag env req w)).
Proof.
  intros answer topChunks.
  destruct (InMemory.missing_or_blank (req_message req)) eqn:Hb.
  { unfold InMemory.chatRag, try_catch. rewrite Hb. discriminate. }
  destruct (InMemory.key_configured (GEMINI_API_KEY env)) eqn:Hkey.
  2: { unfold InMemory.chatRag, try_catch. rewrite Hb, Hkey. discriminate. }
  destruct (not_blank_inmem _ Hb) as (message & Hm & Htrim).
  destruct req as [x]. cbn [req_message] in Hm. subst x.
  destruct (classify (engine env) message) eqn:Hclass.
  - rewrite (InMemory_greeting_run env message w Htrim Hkey Hclass). cbn [fst].
    destruct (generateContent _ _); [| discriminate].
    intros [= <- _]. now apply answer_of_inmem_given.
  - rewrite (InMemory_question_run env message w Htrim Hkey Hclass).
    destruct (embedContent _ _) as [embRes | m]; cbn [fst]; [| discriminate].
    destruct (generateContent _ _); [| discriminate].
    intros [= <- _]. now apply answer_of_inmem_given.
Qed.

Lemma Firestore_answer_given (env : Env) (req : ChatRequest) (w : World) :
  answer_given (fst (Firestore.chatRag env req w)).
Proof.
  destruct (Firestore.missing_or_blank (req_message req)) eqn:Hb.
  { unfold Firestore.chatRag. rewrite Hb. intros answer topChunks. discriminate. }
  destruct (not_blank_fs _ Hb) as (message & Hm & Htrim).
  destruct req as [x]. cbn [req_message] in Hm. subst x.
  destruct (classify (engine env) message) eqn:Hclass.
  - rewrite (Firestore_greeting_run env message w Htrim Hclass). cbn [fst].
    intros answer topChunks. destruct (generateContent _ _); [| discriminate].
    intros [= <- _]. now apply answer_of_fs_given.
  - rewrite (Firestore_question_retrieve env message w Htrim Hclass).
    apply retrieve_answer_given.
Qed.

Lemma Cloud_answer_given (env : Env) (req : ChatRequest) (w : World) :
  answer_given (fst (CloudFunctions.chatRag_body env req w)).
Proof.
  destruct (Firestore.missing_or_blank (req_message req)) eqn:Hb.
  { unfold CloudFunctions.chatRag_body. rewrite Hb. intros answer topChunks.
    discriminate. }
  destruct (not_blank_fs _ Hb) as (message & Hm & Htrim).
  destruct req as [x]. cbn [req_message] in Hm. subst x.
  destruct (classify (engine env) message) eqn:Hclass.
  - rewrite (Cloud_greeting_run env message w Htrim Hclass). cbn [fst].
    intros answer topChunks. destruct (generateContent _ _); [| discriminate].
    intros [= <- _]. now apply answer_of_fs_given.
  - unfold CloudFunctions.chatRag_body. cbn [req_message].
    rewrite (present_fs _ Htrim), Hclass. apply retrieve_answer_given.
Qed.

Lemma Cloud_plain_answer_given (env : Env) (req : ChatRequest) (w : World) :
  answer_given (fst (CloudFunctions.chatRag_plain_body env req w)).
Proof.
  unfold CloudFunctions.chatRag_plain_body.
  destruct (Firestore.missing_or_blank (req_message req)).
  - intros answer topChunks. discriminate.
  - apply retrieve_answer_given.
Qed.

End FallbackFacts.

Section FallbackTheorems.
Import JsString Similarity Ranker Classifier ContextAssembler Effects Texts HandlerSpec ServiceSpec.

(** X21.  A chunk for which the provider returned no embedding (the
    answer is too short, or the entry has no [values]) is stored all the
    same, with an empty embedding, and scores [0] against every query. *)
Theorem chunk_without_embedding_scores_zero (env : Env) (w : World)
    (req : IngestRequest) (input : jsstring) :
  req_text req = Some input -> trim input <> [] ->
  exists chunks,
    Chunker.chunkText (length input) input None = Some chunks
    /\ forall embeddings k chunk,
         batchEmbedContents (getGeminiClients env) chunks = Ret embeddings ->
         nth_error chunks k = Some chunk ->
         nth_error embeddings k = None \/ nth_error embeddings k = Some None
         \/ nth_error embeddings k = Some (Some None) ->
         (InMemory.key_configured (GEMINI_API_KEY env) = true ->
            exists d,
              nth_error (store (snd (InMemory.ingestText env req w)))
                (length (store w) + k) = Some d
              /\ text d = chunk /\ embedding d = Some []
              /\ forall q, score_of q d = 0%float)
         /\ (firestoreUp env = true ->
               exists d,
                 nth_error (store (snd (Firestore.ingestText env req w)))
                   (length (store w) + k) = Some d
                 /\ text d = chunk /\ embedding d = Some []
                 /\ forall q, score_of q d = 0%float).
Proof.
  intros Ht Htrim.
  destruct (handler_chunks input Htrim) as (chunks & Hrun & Hrun' & _).
  exists chunks. split; [exact Hrun |].
  intros embeddings k chunk Hemb Hk Hnone. split.
  - intros Hkey.
    rewrite (InMemory_ingest_run env w req input chunks Ht Htrim Hkey Hrun'), Hemb.
    cbn [snd store]. rewrite nth_error_app_added.
    rewrite (stored_chunks_nth _ chunks 0 (nextId w) k chunk Hk).
    assert (E : InMemory.embedding_at embeddings k = []).
    { unfold InMemory.embedding_at.
      destruct Hnone as [-> | [-> | ->]]; reflexivity. }
    eexists. split; [reflexivity |]. unfold pushed_record. cbn [text embedding Nat.add].
    rewrite E. repeat split.
    intros q. unfold score_of. cbn [embedding]. apply cosineSimilarity_nil_r.
  - intros Hup.
    rewrite (Firestore_ingest_run env w req input chunks Ht Htrim Hrun), Hemb, Hup.
    cbn [snd store]. rewrite nth_error_app_added.
    rewrite (stored_chunks_nth _ chunks 0 (nextId w) k chunk Hk).
    assert (E : Firestore.embedding_at embeddings k = []).
    { unfold Firestore.embedding_at.
      destruct Hnone as [-> | [-> | ->]]; reflexivity. }
    eexists. split; [reflexivity |]. unfold set_record. cbn [text embedding Nat.add].
    rewrite E. repeat split.
    intros q. unfold score_of. cbn [embedding]. apply cosineSimilarity_nil_r.
Qed.

(** A provider that returns no embedding at all. *)
Lemma chunk_without_embedding_scores_zero_witness :
  trim (lit "The sky is blue. Grass is green.") <> []
  /\ exists chunks,
       Chunker.chunkText 32 (lit "The sky is blue. Grass is green.") None = Some chunks.
Proof.
  assert (Ht : trim (lit "The sky is blue. Grass is green.") <> [])
    by (vm_compute; discriminate).
  split; [exact Ht |].
  destruct (chunk_without_embedding_scores_zero (env_of no_embedding (Some A_KEY))
              empty_world ingest_sky (lit "The sky is blue. Grass is green.") eq_refl Ht)
    as (chunks & Hrun & _).
  now exists chunks.
Defined.

(** X22.  The [answer] of a query is never the empty string: when the
    generator returns no text or an empty one, the handler answers with
    its fixed fallback. *)
Theorem chatRag_answer_not_empty (env : Env) (w : World) (req : ChatRequest)
    (answer : jsstring) (topChunks : list TopChunk) :
  In (JsonChat answer topChunks)
    [fst (InMemory.chatRag env req w); fst (Firestore.chatRag env req w);
     fst (CloudFunctions.chatRag_body env req w);
     fst (CloudFunctions.chatRag_plain_body env req w)] ->
  answer <> [].
Proof.
  intros [H | [H | [H | [H | []]]]]; symmetry in H.
  - now apply (InMemory_answer_given env req w answer topChunks).
  - now apply (Firestore_answer_given env req w answer topChunks).
  - now apply (Cloud_answer_given env req w answer topChunks).
  - now apply (Cloud_plain_answer_given env req w answer topChunks).
Qed.

(** The answer to [hi]. *)
Lemma chatRag_answer_not_empty_witness :
  fst (Firestore.chatRag (env_of answering None) chat_hi empty_world)
  = JsonChat (lit "Hello!") []
  /\ lit "Hello!" <> [].
Proof.
  split; [reflexivity |].
  apply (chatRag_answer_not_empty (env_of answering None) empty_world chat_hi
           (lit "Hello!") []).
  right. left. reflexivity.
Defined.

End FallbackTheorems.

(** ** Ranking in the handlers *)

Section RankingInService.
Import JsString Similarity Ranker Classifier ContextAssembler Effects Texts HandlerSpec ServiceSpec RankingSpec.







Example topK_tied_names :
  List.map s_id (topK tied_query tied_docs)
  = [lit "b"; lit "d"; lit "f"; lit "e"; lit "a"].
Proof. vm_compute. reflexivity. Qed.

End RankingInService.
